(** * eml-parse-js: the MIME part-tree parser and the extraction pass

    A shallow embedding of [parse], [parseRecursive], [completeBoundary],
    [unquoteString] and [read] of the library's main module, with the
    properties of its specification stated and settled against it.

    Conventions of the embedding.
    - A JavaScript string is a [string]: a sequence of code units, here
      restricted to the code units 0..255.
    - An exception is a value of [JsError]; code that can throw returns a
      [Result], whose [Throw] also carries the state of the object under
      construction when the exception left the function (JavaScript
      mutations made before a throw stay visible to the caller).
    - Each regular expression literal of the source is translated into one
      function named after the place it is used; the comment above it gives
      the literal and the reading of its backtracking.
    - The module-level flag [verbose] is [false] and is never assigned, so
      the logging guarded by it is left out; [console.warn] and
      [console.error] have no effect on any returned value. *)

From Stdlib Require Import String Ascii NArith ZArith List Bool Lia.
From stdpp Require Import base option list gmap strings.

Local Open Scope string_scope.
Local Open Scope list_scope.

(** ** JavaScript strings *)

Module Js.

Definition CR : ascii := ascii_of_nat 13.
Definition LF : ascii := ascii_of_nat 10.
Definition crlf : string := String CR (String LF EmptyString).
Definition dquote : ascii := ascii_of_nat 34.

Definition code (c : ascii) : N := N_of_ascii c.

Definition in_range (lo hi : N) (c : ascii) : bool :=
  (lo <=? code c)%N && (code c <=? hi)%N.

(** [\s] on the code units 0..255: TAB, LF, VT, FF, CR, SPACE, NBSP. *)
Definition is_space (c : ascii) : bool :=
  in_range 9 13 c || (code c =? 32)%N || (code c =? 160)%N.

(** [\w]: ASCII letters, digits and the underscore. *)
Definition is_word (c : ascii) : bool :=
  in_range 48 57 c || in_range 65 90 c || in_range 97 122 c || (code c =? 95)%N.

Definition is_digit (c : ascii) : bool := in_range 48 57 c.

(** [[\w\d\-]]. *)
Definition is_name_char (c : ascii) : bool := is_word c || (code c =? 45)%N.

(** [[^\r\n]]. *)
Definition not_crlf (c : ascii) : bool :=
  negb ((code c =? 13)%N || (code c =? 10)%N).

Definition not_lf (c : ascii) : bool := negb (code c =? 10)%N.

(** [.] without the [s] flag: anything but a line terminator. *)
Definition is_dot (c : ascii) : bool := not_crlf c.

Fixpoint take_while (p : ascii -> bool) (s : string) : string :=
  match s with
  | EmptyString => EmptyString
  | String c r => if p c then String c (take_while p r) else EmptyString
  end.

Fixpoint drop_while (p : ascii -> bool) (s : string) : string :=
  match s with
  | EmptyString => EmptyString
  | String c r => if p c then drop_while p r else s
  end.

Fixpoint all_chars (p : ascii -> bool) (s : string) : bool :=
  match s with
  | EmptyString => true
  | String c r => p c && all_chars p r
  end.

Definition is_empty (s : string) : bool :=
  match s with EmptyString => true | _ => false end.

(** [s] is empty or its first character does not satisfy [p]. *)
Definition head_fails (p : ascii -> bool) (s : string) : bool :=
  match s with
  | EmptyString => true
  | String c _ => negb (p c)
  end.

(** [s.indexOf(p) === 0]. *)
Definition starts_with (p s : string) : bool := String.prefix p s.

(** [s.indexOf(p) >= 0]. *)
Fixpoint includes (p s : string) : bool :=
  starts_with p s ||
  match s with
  | EmptyString => false
  | String _ r => includes p r
  end.

Fixpoint drop (n : nat) (s : string) : string :=
  match n, s with
  | O, _ => s
  | S k, EmptyString => EmptyString
  | S k, String _ r => drop k r
  end.

(** [a.join(sep)]. *)
Fixpoint join (sep : string) (l : list string) : string :=
  match l with
  | [] => EmptyString
  | [x] => x
  | x :: r => x ++ sep ++ join sep r
  end.

(** [s.split(/\r?\n/)]: the current field is accumulated in [cur]; a CR is
    part of the separator only when an LF follows it. *)
Fixpoint split_lines_from (cur : string) (s : string) : list string :=
  match s with
  | EmptyString => [cur]
  | String c r =>
      if (code c =? 10)%N then cur :: split_lines_from EmptyString r
      else if (code c =? 13)%N then
        match r with
        | String d r' =>
            if (code d =? 10)%N then cur :: split_lines_from EmptyString r'
            else split_lines_from (cur ++ String c EmptyString) r
        | EmptyString => split_lines_from (cur ++ String c EmptyString) r
        end
      else split_lines_from (cur ++ String c EmptyString) r
  end.

Definition split_lines (s : string) : list string :=
  split_lines_from EmptyString s.

(** [s.replace(/\r?\n/g, '')]. *)
Fixpoint strip_newlines (s : string) : string :=
  match s with
  | EmptyString => EmptyString
  | String c r =>
      if (code c =? 10)%N then strip_newlines r
      else if (code c =? 13)%N then
        match r with
        | String d r' =>
            if (code d =? 10)%N then strip_newlines r'
            else String c (strip_newlines r)
        | EmptyString => String c EmptyString
        end
      else String c (strip_newlines r)
  end.

(** [s.split(sep)] for a one-character separator. *)
Fixpoint split_char_from (sep : ascii) (cur : string) (s : string) : list string :=
  match s with
  | EmptyString => [cur]
  | String c r =>
      if Ascii.eqb c sep then cur :: split_char_from sep EmptyString r
      else split_char_from sep (cur ++ String c EmptyString) r
  end.

Definition split_char (sep : ascii) (s : string) : list string :=
  split_char_from sep EmptyString s.

Definition rev_string (s : string) : string :=
  string_of_list_ascii (List.rev (list_ascii_of_string s)).

(** [s.trim()]. *)
Definition trim (s : string) : string :=
  rev_string (drop_while is_space (rev_string (drop_while is_space s))).

Definition lower_char (c : ascii) : ascii :=
  if in_range 65 90 c || (in_range 192 222 c && negb (code c =? 215)%N)
  then ascii_of_N (code c + 32) else c.

(** [s.toLowerCase()] on the code units 0..255. *)
Fixpoint to_lower (s : string) : string :=
  match s with
  | EmptyString => EmptyString
  | String c r => String (lower_char c) (to_lower r)
  end.

End Js.

(** ** Values, exceptions and results *)

(** A thrown or returned error: an [Error] object with its [name] and
    [message], or a bare string ([_read] returns the string 'no data'). *)
Inductive JsError :=
| ErrorObj (name : string) (message : string)
| ErrorStr (s : string).

Definition new_Error (m : string) : JsError := ErrorObj "Error" m.
Definition TypeError (m : string) : JsError := ErrorObj "TypeError" m.

Definition error_name (e : JsError) : string :=
  match e with
  | ErrorObj n _ => n
  | ErrorStr _ => "string"
  end.

(** Truthiness of an error value in [error || result]. *)
Definition error_truthy (e : JsError) : bool :=
  match e with
  | ErrorObj _ _ => true
  | ErrorStr s => negb (Js.is_empty s)
  end.

(** The result of running code that builds an object of type [A]:
    [Throw e st] is an exception [e] leaving the object in state [st];
    [NoFuel] is the recursion bound of the embedding being reached. *)
Inductive Result (A : Type) :=
| Ok (a : A)
| Throw (e : JsError) (st : A)
| NoFuel.

Arguments Ok {A} a.
Arguments Throw {A} e st.
Arguments NoFuel {A}.

(** ** Header maps *)

(** The value stored under a header name: a string, or an array of strings
    once the name has been seen twice. *)
Inductive HeaderValue :=
| HStr (s : string)
| HArr (l : list string).

#[global] Instance HeaderValue_eq_dec : EqDecision HeaderValue.
Proof. solve_decision. Defined.

Abbreviation Headers := (gmap string HeaderValue).

(** What [headers[k]] evaluates to. [headers] is created by [{}], so a name
    of [Object.prototype] that is not an own property reads as an inherited
    object or function. *)
Inductive JsProp :=
| PUndefined
| PStr (s : string)
| PArr (l : list string)
| PInherited.

Definition prototype_names : list string :=
  [ "constructor"; "__defineGetter__"; "__defineSetter__"; "hasOwnProperty";
    "__lookupGetter__"; "__lookupSetter__"; "isPrototypeOf";
    "propertyIsEnumerable"; "toString"; "valueOf"; "__proto__";
    "toLocaleString" ].

Definition is_inherited (k : string) : bool :=
  existsb (String.eqb k) prototype_names.

Definition get_prop (h : Headers) (k : string) : JsProp :=
  match h !! k with
  | Some (HStr s) => PStr s
  | Some (HArr l) => PArr l
  | None => if is_inherited k then PInherited else PUndefined
  end.

(** [headers[k] = v] for a string or array [v]: the setter of [__proto__]
    ignores a value that is not an object. *)
Definition set_prop (h : Headers) (k : string) (v : HeaderValue) : Headers :=
  if String.eqb k "__proto__" then h else <[k := v]> h.

Definition truthy (p : JsProp) : bool :=
  match p with
  | PUndefined => false
  | PStr s => negb (Js.is_empty s)
  | PArr _ => true
  | PInherited => true
  end.

(** [a || b]. *)
Definition or_else (a b : JsProp) : JsProp := if truthy a then a else b.

(** String coercion, as done by [+], by [RegExp.prototype.test] and by
    [RegExp.prototype.exec]. The only inherited value the code coerces is
    [Object.prototype] itself. *)
Definition to_str (p : JsProp) : string :=
  match p with
  | PUndefined => "undefined"
  | PStr s => s
  | PArr l => Js.join "," l
  | PInherited => "[object Object]"
  end.

Definition content_type_of (h : Headers) : JsProp :=
  or_else (get_prop h "Content-Type") (get_prop h "Content-type").

(** ** The regular expressions of the line scanner *)

Module Re.

(** [/^\s+([^\r\n]+)/]: the group of a header continuation line.
    [\s+] is greedy and gives characters back while the group cannot start:
    [after_space s] is tried on what follows the first white-space
    character, extending [\s+] first and falling back to starting the group
    at the current character. *)
Fixpoint after_space (s : string) : option string :=
  match s with
  | EmptyString => None
  | String c r =>
      if Js.is_space c then
        match after_space r with
        | Some m => Some m
        | None => if Js.not_crlf c then Some (Js.take_while Js.not_crlf s) else None
        end
      else if Js.not_crlf c then Some (Js.take_while Js.not_crlf s) else None
  end.

Definition continuation (line : string) : option string :=
  match line with
  | String c r => if Js.is_space c then after_space r else None
  | EmptyString => None
  end.

(** The header-line literal (flags [gi]): at the start of the line the name
    group [[\w\d\-]+], a colon, [\s*], then the value group [[^\r\n]*].
    The name is the longest run of name characters (a shorter one is not
    followed by a colon); [\s*] takes all white space, since the second
    group also matches the empty string. *)
Definition header (line : string) : option (string * string) :=
  let name := Js.take_while Js.is_name_char line in
  if Js.is_empty name then None
  else
    match Js.drop_while Js.is_name_char line with
    | String c r =>
        if (Js.code c =? 58)%N
        then Some (name, Js.take_while Js.not_crlf (Js.drop_while Js.is_space r))
        else None
    | EmptyString => None
    end.

(** [/^\-\-([^\r\n]+)(\r?\n)?$/g]: group 1 of a boundary marker line.
    The group is the longest run without CR and LF; what follows it must be
    nothing, LF or CR LF. *)
Definition marker (line : string) : option string :=
  match line with
  | String a (String b r) =>
      if (Js.code a =? 45)%N && (Js.code b =? 45)%N then
        let g := Js.take_while Js.not_crlf r in
        let tl := Js.drop_while Js.not_crlf r in
        if Js.is_empty g then None
        else if Js.is_empty tl || String.eqb tl (String Js.LF EmptyString)
                || String.eqb tl Js.crlf
        then Some g else None
      else None
  | _ => None
  end.

(** [/^multipart\//g.test(ct)]. *)
Definition is_multipart (ct : JsProp) : bool :=
  Js.starts_with "multipart/" (to_str ct).

End Re.

(** ** The part tree *)

(** [Part] is the object [{headers, body}]; an element of an array body is
    a string or the object [{boundary, lines, part}], which has [lines] while
    it is being collected and [part] once it is resolved. *)
Inductive Part :=
| MkPart (headers : option Headers) (body : Body)
with Body :=
| BUnset
| BStr (s : string)
| BArr (items : list Item)
with Item :=
| IStr (s : string)
| IBoundary (boundary : string) (lines : option (list string)) (part : option Part).

Definition part_headers (p : Part) : option Headers :=
  match p with MkPart h _ => h end.
Definition part_body (p : Part) : Body :=
  match p with MkPart _ b => b end.

(** The object [{}]. *)
Definition empty_part : Part := MkPart None BUnset.

(** [options]: [null], or an object with its [headersOnly] flag. *)
Definition Options := option bool.

Definition headersOnly (o : Options) : bool :=
  match o with Some b => b | None => false end.

(** ** parseRecursive *)

(** The [parent] object and the local variables of one call. The variable
    [boundary] is [null] until the first marker and afterwards refers to the
    object pushed last onto [parent.body]: it is read here as the last
    element of the body, so that a change made through either name is seen
    through the other. *)
Record PState := MkPState {
  parent_headers : Headers;
  parent_body : Body;
  lastHeaderName : string;
  findBoundary : string;
  insideBody : bool;
  insideBoundary : bool;
  isMultiHeader : bool;
  isMultipart : bool;
  checkedForCt : bool;
  ctInBody : bool
}.

Definition initial_state : PState :=
  MkPState ∅ BUnset "" "" false false false false false false.

Definition set_headers (h : Headers) (st : PState) : PState :=
  MkPState h (parent_body st) (lastHeaderName st) (findBoundary st)
    (insideBody st) (insideBoundary st) (isMultiHeader st) (isMultipart st)
    (checkedForCt st) (ctInBody st).

Definition set_body (b : Body) (st : PState) : PState :=
  MkPState (parent_headers st) b (lastHeaderName st) (findBoundary st)
    (insideBody st) (insideBoundary st) (isMultiHeader st) (isMultipart st)
    (checkedForCt st) (ctInBody st).

Definition set_last_header (n : string) (multi : bool) (st : PState) : PState :=
  MkPState (parent_headers st) (parent_body st) n (findBoundary st)
    (insideBody st) (insideBoundary st) multi (isMultipart st)
    (checkedForCt st) (ctInBody st).

Definition set_insideBody (b : bool) (st : PState) : PState :=
  MkPState (parent_headers st) (parent_body st) (lastHeaderName st)
    (findBoundary st) b (insideBoundary st) (isMultiHeader st)
    (isMultipart st) (checkedForCt st) (ctInBody st).

Definition set_insideBoundary (b : bool) (st : PState) : PState :=
  MkPState (parent_headers st) (parent_body st) (lastHeaderName st)
    (findBoundary st) (insideBody st) b (isMultiHeader st)
    (isMultipart st) (checkedForCt st) (ctInBody st).

(** [checkedForCt = true], with [insideBody] and [ctInBody] as given. *)
Definition set_checked (inside ct : bool) (st : PState) : PState :=
  MkPState (parent_headers st) (parent_body st) (lastHeaderName st)
    (findBoundary st) inside (insideBoundary st) (isMultiHeader st)
    (isMultipart st) true ct.

(** [findBoundary = b; isMultipart = true; parent.body = []]. *)
Definition set_multipart (b : string) (st : PState) : PState :=
  MkPState (parent_headers st) (BArr []) (lastHeaderName st) b
    (insideBody st) (insideBoundary st) (isMultiHeader st) true
    (checkedForCt st) (ctInBody st).

Definition state_part (st : PState) : Part :=
  MkPart (Some (parent_headers st)) (parent_body st).

(** The outcome of one iteration of the [for] loop. *)
Inductive Step :=
| Continue (st : PState)
| Break (st : PState)
| Raise (e : JsError) (st : PState)
| Starve.

Definition body_items (b : Body) : list Item :=
  match b with BArr items => items | _ => [] end.

(** The variable [boundary]. *)
Definition current_boundary (st : PState) : option Item :=
  last (body_items (parent_body st)).

Fixpoint replace_last (x : Item) (items : list Item) : list Item :=
  match items with
  | [] => []
  | [_] => [x]
  | y :: r => y :: replace_last x r
  end.

Definition set_current_boundary (x : Item) (st : PState) : PState :=
  set_body (BArr (replace_last x (body_items (parent_body st)))) st.

Definition null_deref (what : string) : JsError :=
  TypeError ("Cannot read properties of " +:+ what).

Definition not_a_function (what : string) : JsError :=
  TypeError (what +:+ " is not a function").

Section Parser.

(** [getBoundary] of the utilities module, which is not part of the sources
    at hand: the boundary token of a Content-Type value, or [undefined]. *)
Variable getBoundary : JsProp -> option string.

Variable options : Options.

(** [complete(boundary)], with [rec] standing for the recursive call
    [parseRecursive(boundary.lines, 0, boundary.part, options)]. Reading
    [lines.length] of a missing [lines] throws after [parent.headers = {}]. *)
Definition complete (rec : list string -> Result Part) (it : Item) : Result Item :=
  match it with
  | IBoundary b (Some ls) _ =>
      match rec ls with
      | Ok p => Ok (IBoundary b None (Some p))
      | Throw e p => Throw e (IBoundary b (Some ls) (Some p))
      | NoFuel => NoFuel
      end
  | IBoundary b None _ =>
      Throw (null_deref "undefined (reading 'length')")
            (IBoundary b None (Some (MkPart (Some ∅) BUnset)))
  | IStr s => Throw (TypeError "Cannot create property 'part' on string") it
  end.

(** [complete(boundary)] on the current boundary of [st]. *)
Definition complete_current (rec : list string -> Result Part)
    (it : Item) (st : PState) : Result PState :=
  match complete rec it with
  | Ok it' => Ok (set_current_boundary it' st)
  | Throw e it' => Throw e (set_current_boundary it' st)
  | NoFuel => NoFuel
  end.

Definition has_lines (it : Item) : bool :=
  match it with IBoundary _ (Some _) _ => true | _ => false end.

(** [boundary?.boundary] is truthy. *)
Definition has_delimiter (o : option Item) : bool :=
  match o with
  | Some (IBoundary b _ _) => negb (Js.is_empty b)
  | _ => false
  end.

(** The blank line that ends the header section (lines 279 to 317). *)
Definition step_blank (rest : list string) (st : PState) : Step :=
  let st1 := set_insideBody true st in
  if headersOnly options then Break st1
  else
    let ct := content_type_of (parent_headers st1) in
    if negb (truthy ct) then
      if checkedForCt st1 then Continue (set_insideBody (negb (ctInBody st1)) st1)
      else
        let text := Js.trim (Js.join Js.crlf rest) in
        if Js.starts_with "Content-Type" text || Js.starts_with "Content-type" text
        then Continue (set_checked false true st1)
        else Continue (set_checked true (ctInBody st1) st1)
    else if Re.is_multipart ct then
      match getBoundary ct with
      | Some b => if Js.is_empty b then Continue st1 else Continue (set_multipart b st1)
      | None => Continue st1
      end
    else Continue st1.

(** A continuation line with group [m] (lines 321 to 328). With
    [isMultiHeader] the value of the last header is an array, whose last
    element is extended. *)
Definition step_continuation (m : string) (st : PState) : Step :=
  let h := parent_headers st in
  let n := lastHeaderName st in
  if isMultiHeader st then
    match get_prop h n with
    | PArr l =>
        match last l with
        | Some x =>
            Continue (set_headers
              (set_prop h n (HArr (removelast l ++ [x +:+ Js.crlf +:+ m]))) st)
        | None => Raise (TypeError "Cannot extend the element of an empty array") st
        end
    | PStr _ => Raise (TypeError "Cannot assign to read only property of string") st
    | PUndefined => Raise (null_deref "undefined (reading 'length')") st
    | PInherited => Raise (TypeError "Cannot assign to read only property") st
    end
  else
    Continue (set_headers
      (set_prop h n (HStr (to_str (get_prop h n) +:+ Js.crlf +:+ m))) st).

(** A [Name: value] line (lines 332 to 347). *)
Definition step_header (name value : string) (st : PState) : Step :=
  let h := parent_headers st in
  let p := get_prop h name in
  if truthy p then
    let st1 := set_last_header name true st in
    match p with
    | PStr s => Continue (set_headers (set_prop h name (HArr [s; value])) st1)
    | PArr l => Continue (set_headers (set_prop h name (HArr (l ++ [value]))) st1)
    | _ => Raise (not_a_function "parent.headers[lastHeaderName].push") st1
    end
  else
    Continue (set_headers (set_prop h name (HStr value)) (set_last_header name false st)).

(** [if (boundary && boundary.lines) complete(boundary)] (line 361), which
    is also what lines 398 to 400 do to the last element of the body. *)
Definition complete_open (rec : list string -> Result Part) (st : PState)
  : Result PState :=
  match current_boundary st with
  | Some it => if has_lines it then complete_current rec it st else Ok st
  | None => Ok st
  end.

(** A line that starts a new boundary (lines 358 to 374). *)
Definition step_marker (rec : list string -> Result Part)
    (line : string) (st : PState) : Step :=
  match complete_open rec (set_insideBoundary true st) with
  | Ok st2 =>
      match Re.marker line with
      | None => Raise (null_deref "null (reading '1')") st2
      | Some m =>
          match parent_body st2 with
          | BArr items => Continue (set_body (BArr (items ++ [IBoundary m (Some []) None])) st2)
          | _ => Raise (not_a_function "parent.body.push") st2
          end
      end
  | Throw e st2 => Raise e st2
  | NoFuel => Starve
  end.

(** A line inside a boundary (lines 377 to 388). *)
Definition step_inside (rec : list string -> Result Part)
    (prev : option string) (line : string) (st : PState) : Step :=
  let closing := Js.starts_with ("--" +:+ findBoundary st +:+ "--") line in
  let cur := current_boundary st in
  if has_delimiter cur && bool_decide (prev = Some "") && closing then
    match cur with
    | Some it =>
        match complete_current rec it (set_insideBoundary false st) with
        | Ok st' => Continue st'
        | Throw e st' => Raise e st'
        | NoFuel => Starve
        end
    | None => Continue st
    end
  else if has_delimiter cur && closing then Continue st
  else
    match cur with
    | None => Continue st
    | Some (IBoundary b (Some ls) p) =>
        Continue (set_current_boundary (IBoundary b (Some (ls ++ [line])) p) st)
    | Some _ => Raise (null_deref "undefined (reading 'push')") st
    end.

(** One iteration of the loop on [line]; [prev] is [lines[i - 1]] and
    [rest] is [line] with the lines after it. *)
Definition step (rec : list string -> Result Part)
    (prev : option string) (line : string) (rest : list string) (st : PState) : Step :=
  if negb (insideBody st) then
    if Js.is_empty line then step_blank rest st
    else
      match Re.continuation line with
      | Some m => step_continuation m st
      | None =>
          match Re.header line with
          | Some (name, value) => step_header name value st
          | None => Continue st
          end
      end
  else if isMultipart st then
    if Js.starts_with ("--" +:+ findBoundary st) line
       && negb (Js.starts_with ("--" +:+ findBoundary st +:+ "--") line)
    then step_marker rec line st
    else if insideBoundary st then step_inside rec prev line st
    else Continue st
  else Break (set_body (BStr (Js.join Js.crlf rest)) st).

(** The [for] loop from the line at the head of [rest]. *)
Fixpoint scan (rec : list string -> Result Part)
    (prev : option string) (rest : list string) (st : PState) : Result PState :=
  match rest with
  | [] => Ok st
  | line :: tl =>
      match step rec prev line rest st with
      | Continue st' => scan rec (Some line) tl st'
      | Break st' => Ok st'
      | Raise e st' => Throw e st'
      | Starve => NoFuel
      end
  end.

(** "Complete the last boundary" (lines 398 to 400). *)
Definition finish (rec : list string -> Result Part) (st : PState) : Result PState :=
  complete_open rec st.

Definition to_part (r : Result PState) : Result Part :=
  match r with
  | Ok st => Ok (state_part st)
  | Throw e st => Throw e (state_part st)
  | NoFuel => NoFuel
  end.

(** [parseRecursive(lines, 0, parent, options)]: every call of the source
    starts at index 0. The recursion is on the nesting depth, bounded by
    [fuel]; [parseRecursive_sound] shows that more fuel than lines is enough. *)
Fixpoint parseRecursive (fuel : nat) (lines : list string) : Result Part :=
  match fuel with
  | O => NoFuel
  | S f =>
      let rec := parseRecursive f in
      to_part (
        match scan rec None lines initial_state with
        | Ok st => finish rec st
        | r => r
        end)
  end.

End Parser.

(** ** parse *)

(** A callback is known by its identity and by what a call of it does: it
    returns, or it throws. [cb_throws f error] is the exception that ends a
    call of [f] with the first argument [error], if the call ends with one.
    Every call is recorded in the trace of the function that makes it, with
    the arguments it received. *)
Record Callback := MkCallback {
  cb_id : nat;
  cb_throws : option JsError -> option JsError
}.

(** A callback that returns, whatever it is called with. *)
Definition quiet (id : nat) : Callback := MkCallback id (fun _ => None).

Definition never_throws (f : Callback) : Prop :=
  forall error, cb_throws f error = None.

Record Call (A : Type) := MkCall {
  callee : Callback;
  call_error : option JsError;
  call_result : A
}.

Arguments MkCall {A} callee call_error call_result.
Arguments callee {A} c.
Arguments call_error {A} c.
Arguments call_result {A} c.

(** The second argument of [parse] and [read]. *)
Inductive OptionsArg :=
| OptUndefined
| OptNull
| OptObject (headers_only : bool)
| OptFunction (f : Callback).

(** How a call ends: it returns [error || result], it lets an exception
    escape (one thrown by the callback), or the embedding ran out of fuel. *)
Inductive Outcome (A : Type) :=
| ReturnsError (e : JsError)
| ReturnsValue (a : A)
| Raises (e : JsError)
| Unfinished.

Arguments ReturnsError {A} e.
Arguments ReturnsValue {A} a.
Arguments Raises {A} e.
Arguments Unfinished {A}.

(** "Shift arguments": the callback in effect. *)
Definition shift_callback (options : OptionsArg) (callback : option Callback)
  : option Callback :=
  match options, callback with
  | OptFunction f, None => Some f
  | _, _ => callback
  end.

(** The options of [parse] after the shift and after
    [if (typeof options !== 'object') options = { headersOnly: false }]. *)
Definition parse_options (options : OptionsArg) (callback : option Callback)
  : Options :=
  match options with
  | OptUndefined => Some false
  | OptNull => None
  | OptObject b => Some b
  | OptFunction _ =>
      match callback with
      | None => None
      | Some _ => Some false
      end
  end.

(** [error || result || new Error('read EML failed!')] for a [result] that
    is an object when it is defined. *)
Definition returned {A} (error : option JsError) (result : option A) : Outcome A :=
  match error with
  | Some e =>
      if error_truthy e then ReturnsError e
      else match result with
           | Some r => ReturnsValue r
           | None => ReturnsError (new_Error "read EML failed!")
           end
  | None =>
      match result with
      | Some r => ReturnsValue r
      | None => ReturnsError (new_Error "read EML failed!")
      end
  end.

(** [callback && callback(error, result)] followed by the [return]: the
    call is made after the [try] block, so an exception of the callback
    escapes from the function; otherwise [out] is returned. *)
Definition after_callback {A} (cb : option Callback) (error : option JsError)
    (out : Outcome A) : Outcome A :=
  match cb with
  | Some f =>
      match cb_throws f error with
      | Some e => Raises e
      | None => out
      end
  | None => out
  end.

Section Parse.

Variable getBoundary : JsProp -> option string.

(** The [try] block of [parse]: the error caught, if any, and [result].
    [eml] is [None] for an argument that is not a string. *)
Definition parse_try (eml : option string) (o : Options) : Result Part :=
  match eml with
  | None =>
      Throw (new_Error ("Argument " +:+ String Js.dquote "eml"
                        +:+ String Js.dquote " expected to be string!"))
            empty_part
  | Some text =>
      let lines := Js.split_lines text in
      parseRecursive getBoundary o (S (length lines)) lines
  end.

(** [parse(eml, options, callback)]: what it returns, and the calls it made. *)
Definition parse (eml : option string) (options : OptionsArg)
    (callback : option Callback) : Outcome Part * list (Call Part) :=
  let cb := shift_callback options callback in
  let o := parse_options options callback in
  let run (error : option JsError) (result : Part) :=
    (after_callback cb error (returned error (Some result)),
     match cb with
     | Some f => [MkCall f error result]
     | None => []
     end) in
  match parse_try eml o with
  | Ok p => run None p
  | Throw e p => run (Some e) p
  | NoFuel => (Unfinished, [])
  end.

End Parse.

(** Modelled from the spec: [getBoundary] of the utilities module, which is
    not among the sources at hand ("extract its boundary token"; the
    boundary is the "delimiter string from a multipart Content-Type
    parameter"). The token is the text after [boundary=], without an opening
    quote, up to a quote, a semicolon or white space. It serves to run the
    parser on concrete messages; the theorems hold for every [getBoundary]. *)
Module Sample.

Fixpoint after_substring (p s : string) : option string :=
  if Js.starts_with p s then Some (Js.drop (String.length p) s)
  else match s with
       | EmptyString => None
       | String _ r => after_substring p r
       end.

Definition is_quote (c : ascii) : bool :=
  (Js.code c =? 34)%N || (Js.code c =? 39)%N.

Definition token_char (c : ascii) : bool :=
  negb (is_quote c || (Js.code c =? 59)%N || Js.is_space c).

Definition getBoundary (ct : JsProp) : option string :=
  match after_substring "boundary=" (to_str ct) with
  | Some r =>
      let r' := match r with
                | String c t => if is_quote c then t else r
                | EmptyString => r
                end in
      Some (Js.take_while token_char r')
  | None => None
  end.

End Sample.

(** ** completeBoundary *)

(** [result.part] and the local variables of one call of
    [completeBoundary]; [childBoundary] is [undefined] or the object
    [{boundary, lines}]. The array [lines] of a call is the array
    [boundary.lines] of its caller, and [lines.splice(index)] shortens it in
    place: [c_spliced] is the number of lines the call has taken off the
    end of that array. *)
Record CState := MkCState {
  c_headers : Headers;
  c_body : Body;
  c_lastHeaderName : string;
  c_insideBody : bool;
  childBoundary : option (string * list string);
  c_spliced : nat
}.

Inductive CStep :=
| CContinue (st : CState)
| CBreak (st : CState)
| CStarve.

Section CompleteBoundary.

Variable getBoundary : JsProp -> option string.

(** ['--' + childBoundaryStr], where [undefined] is spelled out by [+]. *)
Definition child_prefix (h : Headers) : string :=
  "--" +:+ match getBoundary (content_type_of h) with
           | Some b => b
           | None => "undefined"
           end.

(** A header-section line (lines 427 to 442). *)
Definition cstep_header (line : string) (st : CState) : CState :=
  if Js.is_empty line then
    MkCState (c_headers st) (c_body st) (c_lastHeaderName st) true
             (childBoundary st) (c_spliced st)
  else
    match Re.header line with
    | Some (name, value) =>
        MkCState (set_prop (c_headers st) name (HStr value)) (c_body st) name
                 (c_insideBody st) (childBoundary st) (c_spliced st)
    | None =>
        match Re.continuation line with
        | Some m =>
            let n := c_lastHeaderName st in
            MkCState (set_prop (c_headers st) n
                        (HStr (to_str (get_prop (c_headers st) n) +:+ Js.crlf +:+ m)))
                     (c_body st) n (c_insideBody st) (childBoundary st)
                     (c_spliced st)
        | None => st
        end
    end.

(** [result.part.body.push(child)] or [result.part.body = [child]]. *)
Definition push_child (child : Item) (b : Body) : Body :=
  match b with
  | BArr items => BArr (items ++ [child])
  | _ => BArr [child]
  end.

(** A body line (lines 445 to 491); [prev] and [next] stand for
    [lines[index - 1]] and [lines[index + 1]], [rest] for [line] with the
    lines after it, which are the lines that [lines.splice(index)] removes
    and returns. [rec] stands for the recursive call on [childBoundary]: it
    gives the child and the array [childBoundary.lines] as the call leaves
    it, to which line 484 then adds [line]. *)
Definition cstep_body
    (rec : string -> list string -> Result (option Item * list string))
    (prev next : option string) (line : string) (rest : list string)
    (st : CState) : CStep :=
  let set_child c b :=
    MkCState (c_headers st) b (c_lastHeaderName st) (c_insideBody st) c
             (c_spliced st) in
  let splice c :=
    MkCState (c_headers st) (BStr (Js.join Js.crlf rest)) (c_lastHeaderName st)
             (c_insideBody st) c (length rest) in
  match Re.marker line, childBoundary st with
  | Some m, None =>
      if Js.starts_with (child_prefix (c_headers st)) line
      then CContinue (set_child (Some (m, [])) (c_body st))
      else CBreak (splice None)
  | None, None => CBreak (splice None)
  | _, Some (cb, cl) =>
      if Js.is_empty cb then CBreak (splice (Some (cb, cl)))
      else if bool_decide (prev = Some "") && Js.starts_with ("--" +:+ cb) line then
        match rec cb cl with
        | Ok (child, cl') =>
            let b := match child with
                     | Some c => push_child c (c_body st)
                     | None => BStr (Js.join Js.crlf cl')
                     end in
            if match next with Some n => negb (Js.is_empty n) | None => false end
            then CContinue (set_child (Some (cb, [])) b)
            else if Js.starts_with ("--" +:+ cb +:+ "--") line
                    && bool_decide (next = Some "")
            then CBreak (set_child None b)
            else CContinue (set_child (Some (cb, cl' ++ [line])) b)
        | _ => CStarve
        end
      else CContinue (set_child (Some (cb, cl ++ [line])) (c_body st))
  end.

Fixpoint cscan
    (rec : string -> list string -> Result (option Item * list string))
    (prev : option string) (rest : list string) (st : CState) : Result CState :=
  match rest with
  | [] => Ok st
  | line :: tl =>
      if negb (c_insideBody st) then cscan rec (Some line) tl (cstep_header line st)
      else
        match cstep_body rec prev (head tl) line rest st with
        | CContinue st' => cscan rec (Some line) tl st'
        | CBreak st' => Ok st'
        | CStarve => NoFuel
        end
  end.

(** One call [completeBoundary({boundary, lines})]: what it returns, [null]
    for an empty delimiter and else the object [{boundary, part}], and the
    array [lines] as the call leaves it. No operation of it throws. *)
Fixpoint completeBoundary_call (fuel : nat) (boundary : string)
    (lines : list string) : Result (option Item * list string) :=
  match fuel with
  | O => NoFuel
  | S f =>
      if Js.is_empty boundary then Ok (None, lines)
      else
        match cscan (completeBoundary_call f) None lines
                (MkCState ∅ BUnset "" false None 0) with
        | Ok st => Ok (Some (IBoundary boundary None
                               (Some (MkPart (Some (c_headers st)) (c_body st)))),
                       take (length lines - c_spliced st) lines)
        | _ => NoFuel
        end
  end.

(** [completeBoundary({boundary, lines})]: the value it returns. *)
Definition completeBoundary (fuel : nat) (boundary : string)
    (lines : list string) : Result (option Item) :=
  match completeBoundary_call fuel boundary lines with
  | Ok (r, _) => Ok r
  | Throw e (r, _) => Throw e r
  | NoFuel => NoFuel
  end.

End CompleteBoundary.

(** ** The collaborators *)

Definition Bytes := list N.

(** What the variable [content] of [_append] can hold. *)
Inductive Content :=
| CUndefined
| CString (s : string)
| CBytes (b : Bytes)
| CItems (items : list Item).

(** Code inside a [try] block: an exception or a value. *)
Definition Exc (A : Type) : Type := JsError + A.

#[global] Instance Exc_ret : MRet Exc := fun A a => inr a.
#[global] Instance Exc_bind : MBind Exc :=
  fun A B f x => match x with inl e => inl e | inr a => f a end.

(** The functions imported from the charset module, the utilities module,
    the Base64 package and the address parser, and the built-in [decodeURI]:
    none of them is part of the sources at hand. The Base64 functions and
    [decodeURI] can throw; the others are taken to return. *)
Class Collaborators := {
  getBoundary : JsProp -> option string;
  getCharsetName : string -> string;
  decode : Content -> string -> string;
  encode : string -> Bytes;
  GB2312ToUTF8 : string -> string;
  mimeDecode : string -> string -> string;
  Base64_decode : string -> Exc string;
  Base64_atob : string -> Exc string;
  Base64_btoa : string -> Exc string;
  Base64_fromBase64 : string -> string;
  Base64_toUint8Array : string -> Bytes;
  addressparser : string -> list (string * string);
  decodeURI : string -> Exc string
}.

Definition defaultCharset : string := "utf-8".

(** ** Header-value decoding *)

Module Word.

(** The encoded-word literal (flags [gi]): [=?], the charset group
    [[^?]+], [?], the group [(B|Q)], [?], the lazy payload group [(.+?)] and
    the group [(\?=)]. *)

(** The lazy payload: the shortest non-empty run of [.] characters that is
    followed by [?=]; the result is the payload and the text after [?=]. *)
Fixpoint payload (s : string) : option (string * string) :=
  match s with
  | EmptyString => None
  | String c r =>
      if Js.is_dot c then
        if Js.starts_with "?=" r then Some (String c EmptyString, Js.drop 2 r)
        else match payload r with
             | Some (p, rest) => Some (String c p, rest)
             | None => None
             end
      else None
  end.

Definition is_B (c : ascii) : bool := (Js.code c =? 66)%N || (Js.code c =? 98)%N.
Definition is_Q (c : ascii) : bool := (Js.code c =? 81)%N || (Js.code c =? 113)%N.
Definition is_qmark (c : ascii) : bool := (Js.code c =? 63)%N.
Definition not_qmark (c : ascii) : bool := negb (is_qmark c).

Record Match := MkMatch {
  m_charset : string;
  m_type : ascii;
  m_payload : string;
  m_rest : string
}.

(** An encoded-word at the very start of [s]. *)
Definition at_start (s : string) : option Match :=
  if Js.starts_with "=?" s then
    let s1 := Js.drop 2 s in
    let cs := Js.take_while not_qmark s1 in
    if Js.is_empty cs then None
    else
      match Js.drop_while not_qmark s1 with
      | String q (String t (String q' r)) =>
          if is_qmark q && (is_B t || is_Q t) && is_qmark q' then
            match payload r with
            | Some (p, rest) => Some (MkMatch cs t p rest)
            | None => None
            end
          else None
      | _ => None
      end
  else None.

(** The text of the match [m]. *)
Definition text (m : Match) : string :=
  "=?" +:+ m_charset m +:+ "?" +:+ String (m_type m) "?" +:+ m_payload m +:+ "?=".

(** [regex.exec(s)]: the leftmost match. *)
Fixpoint exec (s : string) : option Match :=
  match at_start s with
  | Some m => Some m
  | None => match s with
            | EmptyString => None
            | String _ r => exec r
            end
  end.

(** [s.match(regex)] with the [g] flag: the texts of the successive
    matches, each search resuming after the previous match ([skip] counts
    the characters of a match still to be passed over). *)
Fixpoint matches_from (skip : nat) (s : string) : list string :=
  match s with
  | EmptyString => []
  | String _ r =>
      match skip with
      | S k => matches_from k r
      | O =>
          match at_start s with
          | Some m => text m :: matches_from (String.length (text m) - 1) r
          | None => matches_from O r
          end
      end
  end.

Definition matches (s : string) : list string := matches_from O s.

End Word.

Module Replace.

(** The replacement text of [String.prototype.replace] when there are no
    capture groups: [$$] is a dollar sign, [$&] the matched text, a dollar
    sign with a back quote the text before the match, a dollar sign with a
    quote the text after it; any other dollar sign stands for itself. *)
Fixpoint expand (matched before after : string) (repl : string) : string :=
  match repl with
  | EmptyString => EmptyString
  | String c r =>
      if (Js.code c =? 36)%N then
        match r with
        | String d r' =>
            if (Js.code d =? 36)%N then String c (expand matched before after r')
            else if (Js.code d =? 38)%N then matched +:+ expand matched before after r'
            else if (Js.code d =? 96)%N then before +:+ expand matched before after r'
            else if (Js.code d =? 39)%N then after +:+ expand matched before after r'
            else String c (expand matched before after r)
        | EmptyString => String c EmptyString
        end
      else String c (expand matched before after r)
  end.

(** [s.replace(pat, repl)] for a string [pat]: the first occurrence only.
    [before] is the text already passed over. *)
Fixpoint first_from (before : string) (pat repl : string) (s : string) : string :=
  if Js.starts_with pat s then
    before +:+ expand pat before (Js.drop (String.length pat) s) repl
           +:+ Js.drop (String.length pat) s
  else
    match s with
    | EmptyString => before
    | String c r => first_from (before +:+ String c EmptyString) pat repl r
    end.

Definition first (pat repl s : string) : string := first_from EmptyString pat repl s.

(** [s.replace(/_/g, repl)]. *)
Fixpoint underscores_from (before : string) (repl : string) (s : string) : string :=
  match s with
  | EmptyString => EmptyString
  | String c r =>
      if (Js.code c =? 95)%N
      then expand "_" before r repl +:+ underscores_from (before +:+ "_") repl r
      else String c (underscores_from (before +:+ String c EmptyString) repl r)
  end.

Definition underscores (repl s : string) : string := underscores_from EmptyString repl s.

Definition is_blank (c : ascii) : bool := (Js.code c =? 9)%N || (Js.code c =? 32)%N.
Definition is_terminator (c : ascii) : bool := negb (Js.not_crlf c).

(** [s.replace(/[\t ]+$/gm, '')]: a run of tabs and spaces is removed when a
    line terminator or the end of the text follows it. *)
Fixpoint trailing_blanks (s : string) : string :=
  match s with
  | EmptyString => EmptyString
  | String c r =>
      if is_blank c then
        match Js.drop_while is_blank r with
        | EmptyString => EmptyString
        | String d _ =>
            if is_terminator d then trailing_blanks r
            else String c (trailing_blanks r)
        end
      else String c (trailing_blanks r)
  end.

(** [s.replace(/=(?:\r?\n|$)/g, '')]: soft line breaks. *)
Fixpoint soft_breaks (s : string) : string :=
  match s with
  | EmptyString => EmptyString
  | String c r =>
      if (Js.code c =? 61)%N then
        match r with
        | EmptyString => EmptyString
        | String d r' =>
            if (Js.code d =? 10)%N then soft_breaks r'
            else if (Js.code d =? 13)%N then
              match r' with
              | String e r'' =>
                  if (Js.code e =? 10)%N then soft_breaks r''
                  else String c (soft_breaks r)
              | EmptyString => String c (soft_breaks r)
              end
            else String c (soft_breaks r)
        end
      else String c (soft_breaks r)
  end.

End Replace.

Section Decoding.

Context {collab : Collaborators}.

(** [unquotePrintable(value, charset, qEncoding)]. *)
Definition unquotePrintable (value charset : string) (qEncoding : bool) : string :=
  let rawString := Replace.soft_breaks (Replace.trailing_blanks value) in
  let rawString :=
    if qEncoding
    then Replace.underscores (decode (CBytes [32%N]) charset) rawString
    else rawString in
  mimeDecode rawString charset.

(** [decodeJoint(str)]. *)
Definition decodeJoint (str : string) : string :=
  match Word.exec str with
  | Some m =>
      let charset := getCharsetName (Word.m_charset m) in
      let value := Word.m_payload m in
      if Word.is_B (Word.m_type m) then
        if String.eqb charset "utf8"
        then decode (CBytes (encode (Base64_fromBase64 (Js.strip_newlines value)))) "utf8"
        else decode (CBytes (Base64_toUint8Array (Js.strip_newlines value))) charset
      else unquotePrintable value charset true
  | None => str
  end.

(** [unquoteString(str)] for a string [str]. *)
Definition unquoteString (str : string) : string :=
  let decodedString :=
    fold_left (fun acc spin => Replace.first spin (decodeJoint spin) acc)
              (Word.matches str) str in
  Js.strip_newlines decodedString.

End Decoding.

(** ** Numbers *)

(** A number that [parseInt] gives for a run of decimal digits: a double
    that is a non-negative integer, or [Infinity]. *)
Inductive JsNumber :=
| Finite (n : N)
| Infinity.

(** The integer that a run of decimal digits stands for. *)
Definition digits_value (digits : string) : N :=
  fold_left (fun acc c => (acc * 10 + (Js.code c - 48))%N)
            (list_ascii_of_string digits) 0%N.

(** [n] rounded to 53 binary digits, a tie going to the even one: what is
    left of [n] below the 53 leading digits is cut off, and the last digit
    kept goes up by one when more than half a unit was cut off, or exactly
    half a unit and that digit is odd. *)
Definition round53 (n : N) : N :=
  let size := N.size n in
  if (size <=? 53)%N then n
  else
    let e := (size - 53)%N in
    let q := N.shiftr n e in
    let r := (n - N.shiftl q e)%N in
    let half := N.shiftl 1 (e - 1) in
    let up := (half <? r)%N || ((r =? half)%N && N.odd q) in
    N.shiftl (if up then q + 1 else q)%N e.

(** The double nearest to the integer [n]: the largest double is below
    2^1024, and what rounds to 2^1024 is [Infinity]. *)
Definition to_double (n : N) : JsNumber :=
  let m := round53 n in
  if (m <? 2 ^ 1024)%N then Finite m else Infinity.

(** ** The regular expressions of the extraction pass *)

Module Meta.

(** [p] at the start of [s], ignoring the case of ASCII letters ([p] is in
    lower case). *)
Definition starts_with_ci (p s : string) : bool :=
  Js.starts_with p (Js.to_lower s).

Definition is_dash (c : ascii) : bool := (Js.code c =? 45)%N.
Definition is_eq (c : ascii) : bool := (Js.code c =? 61)%N.

(** The tail of [/charset\s*=\W*([\w\-]+)/g] after the equals sign. [\W*]
    takes the longest run of non-word characters; when the text ends there
    it gives characters back up to its last dash, which is then the group. *)
Definition charset_group (s : string) : option string :=
  match Js.drop_while (fun c => negb (Js.is_word c)) s with
  | String c r => Some (Js.take_while Js.is_name_char (String c r))
  | EmptyString =>
      if existsb is_dash (list_ascii_of_string s) then Some "-" else None
  end.

Definition charset_at (s : string) : option string :=
  if Js.starts_with "charset" s then
    match Js.drop_while Js.is_space (Js.drop 7 s) with
    | String c r => if is_eq c then charset_group r else None
    | EmptyString => None
    end
  else None.

(** [getCharset(contentType)]: the leftmost match. *)
Fixpoint charset_search (s : string) : option string :=
  match charset_at s with
  | Some g => Some g
  | None => match s with
            | EmptyString => None
            | String _ r => charset_search r
            end
  end.

(** The first [replace] of the name loop removes every white-space
    character, every quote, every [utf-8] and every digit between two stars;
    [skip] counts the characters of a match still to be removed. *)
Fixpoint strip_name (skip : nat) (s : string) : string :=
  match s with
  | EmptyString => EmptyString
  | String c r =>
      match skip with
      | S k => strip_name k r
      | O =>
          if Js.is_space c || (Js.code c =? 39)%N then strip_name O r
          else if Js.starts_with "utf-8" s then strip_name 4 r
          else
            match s with
            | String a (String d (String b _)) =>
                if (Js.code a =? 42)%N && Js.is_digit d && (Js.code b =? 42)%N
                then strip_name 2 r
                else String c (strip_name O r)
            | _ => String c (strip_name O r)
            end
      end
  end.

Definition is_dquote (c : ascii) : bool := (Js.code c =? 34)%N.

(** The end of the name literal: the lazy group [(.+?)] followed by an
    optional double quote and the end of the text. The group is the text
    without a closing double quote, unless nothing would be left of it. *)
Fixpoint lazy_to_end (s : string) : option string :=
  match s with
  | EmptyString => None
  | String c r =>
      if Js.is_dot c then
        match r with
        | EmptyString => Some (String c EmptyString)
        | String d EmptyString =>
            if is_dquote d then Some (String c EmptyString)
            else match lazy_to_end r with
                 | Some g => Some (String c g)
                 | None => None
                 end
        | _ => match lazy_to_end r with
               | Some g => Some (String c g)
               | None => None
               end
        end
      else None
  end.

(** After [name], an optional star and the equals sign: the optional
    opening double quote is taken first and given back when the rest does
    not match with it. *)
Definition name_value (s : string) : option string :=
  match s with
  | String q r =>
      if is_dquote q then
        match lazy_to_end r with
        | Some g => Some g
        | None => lazy_to_end s
        end
      else lazy_to_end s
  | EmptyString => None
  end.

Definition name_at (s : string) : option string :=
  if starts_with_ci "name" s then
    match Js.drop 4 s with
    | String a (String b r) =>
        if (Js.code a =? 42)%N && is_eq b then name_value r
        else if is_eq a then name_value (String b r)
        else None
    | String a EmptyString => if is_eq a then name_value EmptyString else None
    | EmptyString => None
    end
  else None.

(** The name literal with flags [gi], applied by [exec] to one segment:
    group 1 of the leftmost match. *)
Fixpoint name_exec (s : string) : option string :=
  match name_at s with
  | Some g => Some g
  | None => match s with
            | EmptyString => None
            | String _ r => name_exec r
            end
  end.

(** The [replace], [split], [map] and [reduce] chain of the name loop. *)
Definition candidate_name (name : string) : string :=
  fold_left (fun a b => match b with Some g => a +:+ g | None => a end)
            (map name_exec (Js.split_char ";" (strip_name O name)))
            EmptyString.

(** [/size\s*=\s*([0-9]+)/gi]. *)
Definition size_at (s : string) : option string :=
  if starts_with_ci "size" s then
    match Js.drop_while Js.is_space (Js.drop 4 s) with
    | String c r =>
        if is_eq c then
          let d := Js.take_while Js.is_digit (Js.drop_while Js.is_space r) in
          if Js.is_empty d then None else Some d
        else None
    | EmptyString => None
    end
  else None.

Fixpoint size_exec (s : string) : option string :=
  match size_at s with
  | Some g => Some g
  | None => match s with
            | EmptyString => None
            | String _ r => size_exec r
            end
  end.

(** [parseInt] on a run of decimal digits: the double nearest to the
    integer they stand for. (The language lets an implementation read the
    digits after the 20th as zeros; V8 reads them all, which is what is
    modelled. Below 2^53 the two readings give the same number.) *)
Definition parseInt (digits : string) : JsNumber :=
  to_double (digits_value digits).

(** [/^\s*inline/g.test(cd)]. *)
Definition is_inline (cd : string) : bool :=
  Js.starts_with "inline" (Js.drop_while Js.is_space cd).

(** [s.replace(/^<|>$/g, '')]. *)
Fixpoint strip_closing (s : string) : string :=
  match s with
  | EmptyString => EmptyString
  | String c EmptyString => if (Js.code c =? 62)%N then EmptyString else s
  | String c r => String c (strip_closing r)
  end.

Definition strip_brackets (s : string) : string :=
  match s with
  | String c r => if (Js.code c =? 60)%N then strip_closing r else strip_closing s
  | EmptyString => EmptyString
  end.

(** [s.replace(/\r\n|(&quot;)/g, '')]. *)
Fixpoint strip_html (skip : nat) (s : string) : string :=
  match s with
  | EmptyString => EmptyString
  | String c r =>
      match skip with
      | S k => strip_html k r
      | O =>
          if Js.starts_with Js.crlf s then strip_html 1 r
          else if Js.starts_with "&quot;" s then strip_html 5 r
          else String c (strip_html O r)
      end
  end.

End Meta.

(** ** read *)

Record Attachment := MkAttachment {
  att_name : option string;
  att_contentType : option JsProp;
  att_contentId : option string;
  att_inline : option bool;
  att_size : option JsNumber
}.

(** What [getEmailAddress] returns. *)
Inductive AddressField :=
| AddrNull
| AddrOne (name email : string)
| AddrMany (l : list (string * string)).

(** The object [{'Content-Type': .., 'Content-Transfer-Encoding': ..}]. *)
Definition LeafHeaders : Type := JsProp * JsProp.

(** [ReadedEmlJson]; a field is [None] while it is not set. [date] holds
    the text handed to the [Date] constructor. *)
Record Readed := MkReaded {
  date : option string;
  subject : option string;
  from : option AddressField;
  to : option AddressField;
  cc : option AddressField;
  headers : option Headers;
  text : option string;
  html : option string;
  textheaders : option LeafHeaders;
  htmlheaders : option LeafHeaders;
  attachments : option (list Attachment);
  multipartAlternative : option JsProp;
  data : option string
}.

Definition empty_readed : Readed :=
  MkReaded None None None None None None None None None None None None None.

Definition add_html (s : string) (hs : LeafHeaders) (r : Readed) : Readed :=
  MkReaded (date r) (subject r) (from r) (to r) (cc r) (headers r) (text r)
    (Some (match html r with
           | Some old => if Js.is_empty old then s else old +:+ s
           | None => s
           end))
    (textheaders r) (Some hs) (attachments r) (multipartAlternative r) (data r).

Definition add_text (s : string) (hs : LeafHeaders) (r : Readed) : Readed :=
  MkReaded (date r) (subject r) (from r) (to r) (cc r) (headers r)
    (Some (match text r with
           | Some old => if Js.is_empty old then s else old +:+ s
           | None => s
           end))
    (html r) (Some hs) (htmlheaders r) (attachments r) (multipartAlternative r)
    (data r).

Definition add_attachment (a : Attachment) (r : Readed) : Readed :=
  MkReaded (date r) (subject r) (from r) (to r) (cc r) (headers r) (text r)
    (html r) (textheaders r) (htmlheaders r)
    (Some (match attachments r with Some l => l ++ [a] | None => [a] end))
    (multipartAlternative r) (data r).

Definition set_multipartAlternative (ct : JsProp) (r : Readed) : Readed :=
  MkReaded (date r) (subject r) (from r) (to r) (cc r) (headers r) (text r)
    (html r) (textheaders r) (htmlheaders r) (attachments r) (Some ct) (data r).

Definition set_data (s : string) (r : Readed) : Readed :=
  MkReaded (date r) (subject r) (from r) (to r) (cc r) (headers r) (text r)
    (html r) (textheaders r) (htmlheaders r) (attachments r)
    (multipartAlternative r) (Some s).

Definition body_content (b : Body) : Content :=
  match b with
  | BUnset => CUndefined
  | BStr s => CString s
  | BArr items => CItems items
  end.

(** [v.indexOf(needle) >= 0] for a truthy [v]: a substring search on a
    string, an element search on an array. *)
Definition index_found (needle : string) (v : JsProp) : bool :=
  match v with
  | PStr s => Js.includes needle s
  | PArr l => existsb (String.eqb needle) l
  | _ => false
  end.

(** [(content as string).replace(..)]: it throws unless [content] is a
    string. *)
Definition as_string (c : Content) : Exc string :=
  match c with
  | CString s => inr s
  | CUndefined => inl (null_deref "undefined (reading 'replace')")
  | _ => inl (not_a_function "content.replace")
  end.

(** A method of strings called on a header value. *)
Definition string_method (what : string) (v : JsProp) : Exc string :=
  match v with
  | PStr s => inr s
  | _ => inl (not_a_function what)
  end.

Section Reading.

Context {collab : Collaborators}.

(** [getCharset(contentType)]; [exec] works on the string form of its
    argument. *)
Definition getCharset (contentType : JsProp) : option string :=
  Meta.charset_search (to_str contentType).

(** [headers['Content-Transfer-Encoding'] || headers['Content-transfer-encoding']],
    in lower case when it is a string. *)
Definition transfer_encoding (h : Headers) : JsProp :=
  match or_else (get_prop h "Content-Transfer-Encoding")
                (get_prop h "Content-transfer-encoding") with
  | PStr s => PStr (Js.to_lower s)
  | p => p
  end.

Definition is_str (lit : string) (p : JsProp) : bool :=
  match p with PStr s => String.eqb s lit | _ => false end.

(** The transfer-decoding of [content] (lines 526 to 539). *)
Definition transfer_decode (contentType encoding : JsProp) (charset : string)
    (content : Content) : Exc Content :=
  if is_str "base64" encoding then
    s ← as_string content;
    if truthy contentType && index_found "gbk" contentType
    then mret (CBytes (encode (GB2312ToUTF8 (Js.strip_newlines s))))
    else mret (CBytes (encode (Js.strip_newlines s)))
  else if is_str "quoted-printable" encoding then
    s ← as_string content;
    mret (CString (unquotePrintable s charset false))
  else if truthy encoding && negb (String.eqb charset "utf8") then
    e ← string_method "encoding.search" encoding;
    if Js.starts_with "binary" e || Js.starts_with "8bit" e
    then mret (CString (decode content charset))
    else mret content
  else mret content.

(** [content] as a string, decoded when it is not one. *)
Definition content_string (charset : string) (content : Content) : string :=
  match content with
  | CString s => s
  | _ => decode content charset
  end.

(** The inner [try] of the HTML branch: a failure of the Base64 functions
    leaves [htmlContent] as it was. *)
Definition unwrap_html (encoding : JsProp) (htmlContent : string) : string :=
  if is_str "base64" encoding then
    match Base64_decode htmlContent with
    | inr d => d
    | inl _ => htmlContent
    end
  else
    match Base64_atob htmlContent with
    | inr a =>
        match Base64_btoa a with
        | inr b => if String.eqb b htmlContent then a else htmlContent
        | inl _ => htmlContent
        end
    | inl _ => htmlContent
    end.

(** [encoding || '']. *)
Definition encoding_or_empty (encoding : JsProp) : JsProp :=
  if truthy encoding then encoding else PStr "".

(** The loop over [NameContainer]: the value of [result_name] after it. *)
Fixpoint name_loop (h : Headers) (keys : list string) (result_name : string)
  : Exc string :=
  match keys with
  | [] => mret result_name
  | key :: rest =>
      let name := get_prop h key in
      if truthy name then
        s ← string_method "name.replace" name;
        let candidate := Meta.candidate_name s in
        if Js.is_empty candidate then name_loop h rest candidate
        else mret candidate
      else name_loop h rest result_name
  end.

Definition NameContainer : list string :=
  ["Content-Disposition"; "Content-Type"; "Content-type"].

(** [attachment.contentId] (lines 597 to 601). For a value without a
    [replace] method the engine names the callee as it is written, with the
    optional chain. *)
Definition attachment_contentId (h : Headers) : Exc (option string) :=
  match or_else (get_prop h "Content-ID") (get_prop h "Content-Id") with
  | PUndefined => mret None
  | p => s ← string_method "contentIdWithBrackets?.replace" p;
         let stripped := Meta.strip_brackets s in
         mret (if Js.is_empty stripped then None else Some stripped)
  end.

(** [attachment.name] (lines 603 to 626). *)
Definition attachment_name (h : Headers) : Exc (option string) :=
  result_name ← name_loop h NameContainer EmptyString;
  if Js.is_empty result_name then mret None
  else n ← decodeURI result_name; mret (Some n).

(** The attachment built in the last branch of [_append] (lines 595 to 638). *)
Definition build_attachment (h : Headers) : Exc Attachment :=
  contentId ← attachment_contentId h;
  name ← attachment_name h;
  let ct := content_type_of h in
  let cd := get_prop h "Content-Disposition" in
  mret (MkAttachment name
          (if truthy ct then Some ct else None)
          contentId
          (if truthy cd then Some (Meta.is_inline (to_str cd)) else None)
          (if truthy cd
           then Some (Meta.parseInt (default "0" (Meta.size_exec (to_str cd))))
           else None)).

(** [_append(headers, content, result)]. *)
Definition _append (headers : option Headers) (content : Content)
    (result : Readed) : Exc Readed :=
  match headers with
  | None => inl (null_deref "undefined (reading 'Content-Type')")
  | Some h =>
      let contentType := content_type_of h in
      let contentDisposition := get_prop h "Content-Disposition" in
      let charset := getCharsetName (default defaultCharset (getCharset contentType)) in
      let encoding := transfer_encoding h in
      content ← transfer_decode contentType encoding charset content;
      if negb (truthy contentDisposition) && truthy contentType
         && index_found "text/html" contentType then
        let htmlContent :=
          unwrap_html encoding (Meta.strip_html O (content_string charset content)) in
        mret (add_html htmlContent (contentType, encoding_or_empty encoding) result)
      else if negb (truthy contentDisposition) && truthy contentType
              && index_found "text/plain" contentType then
        let s := content_string charset content in
        s ← (if is_str "base64" encoding then Base64_decode s else mret s);
        mret (add_text s (contentType, encoding_or_empty encoding) result)
      else
        a ← build_attachment h;
        mret (add_attachment a result)
  end.

(** [unquoteString(v)] for a truthy header value [v]: an array has no
    [match] method. *)
Definition unquote_header (v : JsProp) : Exc string :=
  s ← string_method "decodedString.match" v;
  mret (unquoteString s).

(** [getEmailAddress(rawStr)]. *)
Definition getEmailAddress (rawStr : JsProp) : Exc AddressField :=
  raw ← unquote_header rawStr;
  mret (match addressparser raw with
        | [] => AddrNull
        | [(name, address)] => AddrOne name address
        | l => AddrMany l
        end).

(** [if (data.headers[key]) result.f = g(data.headers[key])]. *)
Definition derive {A} (h : Headers) (key : string) (g : JsProp -> Exc A)
  : Exc (option A) :=
  let v := get_prop h key in
  if truthy v then a ← g v; mret (Some a) else mret None.

(** The scalar fields derived from the root headers (lines 653 to 671). *)
Definition read_scalars (h : Headers) : Exc Readed :=
  d ← derive h "Date" (fun v => mret (to_str v));
  s ← derive h "Subject" unquote_header;
  f ← derive h "From" getEmailAddress;
  t ← derive h "To" getEmailAddress;
  c1 ← derive h "CC" getEmailAddress;
  c2 ← derive h "Cc" getEmailAddress;
  mret (MkReaded d s f t (match c2 with Some c => Some c | None => c1 end)
          (Some h) None None None None None None None).

(** [boundary]: the token of a multipart Content-Type, when there is one. *)
Definition root_boundary (h : Headers) : bool :=
  let ct := content_type_of h in
  truthy ct && Re.is_multipart ct &&
  match getBoundary ct with
  | Some b => negb (Js.is_empty b)
  | None => false
  end.

(** The [forEach] over an array found two levels down (line 722). *)
Definition append_bound (r : Exc Readed) (bound : Item) : Exc Readed :=
  result ← r;
  match bound with
  | IBoundary _ _ (Some (MkPart hs b)) => _append hs (body_content b) result
  | _ => inl (null_deref "undefined (reading 'headers')")
  end.

(** One element [selfBoundary] of a nested array body (lines 713 to 727). *)
Definition read_nested (r : Exc Readed) (selfBoundary : Item) : Exc Readed :=
  result ← r;
  match selfBoundary with
  | IStr s => mret (set_data s result)
  | IBoundary _ _ None => inl (null_deref "undefined (reading 'headers')")
  | IBoundary _ _ (Some (MkPart hs b)) =>
      match b with
      | BArr content => fold_left append_bound content (mret result)
      | _ => _append hs (body_content b) result
      end
  end.

(** One element [boundaryBlock] of the root body (lines 685 to 730). The
    type of a parsed structure has no [part] that is a string, so the branch
    for it (line 692) is left out. *)
Definition read_block (r : Exc Readed) (boundaryBlock : Item) : Exc Readed :=
  result ← r;
  match boundaryBlock with
  | IStr _ => mret result
  | IBoundary _ _ None => mret result
  | IBoundary _ _ (Some (MkPart hs b)) =>
      match b with
      | BUnset => mret result
      | BStr s => _append hs (CString s) result
      | BArr items =>
          match hs with
          | None => inl (null_deref "undefined (reading 'Content-Type')")
          | Some currentHeaders =>
              let ct := content_type_of currentHeaders in
              let result :=
                if truthy ct && index_found "multipart" ct
                   && negb (bool_decide (is_Some (multipartAlternative result)))
                then set_multipartAlternative ct result
                else result in
              fold_left read_nested items (mret result)
          end
      end
  end.

(** The [try] block of [_read] for an object [data]. *)
Definition read_try (data : Part) : Exc Readed :=
  match part_headers data with
  | None => inl (new_Error "data does't has headers")
  | Some h =>
      result ← read_scalars h;
      match part_body data with
      | BArr items =>
          if root_boundary h then fold_left read_block items (mret result)
          else mret result
      | BStr s => _append (Some h) (CString s) result
      | BUnset => mret result
      end
  end.

(** [_read(data)]; [data] is [None] for [null]. *)
Definition _read (data : option Part) : Exc Readed :=
  match data with
  | None => inl (ErrorStr "no data")
  | Some d => read_try d
  end.

(** The first argument of [read]. *)
Inductive EmlArg :=
| EmlString (s : string)
| EmlObject (data : option Part)
| EmlOther.

(** A call made by [read]: by [parse] on its behalf, or by [read] itself. *)
Inductive ReadCall :=
| ByParse (c : Call Part)
| ByRead (c : Call (option Readed)).

Definition read_callee (c : ReadCall) : Callback :=
  match c with ByParse c => callee c | ByRead c => callee c end.

(** "Shift arguments" in [read]: the options in effect, handed to [parse]. *)
Definition shift_options (options : OptionsArg) (callback : option Callback)
  : OptionsArg :=
  match options, callback with
  | OptFunction _, None => OptNull
  | _, _ => options
  end.

(** [read(eml, options, callback)]: what it returns, and the calls made. *)
Definition read (eml : EmlArg) (options : OptionsArg)
    (callback : option Callback) : Outcome Readed * list ReadCall :=
  let cb := shift_callback options callback in
  let options' := shift_options options callback in
  let finish_with (calls : list ReadCall) (r : Exc Readed) :=
    let error := match r with inl e => Some e | inr _ => None end in
    let result := match r with inl _ => None | inr v => Some v end in
    (after_callback cb error (returned error result),
     calls ++ match cb with
              | Some f => [ByRead (MkCall f error result)]
              | None => []
              end) in
  match eml with
  | EmlString s =>
      match parse getBoundary (Some s) options' None with
      | (ReturnsError e, calls) => finish_with (map ByParse calls) (inl e)
      | (ReturnsValue p, calls) => finish_with (map ByParse calls) (_read (Some p))
      | (Raises e, calls) => (Raises e, map ByParse calls)
      | (Unfinished, calls) => (Unfinished, map ByParse calls)
      end
  | EmlObject data => finish_with [] (_read data)
  | EmlOther => finish_with [] (inl (new_Error "Missing EML file content!"))
  end.

End Reading.

(** ** getFileExtension, createBoundary and toEmailAddress *)

(** The table [fileExtensions], an object literal with five own
    properties; it is read like any other object. *)
Definition fileExtensions : Headers :=
  list_to_map
    [ ("text/plain", HStr ".txt"); ("text/html", HStr ".html");
      ("image/png", HStr ".png"); ("image/jpg", HStr ".jpg");
      ("image/jpeg", HStr ".jpg") ].

(** [getFileExtension(mimeType)]: [fileExtensions[mimeType] || '']. *)
Definition getFileExtension (mimeType : string) : JsProp :=
  or_else (get_prop fileExtensions mimeType) (PStr "").

(** [createBoundary()]: ['----=' + guid()]. The function [guid] belongs to
    the utilities module, which is not part of the sources at hand; [id] is
    the string it returned. *)
Definition createBoundary (id : string) : string := "----=" +:+ id.

Module Quote.

(** [name.replace(/^"|"\s*$/g, '')]. The first alternative matches a double
    quote at index 0 only; the second one matches a double quote that is
    followed by nothing but white space up to the end of the text, and takes
    all of it. *)
Fixpoint closing (s : string) : string :=
  match s with
  | EmptyString => EmptyString
  | String c r =>
      if Meta.is_dquote c && Js.all_chars Js.is_space r then EmptyString
      else String c (closing r)
  end.

Definition strip (s : string) : string :=
  match s with
  | String c r => if Meta.is_dquote c then closing r else closing s
  | EmptyString => EmptyString
  end.

End Quote.

(** The argument of [toEmailAddress]: [undefined], a string, or what
    [getEmailAddress] returns ([null], one address, an array of them). *)
Inductive AddressArg :=
| AddrUndefined
| AddrText (s : string)
| AddrData (a : AddressField).

(** The text built for one address [{name, email}], by the callback of
    [map] (lines 68 to 76) and again for a single object (lines 81 to 87). *)
Definition address_text (name email : string) : string :=
  let str := EmptyString in
  let str :=
    if negb (Js.is_empty name)
    then str +:+ String Js.dquote (Quote.strip name) +:+ String Js.dquote " "
    else str in
  if negb (Js.is_empty email) then str +:+ "<" +:+ email +:+ ">" else str.

(** [toEmailAddress(data)]. *)
Definition toEmailAddress (data : AddressArg) : string :=
  match data with
  | AddrUndefined => EmptyString
  | AddrText s => s
  | AddrData AddrNull => EmptyString
  | AddrData (AddrOne name email) => address_text name email
  | AddrData (AddrMany l) =>
      Js.join ", "
        (List.filter (fun a => negb (Js.is_empty a))
                     (map (fun item => address_text item.1 item.2) l))
  end.

(** ** Stand-ins for the collaborators

    Modelled from the spec: the charset service, the address parser and the
    Base64 codec, which are not among the sources at hand, and the built-in
    [decodeURI]. The stand-ins serve to run the embedding on concrete
    messages and are meant for the arguments they receive in the examples
    of this file only: ASCII text, a single bare address, names without
    percent escapes; Base64 content is not interpreted, and no example has
    any. The theorems hold for every instance of [Collaborators]. *)
Module Standin.

Definition getCharsetName (s : string) : string :=
  string_of_list_ascii
    (filter (fun c => Is_true (Js.in_range 48 57 c || Js.in_range 97 122 c))
            (list_ascii_of_string (Js.to_lower s))).

Definition bytes_of (s : string) : Bytes := map Js.code (list_ascii_of_string s).
Definition string_of (b : Bytes) : string := string_of_list_ascii (map ascii_of_N b).

Definition decode (c : Content) (charset : string) : string :=
  match c with
  | CString s => s
  | CBytes b => string_of b
  | _ => EmptyString
  end.

Definition no_base64 (s : string) : Exc string :=
  inl (new_Error "Base64 is not interpreted").

Definition addressparser (s : string) : list (string * string) :=
  if Js.is_empty s then [] else [(EmptyString, s)].

Definition decodeURI (s : string) : Exc string :=
  if Js.includes "%" s then inl (ErrorObj "URIError" "escapes are not interpreted")
  else inr s.

#[global] Instance collaborators : Collaborators := {
  getBoundary := Sample.getBoundary;
  getCharsetName := getCharsetName;
  decode := decode;
  encode := bytes_of;
  GB2312ToUTF8 := fun s => s;
  mimeDecode := fun s _ => s;
  Base64_decode := no_base64;
  Base64_atob := no_base64;
  Base64_btoa := no_base64;
  Base64_fromBase64 := fun s => s;
  Base64_toUint8Array := bytes_of;
  addressparser := addressparser;
  decodeURI := decodeURI
}.

End Standin.

(** ** Notions used in the statements *)

(** The shape promised for a tree: a body is unset, a string, or an array
    whose elements are all resolved boundaries (no string, no [lines] left)
    over parts of that shape. *)
Fixpoint wf_part (p : Part) : bool :=
  match p with
  | MkPart _ b => wf_body b
  end
with wf_body (b : Body) : bool :=
  match b with
  | BArr items =>
      (fix all (l : list Item) : bool :=
         match l with
         | [] => true
         | x :: r => wf_item x && all r
         end) items
  | _ => true
  end
with wf_item (i : Item) : bool :=
  match i with
  | IBoundary _ None (Some p) => wf_part p
  | _ => false
  end.

(** [Reaches gb o rec prev rest st prev' rest' st']: the loop of
    [parseRecursive], started on the lines [rest] in state [st], arrives at
    the lines [rest'] in state [st'] without leaving the loop. *)
Inductive Reaches (gb : JsProp -> option string) (o : Options)
    (rec : list string -> Result Part)
  : option string -> list string -> PState ->
    option string -> list string -> PState -> Prop :=
| reaches_here prev rest st : Reaches gb o rec prev rest st prev rest st
| reaches_step prev line tl st st1 prev' rest' st' :
    step gb o rec prev line (line :: tl) st = Continue st1 ->
    Reaches gb o rec (Some line) tl st1 prev' rest' st' ->
    Reaches gb o rec prev (line :: tl) st prev' rest' st'.

(** The lines still held by the boundary being collected. *)
Definition open_lines (st : PState) : option (list string) :=
  match current_boundary st with
  | Some (IBoundary _ ls _) => ls
  | _ => None
  end.

(** The state of the body during the loop, with [n] lines still to be
    read and a recursion bound [f]: every element is a resolved boundary of
    the promised shape, except that the last one may still be collecting
    lines, fewer than [f] even if it takes all the lines left. *)
Definition body_ok (f n : nat) (b : Body) : Prop :=
  match b with
  | BArr items =>
      exists l, Forall (fun it => wf_item it = true) l /\
        (items = l \/
         exists d ls p, items = l ++ [IBoundary d (Some ls) p] /\ length ls + n < f)
  | _ => True
  end.

(** What is assumed of the recursive call while one call is examined:
    with fewer than [f] lines it ends, with a part of the promised shape or
    with a [TypeError]. *)
Definition rec_ok (f : nat) (rec : list string -> Result Part) : Prop :=
  forall ls, length ls < f ->
    match rec ls with
    | Ok p => wf_part p = true
    | Throw e _ => error_name e = "TypeError"
    | NoFuel => False
    end.

(** What holds of every state the loop can be in: in multipart mode the
    body is an array and the boundary token is not empty; [__proto__] is
    never a header name; [isMultiHeader] tells whether the value of the last
    header is an array, which then has a last element. *)
Definition sane (st : PState) : Prop :=
  (isMultipart st = true ->
     (exists items, parent_body st = BArr items) /\ findBoundary st <> "") /\
  parent_headers st !! "__proto__" = None /\
  lastHeaderName st <> "__proto__" /\
  (if isMultiHeader st
   then exists l x, parent_headers st !! lastHeaderName st = Some (HArr (l ++ [x]))
   else forall l, parent_headers st !! lastHeaderName st <> Some (HArr l)).

(** The candidate name a header offers, and the first non-empty candidate
    in the order of [NameContainer]: Content-Disposition, then Content-Type
    in its two spellings. *)
Definition candidate_of (h : Headers) (key : string) : string :=
  match get_prop h key with
  | PStr s => Meta.candidate_name s
  | _ => EmptyString
  end.

Definition first_candidate (h : Headers) : option string :=
  List.find (fun n => negb (Js.is_empty n)) (map (candidate_of h) NameContainer).

(** The condition under which [_append] takes its last branch. *)
Definition dispatched_as_attachment (h : Headers) : bool :=
  let ct := content_type_of h in
  negb (negb (truthy (get_prop h "Content-Disposition")) && truthy ct
        && (index_found "text/html" ct || index_found "text/plain" ct)).

(** The two resolvers side by side, on the lines of a leaf part. The state
    of [completeBoundary] at the start, the state of [parseRecursive] that
    holds the same headers, and the header section read the way
    [completeBoundary] reads it. *)
Definition cinit : CState := MkCState ∅ BUnset "" false None 0.

Definition pstate_of (c : CState) : PState :=
  MkPState (c_headers c) BUnset (c_lastHeaderName c) "" false false false false
    false false.

Definition header_section (hdrs : list string) : CState :=
  fold_left (fun c line => cstep_header line c) hdrs cinit.

(** No line of the header section is blank, and no name comes twice or is a
    name of [Object.prototype]; [seen] holds the names read so far. *)
Fixpoint fresh_headers (seen : list string) (hdrs : list string) : bool :=
  match hdrs with
  | [] => true
  | line :: rest =>
      negb (Js.is_empty line) &&
      match Re.header line with
      | Some (name, _) =>
          negb (is_inherited name) && negb (bool_decide (name ∈ seen))
          && fresh_headers (name :: seen) rest
      | None => fresh_headers seen rest
      end
  end.

(** The two loops in a multipart body: the state of [parseRecursive] and
    the state of [completeBoundary] after the header section [c], with the
    boundary token [fb]. *)
Definition pbody (c : CState) (fb : string) (inside : bool) (items : list Item)
  : PState :=
  MkPState (c_headers c) (BArr items) (c_lastHeaderName c) fb true inside
    false true false false.

Definition cbody (c : CState) (b : Body) (child : option (string * list string))
  : CState :=
  MkCState (c_headers c) b (c_lastHeaderName c) true child (c_spliced c).

(** The body of [completeBoundary] once [done] holds the children found. *)
Definition children_body (done : list Item) : Body :=
  match done with
  | [] => BUnset
  | _ => BArr done
  end.

(** [lines[i - 1]] after the lines [l] have been read: the last of them, or
    [prev] when there is none. *)
Definition last_or (prev : option string) (l : list string) : option string :=
  match last l with
  | Some x => Some x
  | None => prev
  end.

(** The lines of a multipart body: each child after a marker line, then the
    closing marker and what follows it. *)
Definition multipart_lines (fb : string) (children : list (list string))
    (tail : list string) : list string :=
  flat_map (fun cl => ("--" +:+ fb) :: cl) children
    ++ ("--" +:+ fb +:+ "--") :: tail.

(** What the lines of a child are like, for the boundary token [fb]: no line
    begins with the marker, the first line is not blank, the last one is. *)
Definition child_lines_ok (fb : string) (cl : list string) : Prop :=
  Forall (fun l => Js.starts_with ("--" +:+ fb) l = false) cl /\
  (exists n, head cl = Some n /\ Js.is_empty n = false) /\
  last cl = Some "".

(** The lines [cl] of a child are resolved alike by the two recursive
    calls, for the delimiter [fb]. *)
Definition agrees (rec : list string -> Result Part)
    (crec : string -> list string -> Result (option Item * list string))
    (fb : string) (cl : list string) : Prop :=
  exists p cl',
    rec cl = Ok p /\ crec fb cl = Ok (Some (IBoundary fb None (Some p)), cl').

(** The lines on which the two resolvers are compared, to nesting depth [n].
    A leaf: a header section with fresh names and a Content-Type that is
    not multipart, a blank line, and a body whose first line does not begin
    with two dashes. A multipart part: a header section with fresh names and
    a multipart Content-Type with boundary token [fb], a blank line, then at
    least one child after a marker line each, the closing marker, and at
    most one blank line; the children are lines of the same kind, one level
    less deep. *)
Fixpoint agreeable (gb : JsProp -> option string) (n : nat)
    (lines : list string) : Prop :=
  (exists hdrs body,
     lines = hdrs ++ "" :: body /\
     fresh_headers [""] hdrs = true /\
     truthy (content_type_of (c_headers (header_section hdrs))) = true /\
     Re.is_multipart (content_type_of (c_headers (header_section hdrs))) = false /\
     match body with
     | l :: _ => Js.starts_with "--" l = false
     | [] => True
     end) \/
  match n with
  | O => False
  | S m =>
      exists hdrs fb children tail,
        lines = hdrs ++ "" :: multipart_lines fb children tail /\
        fresh_headers [""] hdrs = true /\
        truthy (content_type_of (c_headers (header_section hdrs))) = true /\
        Re.is_multipart (content_type_of (c_headers (header_section hdrs))) = true /\
        gb (content_type_of (c_headers (header_section hdrs))) = Some fb /\
        fb <> "" /\ Js.all_chars Js.not_crlf fb = true /\
        children <> [] /\ (tail = [] \/ tail = [""]) /\
        Forall (fun cl => child_lines_ok fb cl /\ agreeable gb m cl) children
  end.

(** The mime types listed in [fileExtensions]. *)
Definition known_types : list string :=
  [ "text/plain"; "text/html"; "image/png"; "image/jpg"; "image/jpeg" ].

(** How two renderings are put together: with a comma between them, unless
    one of them is empty. *)
Definition comma_join (x y : string) : string :=
  if Js.is_empty x then y
  else if Js.is_empty y then x
  else x +:+ ", " +:+ y.

Definition no_dquote (c : ascii) : bool := negb (Meta.is_dquote c).

(** The error thrown by [parse] for an argument that is not a string. *)
Definition argument_error : JsError :=
  new_Error ("Argument " +:+ String Js.dquote "eml"
             +:+ String Js.dquote " expected to be string!").

(** A header line [Name: value]; the header object a list of such lines
    stands for; and what makes such a line plain: a name of name characters
    that is not a member name of [Object.prototype], and a value without CR
    and LF that does not begin with white space. *)
Definition header_line (kv : string * string) : string :=
  kv.1 +:+ ": " +:+ kv.2.

Definition headers_of (kvs : list (string * string)) : Headers :=
  list_to_map (map (fun kv => (kv.1, HStr kv.2)) kvs).

Definition plain_header (kv : string * string) : Prop :=
  kv.1 <> "" /\ Js.all_chars Js.is_name_char kv.1 = true /\
  is_inherited kv.1 = false /\
  Js.head_fails Js.is_space kv.2 = true /\ Js.all_chars Js.not_crlf kv.2 = true.

(** The body of a part whose header section is followed by the lines
    [body]: unset when there is none. *)
Definition body_of_lines (body : list string) : Body :=
  match body with
  | [] => BUnset
  | _ => BStr (Js.join Js.crlf body)
  end.

(** The state of the scan in the header section once the header [name]
    has come more than once and holds the list [l]. *)
Definition listed (name : string) (l : list string) : PState :=
  MkPState {[ name := HArr l ]} BUnset name "" false false true false false false.

(** What is assumed of the recursive call of [completeBoundary] while one
    call is examined: for a delimiter that is not empty and fewer than [f]
    lines it returns a record with that delimiter, resolved into a part
    with headers and a body of the promised shape, and it leaves an array
    that is no longer than the one it was given. *)
Definition crec_ok (f : nat)
    (crec : string -> list string -> Result (option Item * list string))
    : Prop :=
  forall b ls, b <> "" -> length ls < f ->
    exists h body ls',
      crec b ls = Ok (Some (IBoundary b None (Some (MkPart (Some h) body))), ls')
      /\ wf_body body = true /\ length ls' <= length ls.

(** The state of [completeBoundary] during its loop, with the lines [rest]
    still to be read and a recursion bound [f]. *)
Definition cstate_ok (f : nat) (rest : list string) (st : CState) : Prop :=
  wf_body (c_body st) = true /\
  match childBoundary st with
  | Some (_, cl) => length cl + length rest < f
  | None => length rest <= f
  end.

(** The fields of a result that [_read] derives from the root headers. *)
Definition scalars (r : Readed)
  : option string * option string * option AddressField * option AddressField
    * option AddressField * option Headers :=
  (date r, subject r, from r, to r, cc r, headers r).

(** A transfer encoding under which [_append] leaves the content as it is:
    none, or a string other than [base64] and [quoted-printable] that does
    not begin with [binary] or [8bit]. *)
Definition passes_through (encoding : JsProp) : bool :=
  match encoding with
  | PUndefined => true
  | PStr e =>
      negb (String.eqb e "base64") && negb (String.eqb e "quoted-printable")
      && negb (Js.starts_with "binary" e) && negb (Js.starts_with "8bit" e)
  | _ => false
  end.

(** The headers of a part that [_append] takes for plain text. *)
Definition plain_text_part (h : Headers) : Prop :=
  truthy (get_prop h "Content-Disposition") = false /\
  truthy (content_type_of h) = true /\
  index_found "text/html" (content_type_of h) = false /\
  index_found "text/plain" (content_type_of h) = true /\
  passes_through (transfer_encoding h) = true.

(** A resolved boundary record over a part with the headers [hs] and the
    string body [s]; and the strings of a list put end to end. *)
Definition leaf_item (p : string * Headers * string) : Item :=
  IBoundary p.1.1 None (Some (MkPart (Some p.1.2) (BStr p.2))).

Definition concat_all (l : list string) : string :=
  fold_right String.append EmptyString l.

(** The last character of a text. *)
Fixpoint last_char (s : string) : option ascii :=
  match s with
  | EmptyString => None
  | String c EmptyString => Some c
  | String _ r => last_char r
  end.

(** The text does not end with a tab or a space. *)
Definition ends_solid (s : string) : bool :=
  match last_char s with
  | Some c => negb (Replace.is_blank c)
  | None => true
  end.

Definition no_equals (c : ascii) : bool := negb (Js.code c =? 61)%N.

Definition non_word (c : ascii) : bool := negb (Js.is_word c).

(** An encoded word [=?charset?t?payload?=], and what makes a payload the
    one the encoded-word literal takes: it is not empty, holds no line
    terminator, and no [?=] begins after its first character. *)
Definition encoded_word (charset : string) (t : ascii) (payload : string) : string :=
  "=?" +:+ charset +:+ "?" +:+ String t ("?" +:+ payload +:+ "?=").

Fixpoint lazy_payload (p : string) : bool :=
  match p with
  | EmptyString => false
  | String c r =>
      Js.is_dot c &&
      (Js.is_empty r || (negb (Js.starts_with "?=" r) && lazy_payload r))
  end.

Definition no_dollar (c : ascii) : bool := negb (Js.code c =? 36)%N.

(** Every value of the header object is a string: no name came twice. *)
Definition single_valued (h : Headers) : Prop :=
  forall k x, h !! k = Some x -> exists v, x = HStr v.

(** The Content-Type that an element of the root body offers for
    [multipartAlternative]: that of a part with an array body, when it
    holds [multipart]; and the first one offered in a list of elements. *)
Definition nested_multipart (it : Item) : option JsProp :=
  match it with
  | IBoundary _ _ (Some (MkPart (Some hs) (BArr _))) =>
      let ct := content_type_of hs in
      if truthy ct && index_found "multipart" ct then Some ct else None
  | _ => None
  end.

Fixpoint first_nested (items : list Item) : option JsProp :=
  match items with
  | [] => None
  | it :: rest =>
      match nested_multipart it with
      | Some ct => Some ct
      | None => first_nested rest
      end
  end.

Definition no_semicolon (c : ascii) : bool := negb (Ascii.eqb c ";").

(** A character of a file name given in double quotes: no line terminator
    and no semicolon. *)
Definition file_name_char (c : ascii) : bool := Js.is_dot c && no_semicolon c.

(** The headers of a part that [_append] takes for HTML, under a transfer
    encoding that passes the content through. *)
Definition html_part (h : Headers) : Prop :=
  truthy (get_prop h "Content-Disposition") = false /\
  truthy (content_type_of h) = true /\
  index_found "text/html" (content_type_of h) = true /\
  passes_through (transfer_encoding h) = true.

(** A text in which the encoded-word literal of the module finds a match:
    somewhere in it there are [=?], a charset of one or more characters
    other than [?], [?], the letter B or Q in either case, [?], a payload of
    one or more characters other than line terminators, and [?=]. Every
    encoded-word of RFC 2047 is of this form, and so is a word whose payload
    holds a space or a question mark. *)
Definition holds_encoded_word (s : string) : Prop :=
  exists pre charset t payload post,
    s = pre +:+ encoded_word charset t payload +:+ post /\
    charset <> "" /\ Js.all_chars Word.not_qmark charset = true /\
    Word.is_B t || Word.is_Q t = true /\
    payload <> "" /\ Js.all_chars Js.is_dot payload = true.

(** A size parameter at the start of a text: the letters [size] in either
    case, white space or none, an equals sign, white space or none, and the
    run of [digits], which ends where no digit follows. *)
Definition size_parameter (s digits : string) : Prop :=
  exists key ws1 ws2 post,
    s = key +:+ ws1 +:+ "=" +:+ ws2 +:+ digits +:+ post /\
    Js.to_lower key = "size" /\
    Js.all_chars Js.is_space ws1 = true /\
    Js.all_chars Js.is_space ws2 = true /\
    digits <> "" /\ Js.all_chars Js.is_digit digits = true /\
    Js.head_fails Js.is_digit post = true.

(** The first size parameter of a text, wherever it begins: no size
    parameter begins before it. *)
Definition first_size (s digits : string) : Prop :=
  exists pre rest,
    s = pre +:+ rest /\ size_parameter rest digits /\
    forall pre1 pre2 d,
      pre = pre1 +:+ pre2 -> pre2 <> "" -> ~ size_parameter (pre2 +:+ rest) d.

(** A text in which no size parameter begins anywhere. *)
Definition no_size (s : string) : Prop :=
  forall pre rest d, s = pre +:+ rest -> ~ size_parameter rest d.

(** [s] is [mid], after an opening angle bracket when [s] begins with one,
    and before a closing angle bracket when [s] ends with one, other than
    the opening one. *)
Definition bracketed (s mid : string) : Prop :=
  exists opening closing : bool,
    s = (if opening then "<" else "") +:+ mid +:+ (if closing then ">" else "")
    /\ (opening = false -> Js.starts_with "<" mid = false)
    /\ (closing = false -> last_char mid <> Some ">"%char).

(** No function among the arguments of [parse] or [read] throws when it
    is called. *)
Definition callbacks_return (options : OptionsArg) (callback : option Callback)
  : Prop :=
  (forall f, callback = Some f -> never_throws f) /\
  (forall g, options = OptFunction g -> never_throws g).

(** ** Messages used in the examples *)

Module Ex.

Definition nl : string := Js.crlf.

(** The lines of a message, joined by CR LF. *)
Definition eml (lines : list string) : string := Js.join nl lines.

(** A multipart/mixed message holding a multipart/alternative part. *)
Definition nested : string :=
  eml [ "Subject: hello";
        "Content-Type: multipart/mixed; boundary=B";
        "";
        "--B";
        "Content-Type: multipart/alternative; boundary=C";
        "";
        "--C";
        "Content-Type: text/plain";
        "";
        "plain";
        "";
        "--C";
        "Content-Type: text/html";
        "";
        "<p>rich</p>";
        "";
        "--C--";
        "";
        "--B--" ].

Definition leaf (ct body : string) : Part :=
  MkPart (Some {[ "Content-Type" := HStr ct ]}) (BStr body).

Definition nested_tree : Part :=
  MkPart
    (Some {[ "Subject" := HStr "hello";
             "Content-Type" := HStr "multipart/mixed; boundary=B" ]})
    (BArr
       [IBoundary "B" None
          (Some (MkPart
             (Some {[ "Content-Type" := HStr "multipart/alternative; boundary=C" ]})
             (BArr
                [IBoundary "C" None (Some (leaf "text/plain" ("plain" +:+ nl)));
                 IBoundary "C" None
                   (Some (leaf "text/html" ("<p>rich</p>" +:+ nl)))])))]).

(** A boundary line with a stray CR after the token: the marker literal,
    anchored at the end of the line, does not match it. *)
Definition stray_cr_line : string := "--B" +:+ String Js.CR "x".

Definition stray_cr : string :=
  eml [ "Content-Type: multipart/mixed; boundary=B";
        "";
        stray_cr_line;
        "X: y";
        "";
        "body";
        "--B--" ].

(** The example of the specification: headers followed, with no blank
    line, by a boundary marker. *)
Definition no_blank : string :=
  eml [ "Content-Type: multipart/mixed; boundary=B";
        "--B";
        "X: y";
        "";
        "body";
        "--B--" ].

Definition no_blank_tree : Part :=
  MkPart
    (Some {[ "Content-Type" := HStr "multipart/mixed; boundary=B";
             "X" := HStr "y" ]})
    (BArr []).

(** The same with the blank line, and a body line right before the closing
    marker. *)
Definition part_lines : list string := [ "X: y"; ""; "body"; "--B--" ].

Definition marker_lines : list string :=
  "Content-Type: multipart/mixed; boundary=B" :: "" :: "preamble" :: "--B"
    :: part_lines.

Definition no_blank_before_marker : string := eml marker_lines.

(** A folded header value, as [parse] stores it: CR LF where the line was
    folded. *)
Definition folded_value : string := "a long" +:+ nl +:+ "subject".

(** A message with both spellings of the carbon-copy header, the second
    one empty. *)
Definition two_cc : string := eml [ "CC: a@x.com"; "Cc:"; ""; "text" ].

Definition both_cc : Headers :=
  {[ "CC" := HStr "a@x.com"; "Cc" := HStr "b@y.com"; "cc" := HStr "c@z.com" ]}.

Definition both_cc_result : Readed :=
  MkReaded None None None None (Some (AddrOne "" "b@y.com")) (Some both_cc)
    None None None None None None None.

(** A single part with neither Content-Type nor Content-Transfer-Encoding. *)
Definition untyped : string := eml [ "X: y"; ""; "Hello" ].

Definition no_metadata : Attachment := MkAttachment None None None None None.

Definition untyped_result : Readed :=
  MkReaded None None None None None (Some {[ "X" := HStr "y" ]})
    None None None None (Some [no_metadata]) None None.

(** A related image: a Content-Type other than text, a Content-ID and no
    Content-Disposition. *)
Definition related_image : string :=
  eml [ "Content-Type: multipart/related; boundary=B";
        "";
        "--B";
        "Content-Type: image/png; name=x.png";
        "Content-ID: <abc>";
        "";
        "data";
        "--B--" ].

Definition image_attachment : Attachment :=
  MkAttachment (Some "x.png") (Some (PStr "image/png; name=x.png"))
    (Some "abc") None None.

(** The headers of the attachment of the specification's example. *)
Definition file_headers : Headers :=
  {[ "Content-Disposition" :=
       HStr ("attachment; filename=" +:+ String Js.dquote "f.txt"
             +:+ String Js.dquote "; size=10") ]}.

Definition file_attachment : Attachment :=
  MkAttachment (Some "f.txt") None None (Some false) (Some (Finite 10)).

Definition file_result : Readed :=
  MkReaded None None None None None None None None None None
    (Some [file_attachment]) None None.

(** A header whose first occurrence has an empty value. *)
Definition empty_then_value : string := eml [ "X:"; "X: b"; ""; "body" ].

Definition empty_then_value_tree : Part :=
  MkPart (Some {[ "X" := HStr "b" ]}) (BStr "body").

(** A repeated header followed by a continuation line. *)
Definition folded_lines : list string := [ "Y: 1"; "Y: 2"; " more" ].

(** The state of the loop on [folded_lines] when it comes to the last one. *)
Definition two_Y : PState :=
  MkPState {[ "Y" := HArr ["1"; "2"] ]} BUnset "Y" "" false false true false
    false false.

(** The lines of a leaf part with a repeated header. *)
Definition repeated_lines : list string :=
  [ "Content-Type: text/plain"; "Received: a"; "Received: b"; ""; "body" ].

Definition top_down_part : Part :=
  MkPart (Some {[ "Content-Type" := HStr "text/plain";
                  "Received" := HArr ["a"; "b"] ]}) (BStr "body").

Definition bottom_up_part : Part :=
  MkPart (Some {[ "Content-Type" := HStr "text/plain";
                  "Received" := HStr "b" ]}) (BStr "body").

(** The header section and the body of a leaf part with a folded header. *)
Definition leaf_headers : list string :=
  [ "Content-Type: text/plain"; "Received: from a"; " by b" ].

Definition leaf_body : list string := [ "Hello"; "--"; "World" ].

(** The examples of the specification: a text/plain message, and a
    multipart/mixed message with a text part and a file. *)
Definition plain : string := eml [ "Content-Type: text/plain"; ""; "Hello" ].

Definition mixed : string :=
  eml [ "Content-Type: multipart/mixed; boundary=B";
        "";
        "--B";
        "Content-Type: text/plain";
        "";
        "hi";
        "--B";
        "Content-Disposition: attachment; filename=" +:+ String Js.dquote "f.txt"
          +:+ String Js.dquote "; size=10";
        "";
        "data";
        "--B--" ].

(** The lines of a multipart/alternative part with two leaves. *)
Definition plain_child : list string :=
  [ "Content-Type: text/plain"; ""; "hi"; "" ].

Definition html_child : list string :=
  [ "Content-Type: text/html"; ""; "<b>hi</b>"; "" ].

Definition alternative_lines : list string :=
  [ "Content-Type: multipart/alternative; boundary=C"; "" ]
    ++ multipart_lines "C" [ plain_child; html_child ] [ "" ].

(** A parsed message with a subject and a sender, and what [read] makes of
    it. *)
Definition letter_headers : Headers :=
  {[ "Subject" := HStr "Hi"; "From" := HStr "a@x.com";
     "Content-Type" := HStr "text/plain" ]}.

Definition letter_result : Readed :=
  MkReaded None (Some "Hi") (Some (AddrOne "" "a@x.com")) None None
    (Some letter_headers) (Some "Hello") None
    (Some (PStr "text/plain", PStr "")) None None None None.

(** A multipart message with two plain-text parts, as a parsed tree. *)
Definition mixed_headers : Headers :=
  {[ "Content-Type" := HStr "multipart/mixed; boundary=B" ]}.

Definition two_texts : list (string * Headers * string) :=
  [ ("B", {[ "Content-Type" := HStr "text/plain" ]}, "one ");
    ("B", {[ "Content-Type" := HStr "text/plain; charset=utf-8" ]}, "two") ].

Definition two_texts_result : Readed :=
  MkReaded None None None None None (Some mixed_headers) (Some "one two") None
    (Some (PStr "text/plain; charset=utf-8", PStr "")) None None None None.

(** A quoted-printable text part, and a root body with one nested
    multipart part. *)
Definition qp_headers : Headers :=
  {[ "Content-Type" := HStr "text/plain; charset=iso-8859-1";
     "Content-Transfer-Encoding" := HStr "Quoted-Printable" ]}.

Definition qp_result : Readed :=
  MkReaded None None None None None (Some qp_headers) (Some "soft break") None
    (Some (PStr "text/plain; charset=iso-8859-1", PStr "quoted-printable"))
    None None None None.

Definition alternative_items : list Item :=
  [ IBoundary "B" None
      (Some (MkPart
               (Some {[ "Content-Type" := HStr "multipart/alternative; boundary=C" ]})
               (BArr [ leaf_item ("C", {[ "Content-Type" := HStr "text/plain" ]}, "hi") ]))) ].

Definition alternative_result : Readed :=
  MkReaded None None None None None
    (Some {[ "Content-Type" := HStr "multipart/mixed; boundary=B" ]})
    (Some "hi") None (Some (PStr "text/plain", PStr "")) None None
    (Some (PStr "multipart/alternative; boundary=C")) None.

(** An HTML part and its reading, and the headers of a Base64 text part. *)
Definition page_headers : Headers :=
  {[ "Content-Type" := HStr "text/html" ]}.

Definition page_result : Readed :=
  MkReaded None None None None None (Some page_headers) None
    (Some "<p>Hi</p>") None (Some (PStr "text/html", PStr "")) None None None.

Definition base64_headers : Headers :=
  {[ "Content-Type" := HStr "text/plain";
     "Content-Transfer-Encoding" := HStr "BASE64" ]}.

(** A multipart message in which the second marker comes right after a
    line of text, and the state of the loop when it comes to that marker:
    the first part is still open. *)
Definition second_marker_lines : list string :=
  [ "Content-Type: multipart/mixed; boundary=B"; ""; "--B"; "X: y"; "";
    "one"; "--B"; "X: z"; ""; "two"; ""; "--B--" ].

Definition before_second_marker : PState :=
  MkPState {[ "Content-Type" := HStr "multipart/mixed; boundary=B" ]}
    (BArr [IBoundary "B" (Some ["X: y"; ""; "one"]) None])
    "Content-Type" "B" true true false true false false.

(** The same with a first part whose header is named like a member of
    [Object.prototype]. *)
Definition failing_part : string :=
  eml [ "Content-Type: multipart/mixed; boundary=B"; ""; "--B";
           "constructor: x"; ""; "one"; "--B"; "X: z"; ""; "two"; ""; "--B--" ].

(** The lines of [empty_then_value], and the state of the loop on them when
    it comes to the second one. *)
Definition empty_then_value_lines : list string := [ "X:"; "X: b"; ""; "body" ].

Definition after_empty_value : PState :=
  MkPState {[ "X" := HStr "" ]} BUnset "X" "" false false false false false
    false.

(** A callback that throws the error it is handed, and returns when it is
    handed none. *)
Definition rethrow : Callback := MkCallback 7 (fun error => error).

End Ex.

(** * Properties *)

(** ** Lists and the current boundary *)

Lemma last_replace_last (x : Item) (items : list Item) :
  items <> [] -> last (replace_last x items) = Some x.
Proof.
  induction items as [|y r IH]; [congruence|]. intros _.
  destruct r as [|z r']; [reflexivity|].
  change (replace_last x (y :: z :: r')) with (y :: replace_last x (z :: r')).
  assert (H : last (replace_last x (z :: r')) = Some x) by (apply IH; congruence).
  destruct (replace_last x (z :: r')) eqn:E; [discriminate H | exact H].
Qed.

Lemma last_Some_nonempty {A} (l : list A) (x : A) : last l = Some x -> l <> [].
Proof. destruct l; [discriminate | congruence]. Qed.

Lemma length_replace_last (x : Item) (items : list Item) :
  length (replace_last x items) = length items.
Proof.
  induction items as [|y r IH]; [reflexivity|].
  destruct r as [|z r']; [reflexivity|].
  change (replace_last x (y :: z :: r')) with (y :: replace_last x (z :: r')).
  simpl length in *. now rewrite IH.
Qed.

Lemma replace_last_snoc (x y : Item) (l : list Item) :
  replace_last x (l ++ [y]) = l ++ [x].
Proof.
  induction l as [|z r IH]; [reflexivity|].
  simpl app. destruct (r ++ [y]) eqn:E.
  - destruct r; discriminate E.
  - change (replace_last x (z :: i :: l)) with (z :: replace_last x (i :: l)).
    now rewrite IH.
Qed.

Lemma last_snoc_inv {A} (l : list A) (x : A) :
  last l = Some x -> exists l', l = l' ++ [x].
Proof.
  intros H. destruct (list.last_Some l x) as [Hx _]. exact (Hx H).
Qed.

Lemma current_set_current (x it : Item) (st : PState) :
  current_boundary st = Some it ->
  current_boundary (set_current_boundary x st) = Some x.
Proof.
  unfold current_boundary, set_current_boundary. simpl. intros H.
  apply last_replace_last. eapply last_Some_nonempty; eauto.
Qed.

Lemma current_push (x : Item) (items : list Item) (st : PState) :
  current_boundary (set_body (BArr (items ++ [x])) st) = Some x.
Proof. unfold current_boundary. simpl. apply last_snoc. Qed.

(** ** The loop of parseRecursive *)

Section ScanFacts.

Variable gb : JsProp -> option string.
Variable o : Options.
Variable rec : list string -> Result Part.

(** An invariant of the iterations is an invariant of the loop: [Inv] holds
    before each iteration, [Post] when the loop is left normally, [Exn] when
    an exception leaves it, [Out] when the recursion bound is hit. *)
Lemma scan_invariant (Inv : list string -> PState -> Prop)
    (Post : PState -> Prop) (Exn : JsError -> PState -> Prop) (Out : Prop) :
  (forall prev line tl st, Inv (line :: tl) st ->
     match step gb o rec prev line (line :: tl) st with
     | Continue st' => Inv tl st'
     | Break st' => Post st'
     | Raise e st' => Exn e st'
     | Starve => Out
     end) ->
  (forall st, Inv [] st -> Post st) ->
  forall rest prev st, Inv rest st ->
    match scan gb o rec prev rest st with
    | Ok st' => Post st'
    | Throw e st' => Exn e st'
    | NoFuel => Out
    end.
Proof.
  intros Hstep Hend. induction rest as [|line tl IH]; intros prev st HI.
  - simpl. auto.
  - simpl. specialize (Hstep prev line tl st HI).
    destruct (step gb o rec prev line (line :: tl) st); auto.
    apply IH. exact Hstep.
Qed.

(** Reaching a configuration does not change what the loop computes. *)
Lemma scan_reaches prev rest st prev' rest' st' :
  Reaches gb o rec prev rest st prev' rest' st' ->
  scan gb o rec prev rest st = scan gb o rec prev' rest' st'.
Proof.
  induction 1 as [|prev line tl st st1 prev' rest' st' Hs _ IH]; [reflexivity|].
  simpl. rewrite Hs. exact IH.
Qed.

(** The steps in the header section leave the body alone, or make it the
    empty array when a multipart Content-Type is found. *)
Lemma step_header_mode prev line rest st :
  insideBody st = false ->
  match step gb o rec prev line rest st with
  | Continue st' | Break st' =>
      parent_body st' = parent_body st \/ parent_body st' = BArr []
  | Raise e _ => error_name e = "TypeError"
  | Starve => False
  end.
Proof.
  intros Hin. unfold step. rewrite Hin. simpl negb. cbv iota.
  unfold step_blank, step_continuation, step_header.
  repeat case_match; simplify_eq; simpl; auto.
Qed.

End ScanFacts.

Lemma wf_body_Forall (items : list Item) :
  wf_body (BArr items) = true <-> Forall (fun it => wf_item it = true) items.
Proof.
  induction items as [|x r IH].
  - split; [constructor | reflexivity].
  - change (wf_body (BArr (x :: r))) with (wf_item x && wf_body (BArr r)).
    rewrite andb_true_iff, Forall_cons, IH. reflexivity.
Qed.

Lemma body_ok_mono (f n m : nat) (b : Body) :
  m <= n -> body_ok f n b -> body_ok f m b.
Proof.
  intros Hle. destruct b as [| |items]; simpl; auto.
  intros (l & Hl & [->|(d & ls & p & -> & Hlen)]); exists l; split; auto.
  right. exists d, ls, p. split; [reflexivity | lia].
Qed.

(** With the last element still collecting lines, the body splits there. *)
Lemma body_ok_open (f n : nat) (items : list Item) (it : Item) :
  body_ok f n (BArr items) -> last items = Some it -> has_lines it = true ->
  exists l d ls p, items = l ++ [IBoundary d (Some ls) p] /\
    it = IBoundary d (Some ls) p /\
    Forall (fun it => wf_item it = true) l /\ length ls + n < f.
Proof.
  intros (l & Hl & [->|(d & ls & p & -> & Hlen)]) Hlast Hlines.
  - apply last_snoc_inv in Hlast as [l' ->].
    rewrite Forall_app, Forall_singleton in Hl. destruct Hl as [_ Hl].
    destruct it as [|? [?|] ?]; simpl in *; congruence.
  - rewrite last_snoc in Hlast. simplify_eq.
    exists l, d, ls, p. auto.
Qed.

(** With the last element resolved, or no element, all are resolved. *)
Lemma body_ok_closed (f n : nat) (items : list Item) :
  body_ok f n (BArr items) ->
  match last items with Some it => has_lines it = false | None => True end ->
  Forall (fun it => wf_item it = true) items.
Proof.
  intros (l & Hl & [->|(d & ls & p & -> & Hlen)]) Hlast; [exact Hl|].
  rewrite last_snoc in Hlast. simpl in Hlast. congruence.
Qed.

(** ** Shape, termination and errors of parseRecursive *)

Section Soundness.

Variable gb : JsProp -> option string.
Variable o : Options.
Variable f : nat.
Variable rec : list string -> Result Part.
Hypothesis Hrec : rec_ok f rec.

Lemma complete_open_ok (n : nat) (st : PState) :
  body_ok f n (parent_body st) ->
  match complete_open rec st with
  | Ok st' => wf_body (parent_body st') = true
  | Throw e _ => error_name e = "TypeError"
  | NoFuel => False
  end.
Proof.
  intros Hok. unfold complete_open, current_boundary.
  destruct (parent_body st) as [| |items] eqn:Hb; simpl; try reflexivity.
  - rewrite Hb. reflexivity.
  - rewrite Hb. reflexivity.
  - destruct (last items) as [it|] eqn:Hlast.
    + destruct (has_lines it) eqn:Hl.
      * destruct (body_ok_open _ _ _ _ Hok Hlast Hl)
          as (l & d & ls & p & -> & -> & Hwf & Hlen).
        unfold complete_current, complete.
        pose proof (Hrec ls ltac:(lia)) as Hr.
        destruct (rec ls) as [q|e q|]; [|exact Hr|exact Hr].
        unfold set_current_boundary. rewrite Hb. simpl.
        rewrite replace_last_snoc. apply wf_body_Forall.
        apply Forall_app. split; [exact Hwf|].
        apply Forall_singleton. exact Hr.
      * rewrite Hb. apply wf_body_Forall.
        apply (body_ok_closed _ _ _ Hok). rewrite Hlast. exact Hl.
    + rewrite Hb. apply wf_body_Forall.
      apply (body_ok_closed _ _ _ Hok). rewrite Hlast. exact I.
Qed.

(** A completed body is in order, whatever is left to read. *)
Lemma wf_body_ok (n : nat) (b : Body) : wf_body b = true -> body_ok f n b.
Proof.
  destruct b as [| |items]; simpl; auto.
  intros H. exists items. split; [|left; reflexivity].
  apply wf_body_Forall. exact H.
Qed.

Lemma step_marker_ok (line : string) (tl : list string) (st : PState) :
  length tl < f -> body_ok f (S (length tl)) (parent_body st) ->
  match step_marker rec line st with
  | Continue st' => body_ok f (length tl) (parent_body st')
  | Break st' => body_ok f 0 (parent_body st')
  | Raise e _ => error_name e = "TypeError"
  | Starve => False
  end.
Proof.
  intros Hlen Hok. unfold step_marker.
  pose proof (complete_open_ok (S (length tl)) (set_insideBoundary true st) Hok) as Hc.
  destruct (complete_open rec (set_insideBoundary true st)) as [st2|e st2|];
    [|exact Hc|exact Hc].
  destruct (Re.marker line) as [m|]; [|reflexivity].
  destruct (parent_body st2) as [| |items] eqn:Hb; try reflexivity.
  simpl. exists items. split; [apply wf_body_Forall; exact Hc|].
  right. exists m, [], None. split; [reflexivity | simpl; lia].
Qed.

Lemma step_inside_ok (prev : option string) (line : string)
    (tl : list string) (st : PState) :
  body_ok f (S (length tl)) (parent_body st) ->
  match step_inside rec prev line st with
  | Continue st' => body_ok f (length tl) (parent_body st')
  | Break st' => body_ok f 0 (parent_body st')
  | Raise e _ => error_name e = "TypeError"
  | Starve => False
  end.
Proof.
  intros Hok.
  assert (Hmono : body_ok f (length tl) (parent_body st))
    by (eapply body_ok_mono; [|exact Hok]; lia).
  unfold step_inside.
  destruct (current_boundary st) as [it|] eqn:Hcur.
  2:{ simpl. exact Hmono. }
  destruct (has_delimiter (Some it) && bool_decide (prev = Some "")
            && Js.starts_with ("--" +:+ findBoundary st +:+ "--") line).
  - destruct (has_lines it) eqn:Hl.
    + pose proof (complete_open_ok (S (length tl)) (set_insideBoundary false st) Hok) as Hc.
      unfold complete_open in Hc.
      change (current_boundary (set_insideBoundary false st))
        with (current_boundary st) in Hc.
      rewrite Hcur, Hl in Hc.
      destruct (complete_current rec it (set_insideBoundary false st))
        as [st2|e st2|]; [|exact Hc|exact Hc].
      apply wf_body_ok. exact Hc.
    + unfold complete_current, complete.
      destruct it as [s|d [ls|] p]; simpl in Hl; try discriminate; reflexivity.
  - destruct (has_delimiter (Some it)
              && Js.starts_with ("--" +:+ findBoundary st +:+ "--") line);
      [exact Hmono|].
    destruct it as [s|d [ls|] p]; try reflexivity.
    unfold current_boundary in Hcur.
    destruct (parent_body st) as [| |items] eqn:Hb; simpl in Hcur; try discriminate.
    destruct (body_ok_open _ _ _ _ Hok Hcur eq_refl)
      as (l & d' & ls' & p' & -> & Heq & Hwf & Hlen).
    injection Heq as <- <- <-.
    unfold set_current_boundary. rewrite Hb. simpl.
    rewrite replace_last_snoc. exists l. split; [exact Hwf|].
    right. exists d, (ls ++ [line]), p. split; [reflexivity|].
    rewrite length_app. simpl. lia.
Qed.

(** One iteration keeps the body in order. *)
Lemma step_ok (prev : option string) (line : string) (tl : list string)
    (st : PState) :
  length tl < f -> body_ok f (S (length tl)) (parent_body st) ->
  match step gb o rec prev line (line :: tl) st with
  | Continue st' => body_ok f (length tl) (parent_body st')
  | Break st' => body_ok f 0 (parent_body st')
  | Raise e _ => error_name e = "TypeError"
  | Starve => False
  end.
Proof.
  intros Hlen Hok.
  assert (Hmono : forall m, m <= S (length tl) -> body_ok f m (parent_body st))
    by (intros m Hm; eapply body_ok_mono; [exact Hm | exact Hok]).
  destruct (insideBody st) eqn:Hin.
  - unfold step. rewrite Hin. simpl negb. cbv iota.
    destruct (isMultipart st); [|exact I].
    destruct (Js.starts_with ("--" +:+ findBoundary st) line
              && negb (Js.starts_with ("--" +:+ findBoundary st +:+ "--") line)).
    + apply step_marker_ok; assumption.
    + destruct (insideBoundary st); [apply step_inside_ok; exact Hok|].
      apply Hmono. lia.
  - pose proof (step_header_mode gb o rec prev line (line :: tl) st Hin) as Hh.
    destruct (step gb o rec prev line (line :: tl) st) as [st'|st'|e st'|];
      try exact Hh.
    + destruct Hh as [-> | ->]; [apply Hmono; lia|].
      exists []. split; [constructor | left; reflexivity].
    + destruct Hh as [-> | ->]; [apply Hmono; lia|].
      exists []. split; [constructor | left; reflexivity].
Qed.

End Soundness.

(** With more fuel than lines, [parseRecursive] ends: with a part of the
    promised shape, or with a [TypeError]. *)
Lemma parseRecursive_sound (gb : JsProp -> option string) (o : Options) (f : nat) :
  rec_ok f (parseRecursive gb o f).
Proof.
  induction f as [|f IH]; intros lines Hlen; [lia|].
  simpl.
  pose proof (scan_invariant gb o (parseRecursive gb o f)
    (fun rest st => length rest <= f /\ body_ok f (length rest) (parent_body st))
    (fun st => body_ok f 0 (parent_body st))
    (fun e _ => error_name e = "TypeError") False) as Hscan.
  specialize (Hscan ltac:(
    intros prev line tl st [Hl Hok]; simpl in Hl;
    pose proof (step_ok gb o f _ IH prev line tl st ltac:(lia) Hok) as Hs;
    destruct (step gb o (parseRecursive gb o f) prev line (line :: tl) st);
    auto; split; [lia | exact Hs])).
  specialize (Hscan ltac:(intros st [_ Hok]; exact Hok)).
  specialize (Hscan lines None initial_state).
  specialize (Hscan ltac:(split; [lia | exact I])).
  destruct (scan gb o (parseRecursive gb o f) None lines initial_state)
    as [st|e st|]; [|exact Hscan|exact Hscan].
  unfold finish.
  pose proof (complete_open_ok f _ IH 0 st Hscan) as Hc.
  destruct (complete_open (parseRecursive gb o f) st) as [st'|e st'|];
    simpl; exact Hc.
Qed.

(** The [try] block of [parse] ends, with a tree of the promised shape or
    with an error. *)
Lemma parse_try_sound (gb : JsProp -> option string) (eml : option string)
    (o : Options) :
  match parse_try gb eml o with
  | Ok p => wf_part p = true
  | Throw e _ => error_truthy e = true
  | NoFuel => False
  end.
Proof.
  destruct eml as [text|]; unfold parse_try; [|reflexivity].
  pose proof (parseRecursive_sound gb o (S (length (Js.split_lines text)))
                (Js.split_lines text) ltac:(lia)) as H.
  destruct (parseRecursive gb o (S (length (Js.split_lines text)))
              (Js.split_lines text)) as [p|e p|]; try exact H.
  destruct e; [reflexivity | discriminate H].
Qed.

(** ** The callback *)

Lemma after_callback_value {A} (cb : option Callback) (error : option JsError)
    (out : Outcome A) (a : A) :
  after_callback cb error out = ReturnsValue a -> out = ReturnsValue a.
Proof.
  unfold after_callback. destruct cb as [f|]; [|auto].
  destruct (cb_throws f error); [discriminate | auto].
Qed.

Lemma after_callback_error {A} (cb : option Callback) (error : option JsError)
    (out : Outcome A) (e : JsError) :
  after_callback cb error out = ReturnsError e -> out = ReturnsError e.
Proof.
  unfold after_callback. destruct cb as [f|]; [|auto].
  destruct (cb_throws f error); [discriminate | auto].
Qed.

(** A callback that does not throw leaves the outcome as it is. *)
Lemma after_callback_quiet {A} (cb : option Callback) (error : option JsError)
    (out : Outcome A) :
  (forall f, cb = Some f -> never_throws f) -> after_callback cb error out = out.
Proof.
  intros H. unfold after_callback. destruct cb as [f|]; [|reflexivity].
  now rewrite (H f eq_refl error).
Qed.

Lemma quiet_callback (options : OptionsArg) (callback : option Callback) :
  callbacks_return options callback ->
  forall f, shift_callback options callback = Some f -> never_throws f.
Proof.
  intros [Hc Ho] f. destruct options as [| | |g], callback as [c|];
    cbn [shift_callback]; intros [= <-]; eauto.
Qed.

(** The callback that [read] lets [parse] see. *)
Lemma quiet_parse_callback (options : OptionsArg) (callback : option Callback) :
  callbacks_return options callback ->
  forall f, shift_callback (shift_options options callback) None = Some f ->
            never_throws f.
Proof.
  intros [Hc Ho] f. destruct options as [| | |g], callback as [c|];
    cbn [shift_callback shift_options]; intros [= <-]; eauto.
Qed.

(** An error caught by [parse] is an object, which is what is returned. *)
Lemma returned_error {A} (e : JsError) (x : option A) :
  error_truthy e = true -> returned (Some e) x = ReturnsError e.
Proof. intros H. unfold returned. now rewrite H. Qed.

(** When [parse] returns a tree, its [try] block has ended with that tree;
    when it returns an error, the block has thrown it. *)
Lemma parse_value (gb : JsProp -> option string) (eml : option string)
    (options : OptionsArg) (callback : option Callback) (p : Part) :
  fst (parse gb eml options callback) = ReturnsValue p ->
  parse_try gb eml (parse_options options callback) = Ok p.
Proof.
  unfold parse.
  pose proof (parse_try_sound gb eml (parse_options options callback)) as H.
  destruct (parse_try gb eml (parse_options options callback)) as [q|e q|];
    cbn [fst]; intros Hv.
  - apply after_callback_value in Hv. injection Hv as <-. reflexivity.
  - apply after_callback_value in Hv. rewrite (returned_error _ _ H) in Hv.
    discriminate Hv.
  - discriminate Hv.
Qed.

Lemma parse_error (gb : JsProp -> option string) (eml : option string)
    (options : OptionsArg) (callback : option Callback) (e : JsError) :
  fst (parse gb eml options callback) = ReturnsError e ->
  exists q, parse_try gb eml (parse_options options callback) = Throw e q.
Proof.
  unfold parse.
  pose proof (parse_try_sound gb eml (parse_options options callback)) as H.
  destruct (parse_try gb eml (parse_options options callback)) as [q|e' q|];
    cbn [fst]; intros Hv.
  - apply after_callback_error in Hv. discriminate Hv.
  - apply after_callback_error in Hv. rewrite (returned_error _ _ H) in Hv.
    injection Hv as ->. eauto.
  - discriminate Hv.
Qed.

(** ** C7: the shape of the tree *)

(** C7. Every tree returned by [parse] has the promised shape at every
    depth: the body of each part in it is unset, a string, or an array whose
    elements are all boundary records, each resolved into a part of the same
    shape; no array mixes strings with boundary records. *)
Theorem parse_tree_shape (gb : JsProp -> option string) (eml : option string)
    (options : OptionsArg) (callback : option Callback) (p : Part) :
  fst (parse gb eml options callback) = ReturnsValue p -> wf_part p = true.
Proof.
  intros Hv. apply parse_value in Hv.
  pose proof (parse_try_sound gb eml (parse_options options callback)) as H.
  rewrite Hv in H. exact H.
Qed.

Lemma parse_tree_shape_witness :
  fst (parse Sample.getBoundary (Some Ex.nested) OptUndefined None)
    = ReturnsValue Ex.nested_tree
  /\ wf_part Ex.nested_tree = true.
Proof.
  assert (H : fst (parse Sample.getBoundary (Some Ex.nested) OptUndefined None)
              = ReturnsValue Ex.nested_tree) by (vm_compute; reflexivity).
  split; [exact H|].
  exact (parse_tree_shape _ _ _ _ _ H).
Defined.

(** ** C2: the public functions call the callback, and return *)

(** [parse] calls the callback in effect once, with the error it caught or
    with none and with [result]; unless the callback throws, it then
    returns that error or the tree. *)
Lemma parse_returns (gb : JsProp -> option string) (eml : option string)
    (options : OptionsArg) (callback : option Callback) :
  exists (error : option JsError) (result : Part),
    parse gb eml options callback =
      (after_callback (shift_callback options callback) error
         match error with
         | Some e => ReturnsError e
         | None => ReturnsValue result
         end,
       match shift_callback options callback with
       | Some f => [MkCall f error result]
       | None => []
       end).
Proof.
  unfold parse.
  pose proof (parse_try_sound gb eml (parse_options options callback)) as H.
  destruct (parse_try gb eml (parse_options options callback)) as [q|e q|].
  - exists None, q. reflexivity.
  - exists (Some e), q. rewrite (returned_error _ _ H). reflexivity.
  - destruct H.
Qed.

Section ReadFacts.

Context {collab : Collaborators}.

(** When [read] returns a result for a parsed tree, [_read] has produced
    it. *)
Lemma read_object_value (data : option Part) (options : OptionsArg)
    (callback : option Callback) (r : Readed) :
  fst (read (EmlObject data) options callback) = ReturnsValue r ->
  _read data = inr r.
Proof.
  unfold read. cbn [fst]. intros Hv. apply after_callback_value in Hv.
  destruct (_read data) as [e|v]; cbn [returned] in Hv.
  - unfold returned in Hv. destruct (error_truthy e); discriminate Hv.
  - injection Hv as <-. reflexivity.
Qed.

(** When [read] returns a result for a text, [parse] has returned a tree
    for it and [_read] has produced the result from that tree. *)
Lemma read_string_value (s : string) (options : OptionsArg)
    (callback : option Callback) (r : Readed) :
  fst (read (EmlString s) options callback) = ReturnsValue r ->
  exists p,
    fst (parse getBoundary (Some s) (shift_options options callback) None)
      = ReturnsValue p /\
    _read (Some p) = inr r.
Proof.
  unfold read.
  destruct (parse getBoundary (Some s) (shift_options options callback) None)
    as [[e|p|e|] calls]; cbn [fst]; intros Hv; try discriminate Hv.
  - apply after_callback_value in Hv. unfold returned in Hv.
    destruct (error_truthy e); discriminate Hv.
  - apply after_callback_value in Hv. exists p. split; [reflexivity|].
    destruct (_read (Some p)) as [e|v]; cbn [returned] in Hv.
    + unfold returned in Hv. destruct (error_truthy e); discriminate Hv.
    + injection Hv as <-. reflexivity.
Qed.

(** Unless a function is passed as [options] next to a [callback], [read]
    calls the callback in effect once, with the error and the result from
    which the returned value is taken; unless the callback throws, [read]
    then returns that value. *)
Lemma read_returns (eml : EmlArg) (options : OptionsArg)
    (callback : option Callback) :
  (forall g, options = OptFunction g -> callback = None) ->
  exists (error : option JsError) (result : option Readed),
    read eml options callback =
      (after_callback (shift_callback options callback) error
         (returned error result),
       match shift_callback options callback with
       | Some f => [ByRead (MkCall f error result)]
       | None => []
       end)
    /\ (error = None <-> is_Some result).
Proof.
  intros Hopt. unfold read.
  set (options' := shift_options options callback).
  assert (Hsh : shift_callback options' None = None).
  { subst options'. destruct options as [| | |g]; try reflexivity.
    rewrite (Hopt g eq_refl). reflexivity. }
  destruct eml as [s|data|].
  - destruct (parse_returns getBoundary (Some s) options' None)
      as (error & p & ->). rewrite Hsh. cbn [after_callback].
    destruct error as [e|]; cbn [map app].
    + exists (Some e), None. split; [reflexivity|].
      split; [discriminate | intros [? [=]]].
    + destruct (_read (Some p)) as [e|r].
      * exists (Some e), None. split; [reflexivity|].
        split; [discriminate | intros [? [=]]].
      * exists None, (Some r). split; [reflexivity|]. split; eauto.
  - cbn [app]. destruct (_read data) as [e|r].
    + exists (Some e), None. split; [reflexivity|].
      split; [discriminate | intros [? [=]]].
    + exists None, (Some r). split; [reflexivity|]. split; eauto.
  - cbn [app]. exists (Some (new_Error "Missing EML file content!")), None.
    split; [reflexivity|]. split; [discriminate | intros [? [=]]].
Qed.

(** C2. The code at the input [read(eml, f, f)] with a string [eml] and a
    callback [f] that does not throw: [read] hands its [options] to
    [parse], which takes a function there for its own callback, so [f] is
    called twice, first by [parse] with the parsed tree, then by [read]. *)
Theorem read_calls_twice (s : string) (f : Callback) :
  never_throws f ->
  map read_callee (snd (read (EmlString s) (OptFunction f) (Some f))) = [f; f].
Proof.
  intros Hf. unfold read, shift_options.
  destruct (parse_returns getBoundary (Some s) (OptFunction f) None)
    as (error & p & ->).
  cbn [shift_callback after_callback]. rewrite (Hf error).
  destruct error as [e|]; cbn [snd map app read_callee callee]; [reflexivity|].
  destruct (_read (Some p)); reflexivity.
Qed.

End ReadFacts.

Lemma read_calls_twice_witness :
  map read_callee (snd (read (EmlString Ex.plain) (OptFunction (quiet 7))
                             (Some (quiet 7))))
    = [quiet 7; quiet 7].
Proof.
  apply (read_calls_twice Ex.plain (quiet 7)). intros error. reflexivity.
Defined.

(** ** C5: a boundary line whose marker does not parse *)

(** C5, as stated, fails: the error returned for a boundary-start line whose
    marker does not parse is the [TypeError] of reading group 1 of a failed
    match; the code has no error named MalformedBoundaryMarker. *)
Lemma marker_error_is_not_named :
  fst (parse Sample.getBoundary (Some Ex.stray_cr) OptUndefined None)
    = ReturnsError (null_deref "null (reading '1')")
  /\ error_name (null_deref "null (reading '1')") <> "MalformedBoundaryMarker".
Proof. split; [vm_compute; reflexivity | discriminate]. Qed.

(** C5, amended. When the line scan of [parse], in multipart mode, reaches a
    line that begins with the boundary marker, is not the closing marker,
    and whose marker token does not parse, [parse] ends with an error, which
    is a [TypeError]: it hands the error to the callback in effect and
    returns it, and no tree (only an exception thrown by the callback itself
    keeps [parse] from returning). *)
Theorem parse_marker_failure (gb : JsProp -> option string) (text : string)
    (options : OptionsArg) (callback : option Callback)
    (prev : option string) (line : string) (tl : list string) (st : PState) :
  let lines := Js.split_lines text in
  let o := parse_options options callback in
  Reaches gb o (parseRecursive gb o (length lines))
          None lines initial_state prev (line :: tl) st ->
  insideBody st = true -> isMultipart st = true ->
  Js.starts_with ("--" +:+ findBoundary st) line = true ->
  Js.starts_with ("--" +:+ findBoundary st +:+ "--") line = false ->
  Re.marker line = None ->
  exists e,
    fst (parse gb (Some text) options callback)
      = after_callback (shift_callback options callback) (Some e) (ReturnsError e)
    /\ error_name e = "TypeError".
Proof.
  intros lines o Hreach Hin Hmp Hstart Hclose Hmark.
  unfold parse, parse_try. fold lines. fold o.
  pose proof (parseRecursive_sound gb o (S (length lines)) lines ltac:(lia)) as Hs.
  assert (Hscan : match scan gb o (parseRecursive gb o (length lines))
                          None lines initial_state with
                  | Ok _ => False
                  | _ => True
                  end).
  { rewrite (scan_reaches _ _ _ _ _ _ _ _ _ Hreach). simpl.
    unfold step. rewrite Hin, Hmp, Hstart, Hclose. simpl.
    unfold step_marker. rewrite Hmark.
    destruct (complete_open _ _); exact I. }
  cbn [parseRecursive] in Hs |- *.
  destruct (scan gb o (parseRecursive gb o (length lines)) None lines initial_state)
    as [st'|e st'|]; [destruct Hscan| |destruct Hs].
  simpl in Hs. cbn [to_part fst]. exists e.
  destruct e as [n m|m]; [|discriminate Hs]. auto.
Qed.

Lemma parse_marker_failure_witness :
  exists e, fst (parse Sample.getBoundary (Some Ex.stray_cr) OptUndefined None)
              = ReturnsError e
            /\ error_name e = "TypeError".
Proof.
  eapply (parse_marker_failure Sample.getBoundary Ex.stray_cr OptUndefined None
            (Some "") Ex.stray_cr_line).
  - eapply reaches_step; [vm_compute; reflexivity|].
    eapply reaches_step; [vm_compute; reflexivity|].
    apply reaches_here.
  - reflexivity.
  - reflexivity.
  - vm_compute; reflexivity.
  - vm_compute; reflexivity.
  - vm_compute; reflexivity.
Defined.

(** ** Strings and the line literals *)

Lemma starts_with_inv (p s : string) :
  Js.starts_with p s = true -> exists r, s = p +:+ r.
Proof.
  revert s. induction p as [|c p IH]; intros s H.
  - exists s. reflexivity.
  - destruct s as [|d s]; [discriminate H|].
    unfold Js.starts_with in *. simpl in H.
    destruct (ascii_dec c d) as [->|]; [|discriminate H].
    destruct (IH s H) as [r ->]. exists r. reflexivity.
Qed.

Lemma starts_with_app (p r : string) : Js.starts_with p (p +:+ r) = true.
Proof.
  induction p as [|c p IH]; [destruct r; reflexivity|].
  unfold Js.starts_with in *. simpl.
  destruct (ascii_dec c c); [exact IH | congruence].
Qed.

Lemma take_while_all (p : ascii -> bool) (s : string) :
  Js.all_chars p s = true -> Js.take_while p s = s /\ Js.drop_while p s = "".
Proof.
  induction s as [|c s IH]; [auto|]. simpl.
  destruct (p c); [|discriminate]. simpl. intros H.
  destruct (IH H) as [-> ->]. auto.
Qed.

Lemma take_drop_app (p : ascii -> bool) (a b : string) :
  Js.all_chars p a = true -> Js.head_fails p b = true ->
  Js.take_while p (a +:+ b) = a /\ Js.drop_while p (a +:+ b) = b.
Proof.
  intros Ha Hb. induction a as [|c a IH].
  - destruct b as [|d b]; [auto|]. simpl in *.
    destruct (p d); [discriminate Hb | auto].
  - simpl in Ha. apply andb_true_iff in Ha as [Hc Ha].
    destruct (IH Ha) as [IH1 IH2].
    change (String c a +:+ b) with (String c (a +:+ b)). simpl.
    rewrite Hc, IH1, IH2. auto.
Qed.

Lemma code_eq (c : ascii) (n : N) :
  (n < 256)%N -> (Js.code c =? n)%N = true -> c = ascii_of_N n.
Proof.
  intros Hn H. apply N.eqb_eq in H. unfold Js.code in H.
  rewrite <- H. symmetry. apply ascii_N_embedding.
Qed.

Lemma drop_while_head (p : ascii -> bool) (s : string) (c : ascii) (r : string) :
  Js.drop_while p s = String c r -> p c = false.
Proof.
  induction s as [|d s IH]; [discriminate|]. cbn [Js.drop_while].
  destruct (p d) eqn:Hd; [exact IH|]. intros [= -> _]. exact Hd.
Qed.

Lemma take_while_chars (p : ascii -> bool) (s : string) :
  Js.all_chars p (Js.take_while p s) = true.
Proof.
  induction s as [|c s IH]; [reflexivity|]. cbn [Js.take_while].
  destruct (p c) eqn:Hc; [|reflexivity]. cbn [Js.all_chars]. now rewrite Hc.
Qed.

Lemma append_nil_r (s : string) : s +:+ "" = s.
Proof.
  induction s as [|c s IH]; [reflexivity|].
  change (String c s +:+ "") with (String c (s +:+ "")). now rewrite IH.
Qed.

Lemma all_chars_app (p : ascii -> bool) (a b : string) :
  Js.all_chars p (a +:+ b) = Js.all_chars p a && Js.all_chars p b.
Proof.
  induction a as [|c a IH]; [reflexivity|]. simpl. rewrite IH.
  apply andb_assoc.
Qed.

(** A line that begins with two dashes and more, and holds no CR and no LF,
    is matched by the marker literal; group 1 is what follows the dashes. *)
Lemma marker_plain (fb rest : string) :
  fb <> "" -> Js.all_chars Js.not_crlf (fb +:+ rest) = true ->
  Re.marker ("--" +:+ fb +:+ rest) = Some (fb +:+ rest).
Proof.
  intros Hne Hall.
  change ("--" +:+ fb +:+ rest) with (String "-" (String "-" (fb +:+ rest))).
  unfold Re.marker.
  change ((Js.code "-" =? 45)%N) with true. cbv beta iota. simpl andb. cbv iota.
  destruct (take_while_all _ _ Hall) as [-> ->].
  destruct fb as [|c fb]; [congruence|]. reflexivity.
Qed.

(** ** The states the loop can be in *)

Section Reachable.

Variable gb : JsProp -> option string.
Variable o : Options.
Variable rec : list string -> Result Part.

Lemma reaches_invariant (Inv : PState -> Prop) :
  (forall prev line rest st st', Inv st ->
     step gb o rec prev line rest st = Continue st' -> Inv st') ->
  forall prev rest st prev' rest' st',
    Reaches gb o rec prev rest st prev' rest' st' -> Inv st -> Inv st'.
Proof.
  intros Hstep prev rest st prev' rest' st' H.
  induction H as [|prev line tl st st1 prev' rest' st' Hs _ IH]; [auto|].
  intros HI. apply IH. eapply Hstep; eauto.
Qed.

Lemma complete_current_frame (it : Item) (st st' : PState) :
  complete_current rec it st = Ok st' ->
  exists x, st' = set_current_boundary x st.
Proof.
  unfold complete_current. destruct (complete rec it) as [x|e x|]; try discriminate.
  intros [= <-]. eauto.
Qed.

Lemma complete_open_frame (st st' : PState) :
  complete_open rec st = Ok st' ->
  st' = st \/ exists x, st' = set_current_boundary x st.
Proof.
  unfold complete_open. destruct (current_boundary st) as [it|]; [|intros [= <-]; auto].
  destruct (has_lines it); [|intros [= <-]; auto].
  intros H. right. eapply complete_current_frame; eauto.
Qed.

(** In the body a step changes nothing but the body and [insideBoundary],
    and in multipart mode the body stays an array. *)
Lemma step_body_frame prev line rest st st' :
  insideBody st = true ->
  step gb o rec prev line rest st = Continue st' ->
  parent_headers st' = parent_headers st /\
  lastHeaderName st' = lastHeaderName st /\
  isMultiHeader st' = isMultiHeader st /\
  isMultipart st' = isMultipart st /\
  findBoundary st' = findBoundary st /\
  insideBody st' = true /\
  ((exists items, parent_body st = BArr items) ->
   exists items, parent_body st' = BArr items).
Proof.
  intros Hin. unfold step. rewrite Hin. simpl negb. cbv iota.
  destruct (isMultipart st) eqn:Hmp; [|discriminate].
  destruct (_ && _).
  - unfold step_marker.
    destruct (complete_open rec (set_insideBoundary true st)) as [st2|e st2|] eqn:Hc;
      try discriminate.
    destruct (Re.marker line); [|discriminate].
    destruct (parent_body st2) eqn:Hb; try discriminate.
    intros [= <-]. simpl.
    apply complete_open_frame in Hc as [->|[x ->]]; simpl; eauto 10.
  - destruct (insideBoundary st); [|intros [= <-]; auto 10].
    unfold step_inside. repeat case_match; try discriminate; intros [= <-]; simpl;
      eauto 10.
    match goal with H : complete_current _ _ _ = Ok _ |- _ =>
      apply complete_current_frame in H as [x ->] end.
    simpl. eauto 10.
Qed.

Lemma set_prop_ne (h : Headers) (k : string) (v : HeaderValue) :
  k <> "__proto__" -> set_prop h k v = <[k := v]> h.
Proof.
  intros Hk. unfold set_prop.
  destruct (String.eqb k "__proto__") eqn:E; [|reflexivity].
  apply String.eqb_eq in E. contradiction.
Qed.

Lemma get_prop_proto (h : Headers) :
  h !! "__proto__" = None -> get_prop h "__proto__" = PInherited.
Proof. intros H. unfold get_prop. rewrite H. reflexivity. Qed.

(** A name whose value reads as a string, as an array or as nothing is not
    [__proto__]. *)
Lemma own_name_ne (h : Headers) (k : string) :
  h !! "__proto__" = None -> get_prop h k <> PInherited -> k <> "__proto__".
Proof. intros H Hk ->. apply Hk. apply get_prop_proto. exact H. Qed.

Lemma get_prop_arr (h : Headers) (k : string) (l : list string) :
  get_prop h k = PArr l <-> h !! k = Some (HArr l).
Proof.
  unfold get_prop. destruct (h !! k) as [[s|l']|]; split; intros H;
    try discriminate; try congruence.
  destruct (is_inherited k); discriminate.
Qed.

Lemma get_prop_str (h : Headers) (k s : string) :
  get_prop h k = PStr s <-> h !! k = Some (HStr s).
Proof.
  unfold get_prop. destruct (h !! k) as [[s'|l']|]; split; intros H;
    try discriminate; try congruence.
  destruct (is_inherited k); discriminate.
Qed.

Ltac sane_frame Hmp :=
  repeat split; try (intros; apply Hmp; assumption); try assumption.

Lemma step_continuation_sane (m : string) (st st' : PState) :
  sane st -> step_continuation m st = Continue st' -> sane st'.
Proof.
  intros (Hmp & Hproto & Hlast & Hmulti). unfold step_continuation.
  destruct (isMultiHeader st) eqn:Hm.
  - destruct Hmulti as (l & x & Hlk).
    apply get_prop_arr in Hlk as Hg. rewrite Hg, last_snoc.
    intros [= <-]. unfold sane. simpl. rewrite Hm, (set_prop_ne _ _ _ Hlast).
    sane_frame Hmp.
    + rewrite lookup_insert_ne; auto.
    + rewrite removelast_last, lookup_insert_eq. eauto.
  - intros [= <-]. unfold sane. simpl. rewrite Hm, (set_prop_ne _ _ _ Hlast).
    sane_frame Hmp.
    + rewrite lookup_insert_ne; auto.
    + intros l. rewrite lookup_insert_eq. discriminate.
Qed.

Lemma step_header_sane (name value : string) (st st' : PState) :
  sane st -> step_header name value st = Continue st' -> sane st'.
Proof.
  intros (Hmp & Hproto & Hlast & Hmulti). unfold step_header.
  assert (Hne : get_prop (parent_headers st) name <> PInherited -> name <> "__proto__")
    by (apply own_name_ne; exact Hproto).
  destruct (get_prop (parent_headers st) name) as [|s|l|] eqn:Hg; simpl;
    [ | destruct (Js.is_empty s); simpl | | discriminate ];
    (assert (Hn : name <> "__proto__") by (apply Hne; discriminate));
    intros [= <-]; unfold sane; simpl; rewrite (set_prop_ne _ _ _ Hn);
    sane_frame Hmp;
    try (rewrite lookup_insert_ne; [assumption | exact Hn]);
    try (intros ?; rewrite lookup_insert_eq; discriminate);
    rewrite lookup_insert_eq.
  - exists [s], value. reflexivity.
  - eauto.
Qed.

Lemma step_blank_sane (rest : list string) (st st' : PState) :
  sane st -> step_blank gb o rest st = Continue st' -> sane st'.
Proof.
  intros Hs. unfold step_blank.
  repeat case_match; try discriminate; intros [= <-];
    destruct Hs as (Hmp & Hproto & Hlast & Hmulti); unfold sane; simpl;
    sane_frame Hmp; eauto.
  intros ->. discriminate.
Qed.

(** Every iteration keeps the state in order. *)
Lemma step_sane prev line rest st st' :
  sane st -> step gb o rec prev line rest st = Continue st' -> sane st'.
Proof.
  intros Hs. destruct (insideBody st) eqn:Hin.
  - intros Hstep. destruct (step_body_frame _ _ _ _ _ Hin Hstep)
      as (Hh & Hl & Hm & Hmp & Hfb & _ & Hb).
    destruct Hs as (Hs1 & Hs2 & Hs3 & Hs4).
    unfold sane. rewrite Hh, Hl, Hm, Hmp, Hfb.
    split; [|auto]. intros Hx. destruct (Hs1 Hx). auto.
  - unfold step. rewrite Hin. simpl negb. cbv iota.
    destruct (Js.is_empty line); [apply step_blank_sane; exact Hs|].
    destruct (Re.continuation line); [apply step_continuation_sane; exact Hs|].
    destruct (Re.header line) as [[name value]|];
      [apply step_header_sane; exact Hs|].
    intros [= <-]. exact Hs.
Qed.

Lemma initial_sane : sane initial_state.
Proof.
  unfold sane. simpl. repeat split; discriminate.
Qed.

(** Every state reached from the initial one is in order. *)
Lemma reachable_sane prev rest st prev' rest' st' :
  Reaches gb o rec prev rest st prev' rest' st' -> sane st -> sane st'.
Proof.
  apply reaches_invariant. intros. eapply step_sane; eauto.
Qed.

End Reachable.

(** ** C3: a boundary marker needs no blank line before it *)

Lemma append_assoc (a b c : string) : (a +:+ b) +:+ c = a +:+ (b +:+ c).
Proof.
  induction a as [|x a IH]; [reflexivity|].
  change (String x ((a +:+ b) +:+ c) = String x (a +:+ (b +:+ c))).
  f_equal. exact IH.
Qed.

(** C3, as stated, fails on its own example: with no blank line after the
    headers the scan is still in the header section, where the marker line
    is passed over, [X: y] becomes a header of the root, and the body ends
    up with no part at all. *)
Lemma lenient_example_has_no_part :
  fst (parse Sample.getBoundary (Some Ex.no_blank) OptUndefined None)
    = ReturnsValue Ex.no_blank_tree.
Proof. vm_compute. reflexivity. Qed.

Section MarkerLine.

Variable gb : JsProp -> option string.
Variable o : Options.
Variable f : nat.

(** The lines left to read are never more than at the start. *)
Lemma reaches_length (rec : list string -> Result Part) prev rest st prev' rest' st' :
  Reaches gb o rec prev rest st prev' rest' st' -> length rest' <= length rest.
Proof.
  induction 1 as [|prev line tl st st1 prev' rest' st' _ _ IH]; [lia|].
  cbn [length]. lia.
Qed.

(** The body stays in order along the loop. *)
Lemma reaches_body_ok (rec : list string -> Result Part) :
  rec_ok f rec ->
  forall prev rest st prev' rest' st',
    Reaches gb o rec prev rest st prev' rest' st' ->
    length rest <= f -> body_ok f (length rest) (parent_body st) ->
    body_ok f (length rest') (parent_body st').
Proof.
  intros Hrec prev rest st prev' rest' st' H.
  induction H as [|prev line tl st st1 prev' rest' st' Hs _ IH]; [auto|].
  cbn [length]. intros Hlen Hok. apply IH; [lia|].
  pose proof (step_ok gb o f rec Hrec prev line tl st ltac:(lia) Hok) as Hstep.
  rewrite Hs in Hstep. exact Hstep.
Qed.

End MarkerLine.

(** C3, amended. Once the blank line has ended the header section of a
    multipart message, a line that begins with the boundary marker, is not
    the closing marker and holds no stray CR starts a new boundary whatever
    the line before it is. The boundary still open at that point, if there
    is one, is resolved first from the lines collected for it; the new
    element, named by the text after the two dashes and with no lines yet,
    then follows it at the end of the body. Only when resolving the open
    boundary throws is no boundary started: the scan ends with that error,
    a [TypeError]. With as much fuel as there are lines the recursion bound
    is not met. *)
Theorem marker_needs_no_blank_line (gb : JsProp -> option string) (o : Options)
    (f : nat) (lines : list string)
    (prev : option string) (line : string) (tl : list string) (st : PState) :
  length lines <= f ->
  Reaches gb o (parseRecursive gb o f) None lines initial_state prev (line :: tl) st ->
  insideBody st = true -> isMultipart st = true ->
  Js.starts_with ("--" +:+ findBoundary st) line = true ->
  Js.starts_with ("--" +:+ findBoundary st +:+ "--") line = false ->
  Js.all_chars Js.not_crlf line = true ->
  let rec := parseRecursive gb o f in
  let new := IBoundary (Js.drop 2 line) (Some []) None in
  exists items, parent_body st = BArr items /\
  match last items with
  | Some (IBoundary d (Some ls) p0) =>
      match rec ls with
      | Ok p =>
          exists st',
            step gb o rec prev line (line :: tl) st = Continue st' /\
            insideBoundary st' = true /\
            parent_body st'
              = BArr (removelast items ++ [IBoundary d None (Some p); new])
      | Throw e _ =>
          exists st',
            step gb o rec prev line (line :: tl) st = Raise e st' /\
            parseRecursive gb o (S f) lines = Throw e (state_part st') /\
            error_name e = "TypeError"
      | NoFuel => False
      end
  | _ =>
      exists st',
        step gb o rec prev line (line :: tl) st = Continue st' /\
        insideBoundary st' = true /\
        parent_body st' = BArr (items ++ [new])
  end.
Proof.
  intros Hlen Hreach Hin Hmp Hstart Hclose Hall rec new.
  pose proof (reachable_sane _ _ _ _ _ _ _ _ _ Hreach initial_sane) as Hsane.
  destruct Hsane as (Hs & _). destruct (Hs Hmp) as ([items Hb] & Hfb).
  exists items. split; [exact Hb|].
  pose proof (reaches_length gb o _ _ _ _ _ _ _ Hreach) as Hle.
  cbn [length] in Hle.
  pose proof (reaches_body_ok gb o f rec (parseRecursive_sound gb o f)
                _ _ _ _ _ _ Hreach Hlen I) as Hok.
  destruct (starts_with_inv _ _ Hstart) as [r Hline].
  rewrite append_assoc in Hline.
  assert (Hall' : Js.all_chars Js.not_crlf (findBoundary st +:+ r) = true).
  { rewrite Hline in Hall. simpl in Hall. exact Hall. }
  assert (Hmark : Re.marker line = Some (Js.drop 2 line)).
  { rewrite Hline, (marker_plain _ _ Hfb Hall'). reflexivity. }
  assert (Hstep : step gb o rec prev line (line :: tl) st = step_marker rec line st).
  { unfold step. rewrite Hin, Hmp, Hstart, Hclose. reflexivity. }
  rewrite Hstep. unfold step_marker, complete_open, current_boundary.
  cbn [set_insideBoundary parent_body]. rewrite Hb. cbn [body_items].
  destruct (last items) as [[s|d [ls|] p0]|] eqn:Hlast; cbn [has_lines].
  - rewrite Hmark. cbn [set_insideBoundary parent_body]. rewrite Hb.
    eexists. split; [reflexivity|]. split; reflexivity.
  - rewrite Hb in Hok.
    destruct (body_ok_open _ _ _ _ Hok Hlast eq_refl)
      as (l & d' & ls' & p' & -> & Heq & _ & Hl).
    injection Heq as <- <- <-.
    unfold complete_current, complete.
    pose proof (parseRecursive_sound gb o f ls ltac:(cbn [length] in Hl; lia)) as Hr.
    fold rec in Hr. destruct (rec ls) as [p|e p|] eqn:Hrec; [| |exact Hr].
    + rewrite Hmark. unfold set_current_boundary.
      cbn [set_insideBoundary parent_body set_body]. rewrite Hb.
      cbn [body_items]. rewrite replace_last_snoc, removelast_last.
      eexists. split; [reflexivity|]. split; [reflexivity|].
      cbn [parent_body set_body]. rewrite <- app_assoc. reflexivity.
    + eexists. split; [reflexivity|]. split; [|exact Hr].
      subst rec. cbn [parseRecursive].
      rewrite (scan_reaches _ _ _ _ _ _ _ _ _ Hreach). cbn [scan].
      rewrite Hstep. unfold step_marker, complete_open, current_boundary.
      cbn [set_insideBoundary parent_body]. rewrite Hb. cbn [body_items].
      rewrite last_snoc. cbn [has_lines]. unfold complete_current, complete.
      rewrite Hrec. reflexivity.
  - rewrite Hmark. cbn [set_insideBoundary parent_body]. rewrite Hb.
    eexists. split; [reflexivity|]. split; reflexivity.
  - rewrite Hmark. cbn [set_insideBoundary parent_body]. rewrite Hb.
    eexists. split; [reflexivity|]. split; reflexivity.
Qed.

Lemma marker_needs_no_blank_line_witness :
  exists st',
    step Sample.getBoundary (Some false)
         (parseRecursive Sample.getBoundary (Some false) 12)
         (Some "one") "--B" ("--B" :: ["X: z"; ""; "two"; ""; "--B--"])
         Ex.before_second_marker = Continue st' /\
    insideBoundary st' = true /\
    parent_body st'
      = BArr [IBoundary "B" None
                (Some (MkPart (Some {[ "X" := HStr "y" ]}) (BStr "one")));
              IBoundary "B" (Some []) None].
Proof.
  destruct (marker_needs_no_blank_line Sample.getBoundary (Some false) 12
              Ex.second_marker_lines (Some "one") "--B"
              ["X: z"; ""; "two"; ""; "--B--"] Ex.before_second_marker)
    as (items & Hb & H).
  - vm_compute. lia.
  - do 6 (eapply reaches_step; [vm_compute; reflexivity|]).
    apply reaches_here.
  - reflexivity.
  - reflexivity.
  - vm_compute; reflexivity.
  - vm_compute; reflexivity.
  - vm_compute; reflexivity.
  - injection Hb as <-. cbn [last] in H.
    assert (Hr : parseRecursive Sample.getBoundary (Some false) 12
                   ["X: y"; ""; "one"]
                 = Ok (MkPart (Some {[ "X" := HStr "y" ]}) (BStr "one")))
      by (vm_compute; reflexivity).
    rewrite Hr in H. exact H.
Defined.

(** When the part open before the marker cannot be resolved, the marker
    starts no part: [parse] returns the error. *)
Lemma marker_after_failing_part :
  fst (parse Sample.getBoundary (Some Ex.failing_part) OptUndefined None)
    = ReturnsError (not_a_function "parent.headers[lastHeaderName].push").
Proof. vm_compute. reflexivity. Qed.

(** ** C9: header values without encoded-words *)

Lemma take_drop_while (p : ascii -> bool) (s : string) :
  Js.take_while p s +:+ Js.drop_while p s = s.
Proof.
  induction s as [|c s IH]; [reflexivity|]. cbn [Js.take_while Js.drop_while].
  destruct (p c); [|reflexivity].
  change (String c (Js.take_while p s) +:+ Js.drop_while p s)
    with (String c (Js.take_while p s +:+ Js.drop_while p s)).
  now rewrite IH.
Qed.

Lemma starts_with_drop (p s : string) :
  Js.starts_with p s = true -> s = p +:+ Js.drop (String.length p) s.
Proof.
  revert s. induction p as [|c p IH]; intros s H; [reflexivity|].
  destruct s as [|d s]; [discriminate H|].
  unfold Js.starts_with in *. cbn [String.prefix] in H.
  destruct (ascii_dec c d) as [->|]; [|discriminate H].
  cbn [String.length Js.drop].
  change (String d p +:+ Js.drop (String.length p) s)
    with (String d (p +:+ Js.drop (String.length p) s)).
  now rewrite <- (IH s H).
Qed.

(** A payload that the literal takes is followed by [?=], is not empty and
    holds no line terminator. *)
Lemma payload_sound (s p rest : string) :
  Word.payload s = Some (p, rest) ->
  s = p +:+ "?=" +:+ rest /\ p <> "" /\ Js.all_chars Js.is_dot p = true.
Proof.
  revert p rest. induction s as [|c r IH]; intros p rest; [discriminate|].
  cbn [Word.payload]. destruct (Js.is_dot c) eqn:Hc; [|discriminate].
  destruct (Js.starts_with "?=" r) eqn:Hs.
  - intros [= <- <-]. split; [|split; [discriminate|cbn; now rewrite Hc]].
    change (String c "" +:+ "?=" +:+ Js.drop 2 r)
      with (String c ("?=" +:+ Js.drop 2 r)).
    f_equal. exact (starts_with_drop "?=" r Hs).
  - destruct (Word.payload r) as [[p' rest']|]; [|discriminate].
    intros [= <- <-]. destruct (IH p' rest' eq_refl) as (-> & _ & Hall).
    split; [reflexivity|]. split; [discriminate|].
    cbn [Js.all_chars]. now rewrite Hc, Hall.
Qed.

Lemma is_qmark_eq (c : ascii) : Word.is_qmark c = true -> c = "?"%char.
Proof. intros H. apply (code_eq c 63) in H; [exact H | reflexivity]. Qed.

Lemma encoded_word_app (cs : string) (t : ascii) (p rest : string) :
  encoded_word cs t p +:+ rest
    = "=?" +:+ (cs +:+ String "?" (String t (String "?" (p +:+ "?=" +:+ rest)))).
Proof.
  unfold encoded_word.
  rewrite (append_assoc "=?"), (append_assoc cs).
  change (("?" +:+ String t ("?" +:+ p +:+ "?=")) +:+ rest)
    with (String "?" (String t (String "?" ((p +:+ "?=") +:+ rest)))).
  now rewrite (append_assoc p).
Qed.

(** A match of the encoded-word literal at the start of a text is an
    encoded word with the text after it. *)
Lemma at_start_sound (s : string) (m : Word.Match) :
  Word.at_start s = Some m ->
  s = encoded_word (Word.m_charset m) (Word.m_type m) (Word.m_payload m)
      +:+ Word.m_rest m /\
  Word.m_charset m <> "" /\
  Js.all_chars Word.not_qmark (Word.m_charset m) = true /\
  Word.is_B (Word.m_type m) || Word.is_Q (Word.m_type m) = true /\
  Word.m_payload m <> "" /\ Js.all_chars Js.is_dot (Word.m_payload m) = true.
Proof.
  unfold Word.at_start. destruct (Js.starts_with "=?" s) eqn:Hs; [|discriminate].
  apply starts_with_drop in Hs. cbn [String.length] in Hs.
  remember (Js.drop 2 s) as d eqn:Hd. clear Hd.
  pose proof (take_drop_while Word.not_qmark d) as Hsplit.
  pose proof (take_while_chars Word.not_qmark d) as Hcs.
  cbv zeta.
  remember (Js.take_while Word.not_qmark d) as cs eqn:Hcsd. clear Hcsd.
  destruct (Js.is_empty cs) eqn:He; [discriminate|].
  destruct (Js.drop_while Word.not_qmark d)
    as [|q [|t [|q' r]]]; try discriminate.
  destruct (Word.is_qmark q) eqn:Hq; [|discriminate].
  destruct (Word.is_B t || Word.is_Q t) eqn:Ht; [|discriminate].
  destruct (Word.is_qmark q') eqn:Hq'; [|discriminate].
  cbn [andb]. destruct (Word.payload r) as [[p rest]|] eqn:Hp; [|discriminate].
  intros [= <-]. cbn [Word.m_charset Word.m_type Word.m_payload Word.m_rest].
  apply is_qmark_eq in Hq, Hq'. subst q q'.
  destruct (payload_sound _ _ _ Hp) as (-> & Hpne & Hpall).
  split; [|split; [|split; [exact Hcs|split; [exact Ht|split; assumption]]]].
  - rewrite encoded_word_app, Hsplit. exact Hs.
  - intros ->. discriminate He.
Qed.

(** Where the literal finds no match at any place, [match] gives nothing. *)
Lemma matches_none (s : string) :
  (forall pre rest, s = pre +:+ rest -> Word.at_start rest = None) ->
  Word.matches s = [].
Proof.
  unfold Word.matches. induction s as [|c s IH]; intros H; [reflexivity|].
  cbn [Word.matches_from]. rewrite (H "" (String c s) eq_refl).
  apply IH. intros pre rest ->. apply (H (String c pre) rest). reflexivity.
Qed.

Lemma plain_has_no_match (s : string) :
  ~ holds_encoded_word s -> Word.matches s = [].
Proof.
  intros Hno. apply matches_none. intros pre rest ->.
  destruct (Word.at_start rest) as [m|] eqn:Hm; [|reflexivity].
  exfalso. apply Hno.
  destruct (at_start_sound _ _ Hm) as (-> & H1 & H2 & H3 & H4 & H5).
  exists pre, (Word.m_charset m), (Word.m_type m), (Word.m_payload m),
         (Word.m_rest m).
  auto 10.
Qed.

(** Conversely, a text that holds such a word is not left alone: the
    literal finds a match in it. *)
Lemma payload_total (p post : string) :
  p <> "" -> Js.all_chars Js.is_dot p = true ->
  exists p' rest, Word.payload (p +:+ "?=" +:+ post) = Some (p', rest).
Proof.
  induction p as [|c r IH]; [congruence|]. intros _ H.
  cbn [Js.all_chars] in H. apply andb_true_iff in H as [Hc Hr].
  change (String c r +:+ "?=" +:+ post) with (String c (r +:+ "?=" +:+ post)).
  cbn [Word.payload]. rewrite Hc.
  destruct (Js.starts_with "?=" (r +:+ "?=" +:+ post)) eqn:Hs; [eauto|].
  destruct r as [|d r].
  { change ("" +:+ "?=" +:+ post) with ("?=" +:+ post) in Hs.
    rewrite starts_with_app in Hs. discriminate Hs. }
  destruct (IH ltac:(discriminate) Hr) as (p' & rest & ->). eauto.
Qed.

Lemma at_start_total (cs : string) (t : ascii) (p post : string) :
  cs <> "" -> Js.all_chars Word.not_qmark cs = true ->
  Word.is_B t || Word.is_Q t = true ->
  p <> "" -> Js.all_chars Js.is_dot p = true ->
  exists m, Word.at_start (encoded_word cs t p +:+ post) = Some m.
Proof.
  intros Hne Hcs Ht Hp Hall. rewrite encoded_word_app. unfold Word.at_start.
  rewrite starts_with_app.
  change (Js.drop 2 ("=?" +:+ ?u)) with u. cbv zeta.
  destruct (take_drop_app Word.not_qmark cs
              (String "?" (String t (String "?" (p +:+ "?=" +:+ post))))
              Hcs eq_refl) as [-> ->].
  destruct cs; [congruence|]. cbn [Js.is_empty].
  change (Word.is_qmark "?") with true. rewrite Ht. cbn [andb].
  destruct (payload_total p post Hp Hall) as (p' & rest & ->). eauto.
Qed.

Lemma encoded_word_is_matched (s : string) :
  holds_encoded_word s -> Word.matches s <> [].
Proof.
  intros (pre & cs & t & p & post & -> & Hne & Hcs & Ht & Hp & Hall).
  destruct (at_start_total cs t p post Hne Hcs Ht Hp Hall) as [m Hm].
  unfold Word.matches.
  induction pre as [|c pre IH].
  - change ("" +:+ ?u) with u.
    destruct (encoded_word cs t p +:+ post) as [|c r] eqn:E; [discriminate Hm|].
    cbn [Word.matches_from]. rewrite Hm. discriminate.
  - change (String c pre +:+ ?u) with (String c (pre +:+ u)).
    cbn [Word.matches_from].
    destruct (Word.at_start (String c (pre +:+ encoded_word cs t p +:+ post)));
      [discriminate | exact IH].
Qed.

Section HeaderValues.

Context {collab : Collaborators}.

Lemma strip_newlines_no_lf (s : string) :
  Js.all_chars Js.not_lf s = true -> Js.strip_newlines s = s.
Proof.
  induction s as [|c s IH]; [reflexivity|].
  simpl. unfold Js.not_lf at 1. destruct (Js.code c =? 10)%N; [discriminate|].
  simpl. intros H. specialize (IH H).
  destruct (Js.code c =? 13)%N; [|now rewrite IH].
  destruct s as [|d s']; [reflexivity|].
  simpl in H. unfold Js.not_lf at 1 in H.
  destruct (Js.code d =? 10)%N; [discriminate H|]. now rewrite IH.
Qed.

(** C9, amended. On a string that holds no word of the form that the
    encoded-word literal matches ([=?], a charset without [?], [?], B or Q
    in either case, [?], a payload without line terminator, [?=]),
    header-value decoding removes the line breaks (LF, and CR LF) and does
    nothing else; the string is returned unchanged when it holds no LF. *)
Theorem unquoteString_plain (s : string) :
  ~ holds_encoded_word s ->
  unquoteString s = Js.strip_newlines s /\
  (Js.all_chars Js.not_lf s = true -> unquoteString s = s).
Proof.
  intros H. unfold unquoteString. rewrite (plain_has_no_match s H).
  cbn [fold_left]. split; [reflexivity|].
  apply strip_newlines_no_lf.
Qed.

End HeaderValues.

(** C9, as stated, fails: a folded header value holds no encoded-word, and
    decoding it removes the CR LF of the fold. *)
Lemma unquoteString_changes_folded_value :
  ~ holds_encoded_word Ex.folded_value /\
  unquoteString Ex.folded_value = "a longsubject" /\
  unquoteString Ex.folded_value <> Ex.folded_value.
Proof.
  split; [|split]; [|vm_compute; reflexivity | vm_compute; discriminate].
  intros H. apply encoded_word_is_matched in H. apply H.
  vm_compute. reflexivity.
Qed.

Lemma unquoteString_plain_witness :
  unquoteString "Re: minutes" = Js.strip_newlines "Re: minutes" /\
  (Js.all_chars Js.not_lf "Re: minutes" = true ->
   unquoteString "Re: minutes" = "Re: minutes").
Proof.
  apply (unquoteString_plain "Re: minutes").
  intros H. apply encoded_word_is_matched in H. apply H.
  vm_compute. reflexivity.
Defined.

(** ** C10: the carbon-copy header *)

Section Scalars.

Context {collab : Collaborators}.

(** A property of the accumulated result kept by each element of a loop
    that stops at the first exception is kept by the loop. *)
Lemma fold_left_exc {A} (stepf : Exc Readed -> A -> Exc Readed)
    (P : Readed -> Prop) :
  (forall e x, stepf (inl e) x = inl e) ->
  (forall r x r', P r -> stepf (inr r) x = inr r' -> P r') ->
  forall l r r', P r -> fold_left stepf l (inr r) = inr r' -> P r'.
Proof.
  intros Hexn Hstep. induction l as [|x l IH]; intros r r' HP; simpl.
  - intros [= <-]. exact HP.
  - destruct (stepf (inr r) x) as [e|r1] eqn:E.
    + assert (Hl : fold_left stepf l (inl e) = inl e)
        by (clear -Hexn; induction l as [|y l IH']; simpl;
            [reflexivity | rewrite Hexn; exact IH']).
      rewrite Hl. discriminate.
    + apply IH. eapply Hstep; eauto.
Qed.

(** [_append] sets only [text], [html], their headers and [attachments]. *)
Lemma _append_cc hs content r r' :
  _append hs content r = inr r' -> cc r' = cc r.
Proof.
  unfold _append. destruct hs as [h|]; [|discriminate].
  unfold mbind, Exc_bind, mret, Exc_ret.
  repeat case_match; try discriminate; intros [= <-]; reflexivity.
Qed.

Lemma read_block_cc (c : option AddressField) r item r' :
  cc r = c -> read_block (inr r) item = inr r' -> cc r' = c.
Proof.
  intros Hc. unfold read_block, mbind, Exc_bind, mret, Exc_ret.
  destruct item as [s|d ls [[hs b]|]]; try (intros [= <-]; exact Hc).
  destruct b as [|s|items]; [intros [= <-]; exact Hc | |].
  - intros H. rewrite (_append_cc _ _ _ _ H). exact Hc.
  - destruct hs as [h|]; [|discriminate].
    apply (fold_left_exc read_nested (fun r => cc r = c)).
    + reflexivity.
    + clear. intros r x r' Hr. unfold read_nested, mbind, Exc_bind, mret, Exc_ret.
      destruct x as [s|d ls [[hs b]|]]; [intros [= <-]; exact Hr | | discriminate].
      destruct b as [|s|items].
      * intros H. rewrite (_append_cc _ _ _ _ H). exact Hr.
      * intros H. rewrite (_append_cc _ _ _ _ H). exact Hr.
      * apply (fold_left_exc append_bound (fun r => cc r = c)); [reflexivity| |exact Hr].
        clear. intros r x r' Hr. unfold append_bound, mbind, Exc_bind.
        destruct x as [s|d ls [[hs b]|]]; try discriminate.
        intros H. rewrite (_append_cc _ _ _ _ H). exact Hr.
    + destruct (_ && _); exact Hc.
Qed.

Lemma bind_inr {A B} (f : A -> Exc B) (a : A) : (inr a ≫= f) = f a.
Proof. reflexivity. Qed.

Lemma bind_inl {A B} (f : A -> Exc B) (e : JsError) : (inl e ≫= f) = inl e.
Proof. reflexivity. Qed.

Lemma bind_mret {A B} (f : A -> Exc B) (a : A) : (mret a ≫= f) = f a.
Proof. reflexivity. Qed.

(** What [read_scalars] leaves in the result. *)
Lemma read_scalars_inv (h : Headers) (r : Readed) :
  read_scalars h = inr r ->
  exists c1 c2,
    derive h "CC" getEmailAddress = inr c1 /\
    derive h "Cc" getEmailAddress = inr c2 /\
    cc r = match c2 with Some c => Some c | None => c1 end /\
    headers r = Some h /\
    text r = None /\ html r = None /\ attachments r = None.
Proof.
  unfold read_scalars, mbind, Exc_bind, mret, Exc_ret.
  destruct (derive h "Date" _) as [|d]; [discriminate|].
  destruct (derive h "Subject" _) as [|s]; [discriminate|].
  destruct (derive h "From" _) as [|f]; [discriminate|].
  destruct (derive h "To" _) as [|t]; [discriminate|].
  destruct (derive h "CC" _) as [|c1]; [discriminate|].
  destruct (derive h "Cc" _) as [|c2]; [discriminate|].
  intros [= <-]. exists c1, c2. simpl. auto 10.
Qed.

(** The walk over the body leaves [cc] as the scalars set it. *)
Lemma read_try_cc (h : Headers) (b : Body) (r : Readed) :
  read_try (MkPart (Some h) b) = inr r ->
  exists r0, read_scalars h = inr r0 /\ cc r = cc r0.
Proof.
  unfold read_try. cbn [part_headers part_body].
  destruct (read_scalars h) as [e|r0]; [discriminate|].
  rewrite bind_inr. intros H. exists r0. split; [reflexivity|].
  destruct b as [|s|items].
  - injection H as <-. reflexivity.
  - apply _append_cc in H. exact H.
  - destruct (root_boundary h); [|injection H as <-; reflexivity].
    revert H. apply (fold_left_exc read_block (fun r => cc r = cc r0));
      [reflexivity | | reflexivity].
    intros r1 x r2 Hr. apply read_block_cc. exact Hr.
Qed.

(** C10, amended. When [read] succeeds on a parsed structure: if the root
    headers hold a non-empty value under [Cc], then [cc] is set from that
    value, whether or not [CC] is present as well; if the value under [Cc]
    is empty or missing and [CC] holds a non-empty value, then [cc] is set
    from the value under [CC]; and if neither [CC] nor [Cc] holds a
    non-empty value, then [cc] is left unset, whatever is stored under other
    spellings such as [cc]. *)
Theorem cc_from_Cc (h : Headers) (b : Body) (options : OptionsArg)
    (callback : option Callback) (r : Readed) :
  fst (read (EmlObject (Some (MkPart (Some h) b))) options callback)
    = ReturnsValue r ->
  (truthy (get_prop h "Cc") = true ->
     exists a, getEmailAddress (get_prop h "Cc") = inr a /\ cc r = Some a) /\
  (truthy (get_prop h "Cc") = false -> truthy (get_prop h "CC") = true ->
     exists a, getEmailAddress (get_prop h "CC") = inr a /\ cc r = Some a) /\
  (truthy (get_prop h "Cc") = false -> truthy (get_prop h "CC") = false ->
     cc r = None).
Proof.
  intros Hv. apply read_object_value in Hv. cbn [_read] in Hv.
  destruct (read_try_cc _ _ _ Hv) as (r0 & Hr0 & ->).
  destruct (read_scalars_inv _ _ Hr0) as (c1 & c2 & H1 & H2 & -> & _).
  unfold derive, mbind, Exc_bind, mret, Exc_ret in H1, H2. split; [|split].
  - intros Ht. rewrite Ht in H2.
    destruct (getEmailAddress (get_prop h "Cc")) as [|a]; [discriminate|].
    injection H2 as <-. eauto.
  - intros Ht Ht'. rewrite Ht in H2. rewrite Ht' in H1.
    destruct (getEmailAddress (get_prop h "CC")) as [|a]; [discriminate|].
    injection H1 as <-. injection H2 as <-. eauto.
  - intros Ht Ht'. rewrite Ht in H2. rewrite Ht' in H1.
    injection H1 as <-. injection H2 as <-. reflexivity.
Qed.

End Scalars.

(** C10, as stated, fails: with both [CC] and [Cc] among the root headers
    and an empty value under [Cc], the assignment from [Cc] is skipped and
    [cc] keeps what [CC] gave, where the [Cc] value would give [null]. *)
Lemma cc_kept_from_CC :
  exists r h,
    fst (read (EmlString Ex.two_cc) OptUndefined None) = ReturnsValue r /\
    headers r = Some h /\
    h !! "CC" = Some (HStr "a@x.com") /\ h !! "Cc" = Some (HStr "") /\
    cc r = Some (AddrOne "" "a@x.com") /\
    getEmailAddress (PStr "") = inr AddrNull.
Proof.
  eexists. eexists. split; [vm_compute; reflexivity|].
  split; [reflexivity|]. repeat split; vm_compute; reflexivity.
Qed.

Lemma cc_from_Cc_witness :
  (truthy (get_prop Ex.both_cc "Cc") = true ->
     exists a, getEmailAddress (get_prop Ex.both_cc "Cc") = inr a /\
               cc Ex.both_cc_result = Some a) /\
  (truthy (get_prop Ex.both_cc "Cc") = false ->
   truthy (get_prop Ex.both_cc "CC") = true ->
     exists a, getEmailAddress (get_prop Ex.both_cc "CC") = inr a /\
               cc Ex.both_cc_result = Some a) /\
  (truthy (get_prop Ex.both_cc "Cc") = false ->
   truthy (get_prop Ex.both_cc "CC") = false ->
     cc Ex.both_cc_result = None).
Proof.
  apply (cc_from_Cc Ex.both_cc BUnset OptUndefined None Ex.both_cc_result).
  vm_compute. reflexivity.
Defined.

(** ** C1: a single part without Content-Type *)

Section Untyped.

Context {collab : Collaborators}.

(** Without a Content-Type and without a transfer encoding, [_append] goes
    to its last branch with the content untouched. *)
Lemma _append_untyped (h : Headers) (s : string) (r : Readed) :
  truthy (content_type_of h) = false ->
  truthy (transfer_encoding h) = false ->
  _append (Some h) (CString s) r
    = (a ← build_attachment h; mret (add_attachment a r)).
Proof.
  intros Hct Henc. unfold _append, transfer_decode.
  assert (H64 : is_str "base64" (transfer_encoding h) = false).
  { destruct (transfer_encoding h) as [|e| |]; try reflexivity.
    destruct e; [reflexivity | discriminate Henc]. }
  assert (Hqp : is_str "quoted-printable" (transfer_encoding h) = false).
  { destruct (transfer_encoding h) as [|e| |]; try reflexivity.
    destruct e; [reflexivity | discriminate Henc]. }
  rewrite H64, Hqp, Henc. simpl andb. cbv iota. rewrite bind_mret.
  rewrite Hct, !andb_false_r. simpl andb. cbv iota. reflexivity.
Qed.

Lemma bind_ext_append (h : Headers) (body : string) :
  truthy (content_type_of h) = false ->
  truthy (transfer_encoding h) = false ->
  (result ← read_scalars h; _append (Some h) (CString body) result)
    = (result ← read_scalars h; a ← build_attachment h;
       mret (add_attachment a result)).
Proof.
  intros Hct Henc. destruct (read_scalars h) as [e|r0]; [reflexivity|].
  rewrite !bind_inr. apply _append_untyped; assumption.
Qed.

(** C1, amended. For a message that parses into a single part with a
    string body, with no Content-Type and no Content-Transfer-Encoding
    header, [read] does not put the body into [text]: the part is dispatched
    as an attachment. When the scalar fields and the attachment metadata are
    derived without an exception, [read] returns the scalars with that one
    attachment (it does so after the call of the callback in effect, and
    only an exception of that callback keeps it from returning); and
    whenever [read] returns a result, its [text] and [html] are unset and
    [attachments] holds exactly one element. *)
Theorem untyped_part_is_attachment (eml : string) (options : OptionsArg)
    (callback : option Callback) (h : Headers) (body : string) :
  fst (parse getBoundary (Some eml) (shift_options options callback) None)
    = ReturnsValue (MkPart (Some h) (BStr body)) ->
  truthy (content_type_of h) = false ->
  truthy (transfer_encoding h) = false ->
  (forall r0 a, read_scalars h = inr r0 -> build_attachment h = inr a ->
     fst (read (EmlString eml) options callback)
       = after_callback (shift_callback options callback) None
           (ReturnsValue (add_attachment a r0))) /\
  (forall r, fst (read (EmlString eml) options callback) = ReturnsValue r ->
     text r = None /\ html r = None /\ exists a, attachments r = Some [a]).
Proof.
  intros Hparse Hct Henc. split.
  - intros r0 a Hr0 Ha. unfold read.
    destruct (parse getBoundary (Some eml) (shift_options options callback) None)
      as [out calls]. cbn [fst] in Hparse. subst out.
    unfold _read, read_try. cbn [part_headers part_body fst].
    rewrite (bind_ext_append h body Hct Henc).
    rewrite Hr0, bind_inr, Ha, bind_inr. reflexivity.
  - intros r Hv. apply read_string_value in Hv as (p & Hp & Hr).
    rewrite Hparse in Hp. injection Hp as <-.
    unfold _read, read_try in Hr. cbn [part_headers part_body] in Hr.
    rewrite (bind_ext_append h body Hct Henc) in Hr.
    destruct (read_scalars h) as [e|r0] eqn:Hr0; [discriminate Hr|].
    rewrite bind_inr in Hr.
    destruct (build_attachment h) as [e|a]; [discriminate Hr|].
    rewrite bind_inr in Hr. injection Hr as <-.
    destruct (read_scalars_inv _ _ Hr0) as (c1 & c2 & _ & _ & _ & _ & Ht & Hh & Ha).
    simpl. rewrite Ht, Hh, Ha. eauto.
Qed.

End Untyped.

(** C1, as stated, fails: the body of a single-part message without
    Content-Type is not placed into [text]; the part becomes an attachment
    record without metadata. *)
Lemma untyped_body_is_not_text :
  fst (read (EmlString Ex.untyped) OptUndefined None)
    = ReturnsValue Ex.untyped_result
  /\ text Ex.untyped_result = None
  /\ attachments Ex.untyped_result = Some [Ex.no_metadata].
Proof. split; [vm_compute; reflexivity | split; reflexivity]. Qed.

Lemma untyped_part_is_attachment_witness :
  text Ex.untyped_result = None /\ html Ex.untyped_result = None /\
  exists a, attachments Ex.untyped_result = Some [a].
Proof.
  apply (untyped_part_is_attachment Ex.untyped OptUndefined None
           {[ "X" := HStr "y" ]} "Hello"); vm_compute; reflexivity.
Defined.

(** ** C8: the metadata of an attachment *)

Lemma to_lower_app (a b : string) :
  Js.to_lower (a +:+ b) = Js.to_lower a +:+ Js.to_lower b.
Proof.
  induction a as [|c a IH]; [reflexivity|].
  change (String c a +:+ b) with (String c (a +:+ b)). cbn [Js.to_lower].
  now rewrite IH.
Qed.

Lemma to_lower_length (a : string) :
  String.length (Js.to_lower a) = String.length a.
Proof. induction a as [|c a IH]; [reflexivity|]. cbn. now rewrite IH. Qed.

Lemma drop_app (a b : string) : Js.drop (String.length a) (a +:+ b) = b.
Proof. induction a as [|c a IH]; [reflexivity | exact IH]. Qed.

Lemma digit_not_space (c : ascii) :
  Js.is_digit c = true -> Js.is_space c = false.
Proof.
  destruct c as [[] [] [] [] [] [] [] []]; vm_compute; congruence.
Qed.

Lemma drop_while_fails (p : ascii -> bool) (s : string) :
  Js.head_fails p (Js.drop_while p s) = true.
Proof.
  induction s as [|c s IH]; [reflexivity|]. cbn [Js.drop_while].
  destruct (p c) eqn:Hc; [exact IH|]. cbn [Js.head_fails]. now rewrite Hc.
Qed.

(** A text that begins with [p] when put in lower case begins with a key
    of the same length that is [p] in lower case. *)
Lemma starts_with_ci_inv (p s : string) :
  Meta.starts_with_ci p s = true ->
  exists key rest, s = key +:+ rest /\ Js.to_lower key = p /\
                   String.length key = String.length p.
Proof.
  unfold Meta.starts_with_ci, Js.starts_with. revert s.
  induction p as [|c p IH]; intros s H.
  - exists "", s. auto.
  - destruct s as [|d s]; [discriminate H|]. cbn [Js.to_lower String.prefix] in H.
    destruct (ascii_dec c (Js.lower_char d)) as [->|]; [|discriminate H].
    destruct (IH s H) as (key & rest & -> & Hk & Hl).
    exists (String d key), rest. cbn [Js.to_lower String.length].
    now rewrite Hk, Hl.
Qed.

Lemma is_eq_eq (c : ascii) : Meta.is_eq c = true -> c = "="%char.
Proof. intros H. apply (code_eq c 61) in H; [exact H | reflexivity]. Qed.

(** The size literal at the start of a text reads a size parameter, and
    reads every size parameter. *)
Lemma size_at_sound (s d : string) :
  Meta.size_at s = Some d -> size_parameter s d.
Proof.
  unfold Meta.size_at.
  destruct (Meta.starts_with_ci "size" s) eqn:Hs; [|discriminate].
  apply starts_with_ci_inv in Hs as (key & rest & -> & Hk & Hl).
  cbn [String.length] in Hl.
  replace (Js.drop 4 (key +:+ rest)) with rest
    by (rewrite <- Hl; symmetry; apply drop_app).
  pose proof (take_drop_while Js.is_space rest) as H1.
  pose proof (take_while_chars Js.is_space rest) as Hw1.
  destruct (Js.drop_while Js.is_space rest) as [|c r]; [discriminate|].
  destruct (Meta.is_eq c) eqn:Hc; [|discriminate]. apply is_eq_eq in Hc. subst c.
  cbv zeta.
  pose proof (take_drop_while Js.is_space r) as H2.
  pose proof (take_while_chars Js.is_space r) as Hw2.
  pose proof (take_drop_while Js.is_digit (Js.drop_while Js.is_space r)) as H3.
  pose proof (take_while_chars Js.is_digit (Js.drop_while Js.is_space r)) as Hw3.
  pose proof (drop_while_fails Js.is_digit (Js.drop_while Js.is_space r)) as Hf.
  destruct (Js.is_empty (Js.take_while Js.is_digit (Js.drop_while Js.is_space r)))
    eqn:He; [discriminate|].
  intros [= <-].
  exists key, (Js.take_while Js.is_space rest), (Js.take_while Js.is_space r),
         (Js.drop_while Js.is_digit (Js.drop_while Js.is_space r)).
  split; [|split; [exact Hk|split; [exact Hw1|split; [exact Hw2|
          split; [|split; [exact Hw3 | exact Hf]]]]]].
  - rewrite H3, H2. change ("=" +:+ r) with (String "=" r). now rewrite H1.
  - intros E. rewrite E in He. discriminate He.
Qed.

Lemma size_at_complete (s d : string) :
  size_parameter s d -> Meta.size_at s = Some d.
Proof.
  intros (key & ws1 & ws2 & post & -> & Hk & H1 & H2 & Hd & Hall & Hpost).
  unfold Meta.size_at, Meta.starts_with_ci.
  rewrite to_lower_app, Hk, starts_with_app.
  assert (Hl : String.length key = 4).
  { apply (f_equal String.length) in Hk. now rewrite to_lower_length in Hk. }
  replace (Js.drop 4 (key +:+ ws1 +:+ "=" +:+ ws2 +:+ d +:+ post))
    with (ws1 +:+ "=" +:+ ws2 +:+ d +:+ post)
    by (rewrite <- Hl; symmetry; apply drop_app).
  destruct (take_drop_app Js.is_space ws1 ("=" +:+ ws2 +:+ d +:+ post) H1 eq_refl)
    as [_ ->].
  change ("=" +:+ ws2 +:+ d +:+ post) with (String "=" (ws2 +:+ d +:+ post)).
  cbv iota. change (Meta.is_eq "=") with true. cbv iota zeta.
  assert (Hhead : Js.head_fails Js.is_space (d +:+ post) = true).
  { destruct d as [|c d']; [congruence|]. cbn [Js.all_chars] in Hall.
    apply andb_true_iff in Hall as [Hc _].
    change (String c d' +:+ post) with (String c (d' +:+ post)).
    cbn [Js.head_fails]. now rewrite (digit_not_space c Hc). }
  destruct (take_drop_app Js.is_space ws2 (d +:+ post) H2 Hhead) as [_ ->].
  destruct (take_drop_app Js.is_digit d post Hall Hpost) as [-> _].
  destruct d; [congruence | reflexivity].
Qed.

(** [exec] with the size literal gives the digits of the first size
    parameter, and nothing when there is none. *)
Lemma size_exec_first (s d : string) :
  Meta.size_exec s = Some d <-> first_size s d.
Proof.
  split.
  - revert d. induction s as [|c s IH]; intros d.
    + cbn [Meta.size_exec]. destruct (Meta.size_at "") eqn:E; [|discriminate].
      intros [= ->]. exists "", "". split; [reflexivity|].
      split; [apply size_at_sound; exact E|].
      intros pre1 pre2 d' Hp Hne. destruct pre1, pre2; try discriminate Hp.
      congruence.
    + cbn [Meta.size_exec]. destruct (Meta.size_at (String c s)) eqn:E.
      * intros [= ->]. exists "", (String c s). split; [reflexivity|].
        split; [apply size_at_sound; exact E|].
        intros pre1 pre2 d' Hp Hne. destruct pre1, pre2; try discriminate Hp.
        congruence.
      * intros H. destruct (IH d H) as (pre & rest & -> & Hr & Hno).
        exists (String c pre), rest. split; [reflexivity|]. split; [exact Hr|].
        intros pre1 pre2 d' Hp Hne Hsz. destruct pre1 as [|x pre1].
        -- change ("" +:+ pre2) with pre2 in Hp. subst pre2.
           apply size_at_complete in Hsz.
           change (String c pre +:+ rest) with (String c (pre +:+ rest)) in Hsz.
           rewrite E in Hsz. discriminate Hsz.
        -- change (String x pre1 +:+ pre2) with (String x (pre1 +:+ pre2)) in Hp.
           injection Hp as _ Hp. exact (Hno pre1 pre2 d' Hp Hne Hsz).
  - intros (pre & rest & -> & Hr & Hno). apply size_at_complete in Hr.
    induction pre as [|c pre IH].
    + change ("" +:+ rest) with rest. destruct rest; cbn [Meta.size_exec];
        now rewrite Hr.
    + change (String c pre +:+ rest) with (String c (pre +:+ rest)).
      cbn [Meta.size_exec].
      destruct (Meta.size_at (String c (pre +:+ rest))) as [d'|] eqn:E.
      * exfalso. apply size_at_sound in E.
        apply (Hno "" (String c pre) d' eq_refl); [discriminate | exact E].
      * apply IH. intros pre1 pre2 d' Hp Hne.
        apply (Hno (String c pre1) pre2 d'); [|exact Hne].
        rewrite Hp. reflexivity.
Qed.

Lemma size_exec_none (s : string) :
  no_size s -> Meta.size_exec s = None.
Proof.
  intros Hno. induction s as [|c s IH].
  - cbn [Meta.size_exec]. destruct (Meta.size_at "") as [d|] eqn:E; [|reflexivity].
    exfalso. apply size_at_sound in E. exact (Hno "" "" d eq_refl E).
  - cbn [Meta.size_exec]. destruct (Meta.size_at (String c s)) as [d|] eqn:E.
    + exfalso. apply size_at_sound in E. exact (Hno "" (String c s) d eq_refl E).
    + apply IH. intros pre rest d ->. apply (Hno (String c pre) rest d).
      reflexivity.
Qed.

(** The inline literal finds [inline] after white space, at the start. *)
Lemma is_inline_spec (s : string) :
  Meta.is_inline s = true <->
  exists ws rest, s = ws +:+ "inline" +:+ rest /\
                  Js.all_chars Js.is_space ws = true.
Proof.
  unfold Meta.is_inline. split.
  - intros H. apply starts_with_drop in H.
    exists (Js.take_while Js.is_space s),
           (Js.drop (String.length "inline") (Js.drop_while Js.is_space s)).
    split; [|apply take_while_chars].
    rewrite <- H. symmetry. apply take_drop_while.
  - intros (ws & rest & -> & Hws).
    destruct (take_drop_app Js.is_space ws ("inline" +:+ rest) Hws eq_refl)
      as [_ ->].
    apply starts_with_app.
Qed.

(** An integer below 2^53 is a double. *)
Lemma to_double_small (n : N) : (n < 2 ^ 53)%N -> to_double n = Finite n.
Proof.
  intros Hn. unfold to_double, round53.
  assert (Hsize : (N.size n <= 53)%N).
  { destruct (N.eq_dec n 0%N) as [->|Hz]; [cbn; lia|].
    rewrite N.size_log2 by exact Hz.
    apply N.le_succ_l. apply N.log2_lt_pow2; [lia | exact Hn]. }
  apply N.leb_le in Hsize. rewrite Hsize.
  assert (Hlt : (n < 2 ^ 1024)%N).
  { eapply N.lt_trans; [exact Hn|]. apply N.pow_lt_mono_r; lia. }
  apply N.ltb_lt in Hlt. rewrite Hlt. reflexivity.
Qed.

(** The literal of the content id takes an opening bracket off the start
    and a closing bracket off the end. *)
Lemma strip_closing_bracket (mid : string) : Meta.strip_closing (mid +:+ ">") = mid.
Proof.
  induction mid as [|c r IH]; [reflexivity|].
  change (String c r +:+ ">") with (String c (r +:+ ">")).
  cbn [Meta.strip_closing]. rewrite IH.
  destruct r; reflexivity.
Qed.

Lemma strip_closing_none (mid : string) :
  last_char mid <> Some ">"%char -> Meta.strip_closing mid = mid.
Proof.
  induction mid as [|c r IH]; [reflexivity|]. intros H.
  destruct r as [|d r].
  - cbn [Meta.strip_closing]. destruct (Js.code c =? 62)%N eqn:E; [|reflexivity].
    apply (code_eq c 62) in E; [|reflexivity]. subst c. now destruct H.
  - change (Meta.strip_closing (String c (String d r)))
      with (String c (Meta.strip_closing (String d r))).
    now rewrite (IH H).
Qed.

Lemma strip_brackets_spec (s mid : string) :
  bracketed s mid -> Meta.strip_brackets s = mid.
Proof.
  intros (opening & closing & -> & Ho & Hc).
  assert (Hclose : Meta.strip_closing (mid +:+ (if closing then ">" else "")) = mid).
  { destruct closing; [apply strip_closing_bracket|].
    rewrite append_nil_r. apply strip_closing_none. now apply Hc. }
  destruct opening.
  - change ("<" +:+ ?u) with (String "<" u). cbn [Meta.strip_brackets].
    change ((Js.code "<" =? 60)%N) with true. cbv iota. exact Hclose.
  - change ("" +:+ ?u) with u. specialize (Ho eq_refl).
    destruct mid as [|c r].
    + destruct closing; reflexivity.
    + change (String c r +:+ ?u) with (String c (r +:+ u)) in *.
      cbn [Meta.strip_brackets].
      destruct (Js.code c =? 60)%N eqn:E; [|exact Hclose].
      apply (code_eq c 60) in E; [|reflexivity]. subst c.
      change (String (ascii_of_N 60) r) with ("<" +:+ r) in Ho.
      rewrite starts_with_app in Ho. discriminate Ho.
Qed.

Section Attachments.

Context {collab : Collaborators}.

(** The name loop ends with the first non-empty candidate, or with the
    empty string. *)
Lemma name_loop_first (h : Headers) (keys : list string) (acc n : string) :
  name_loop h keys acc = inr n ->
  match List.find (fun n => negb (Js.is_empty n)) (map (candidate_of h) keys) with
  | Some c => n = c
  | None => n = EmptyString \/ n = acc
  end.
Proof.
  revert acc. induction keys as [|key keys IH]; intros acc.
  - simpl. intros [= <-]. auto.
  - cbn [map List.find name_loop].
    assert (Hc : candidate_of h key
                 = match get_prop h key with
                   | PStr s => Meta.candidate_name s
                   | _ => EmptyString
                   end) by reflexivity.
    destruct (get_prop h key) as [|s|l|] eqn:Hg; cbn [truthy];
      rewrite Hc; clear Hc.
    + simpl. intros H. apply IH in H. destruct (List.find _ _); [exact H|]. tauto.
    + destruct (Js.is_empty s) eqn:Hs; cbn [negb].
      * destruct s; [|discriminate Hs].
        change (Meta.candidate_name "") with "". simpl.
        intros H. apply IH in H. destruct (List.find _ _); [exact H|]. tauto.
      * cbn [string_method]. rewrite bind_inr.
        destruct (Js.is_empty (Meta.candidate_name s)) eqn:Hc; cbn [negb].
        -- intros H. apply IH in H. destruct (List.find _ _); [exact H|].
           destruct (Meta.candidate_name s); [|discriminate Hc]. tauto.
        -- intros [= <-]. reflexivity.
    + cbn [string_method]. rewrite bind_inl. discriminate.
    + cbn [string_method]. rewrite bind_inl. discriminate.
Qed.

Lemma attachment_contentId_inv (h : Headers) (x : option string) :
  attachment_contentId h = inr x ->
  x = match or_else (get_prop h "Content-ID") (get_prop h "Content-Id") with
      | PStr s => if Js.is_empty (Meta.strip_brackets s) then None
                  else Some (Meta.strip_brackets s)
      | _ => None
      end.
Proof.
  unfold attachment_contentId.
  destruct (or_else _ _); cbn [string_method]; rewrite ?bind_inr, ?bind_inl;
    unfold mret, Exc_ret; intros Hx; try discriminate Hx;
    injection Hx as <-; reflexivity.
Qed.

Lemma attachment_name_inv (h : Headers) (x : option string) :
  attachment_name h = inr x ->
  match first_candidate h with
  | Some n => exists d, decodeURI n = inr d /\ x = Some d
  | None => x = None
  end.
Proof.
  unfold attachment_name.
  destruct (name_loop h NameContainer "") as [e|n] eqn:Hn; [discriminate|].
  rewrite bind_inr. apply name_loop_first in Hn. fold (first_candidate h) in Hn.
  destruct (Js.is_empty n) eqn:Hempty.
  - intros [= <-].
    destruct (first_candidate h) as [c|] eqn:Hf; [|reflexivity].
    subst c. unfold first_candidate in Hf. apply find_some in Hf as [_ Hf].
    rewrite Hempty in Hf. discriminate Hf.
  - destruct (decodeURI n) as [e|d] eqn:Hd; [discriminate|].
    rewrite bind_inr. intros [= <-].
    destruct (first_candidate h) as [c|].
    + subst c. eauto.
    + destruct Hn as [->| ->]; discriminate Hempty.
Qed.

(** What [build_attachment] puts into the record when it succeeds. *)
Lemma build_attachment_inv (h : Headers) (a : Attachment) :
  build_attachment h = inr a ->
  let cd := get_prop h "Content-Disposition" in
  match first_candidate h with
  | Some n => exists d, decodeURI n = inr d /\ att_name a = Some d
  | None => att_name a = None
  end /\
  att_contentId a =
    match or_else (get_prop h "Content-ID") (get_prop h "Content-Id") with
    | PStr s => if Js.is_empty (Meta.strip_brackets s) then None
                else Some (Meta.strip_brackets s)
    | _ => None
    end /\
  att_inline a = (if truthy cd then Some (Meta.is_inline (to_str cd)) else None) /\
  att_size a =
    (if truthy cd
     then Some (match Meta.size_exec (to_str cd) with
                | Some d => Meta.parseInt d
                | None => Finite 0
                end)
     else None).
Proof.
  unfold build_attachment.
  destruct (attachment_contentId h) as [e|cid] eqn:Hcid; [discriminate|].
  rewrite bind_inr.
  destruct (attachment_name h) as [e|name] eqn:Hname; [discriminate|].
  rewrite bind_inr. intros [= <-]. simpl.
  split; [exact (attachment_name_inv _ _ Hname)|].
  split; [exact (attachment_contentId_inv _ _ Hcid)|].
  split; [reflexivity|].
  destruct (Meta.size_exec _); reflexivity.
Qed.

(** C8, amended. For every part that [_append] dispatches as an
    attachment, the record appended to [attachments] has:
    - as [name] the percent-decoded first non-empty candidate found in
      Content-Disposition, then Content-Type, then Content-type;
    - as [contentId] the Content-ID (or Content-Id) value without the
      opening angle bracket it may begin with and the closing one it may
      end with, when something is left of it;
    - when the Content-Disposition is not empty, [inline] true iff that
      value begins, after optional white space, with [inline], and as
      [size] the number that [parseInt] makes of the digits of the first
      size parameter in that value, wherever it begins, also inside a file
      name or at the end of a longer word: the double nearest to the
      integer the digits stand for, which is that integer when it is below
      2^53; and 0 when no size parameter begins anywhere in the value;
    - when the Content-Disposition is missing or empty, neither [inline]
      nor [size]. *)
Theorem attachment_metadata (h : Headers) (content : Content) (r r' : Readed) :
  _append (Some h) content r = inr r' ->
  dispatched_as_attachment h = true ->
  let cd := get_prop h "Content-Disposition" in
  let cid := or_else (get_prop h "Content-ID") (get_prop h "Content-Id") in
  exists a,
    attachments r' = Some (default [] (attachments r) ++ [a]) /\
    match first_candidate h with
    | Some n => exists d, decodeURI n = inr d /\ att_name a = Some d
    | None => att_name a = None
    end /\
    (cid = PUndefined -> att_contentId a = None) /\
    (forall s mid, cid = PStr s -> bracketed s mid ->
       att_contentId a = if Js.is_empty mid then None else Some mid) /\
    (att_inline a = Some true <->
       truthy cd = true /\
       exists ws rest, to_str cd = ws +:+ "inline" +:+ rest /\
                       Js.all_chars Js.is_space ws = true) /\
    (truthy cd = true ->
       forall digits, first_size (to_str cd) digits ->
         att_size a = Some (to_double (digits_value digits)) /\
         ((digits_value digits < 2 ^ 53)%N ->
          att_size a = Some (Finite (digits_value digits)))) /\
    (truthy cd = true -> no_size (to_str cd) -> att_size a = Some (Finite 0)) /\
    (truthy cd = false -> att_inline a = None /\ att_size a = None).
Proof.
  intros Happ Hd cd cid. unfold _append in Happ.
  destruct (transfer_decode _ _ _ _) as [e|c]; [discriminate|].
  rewrite bind_inr in Happ. unfold dispatched_as_attachment in Hd.
  fold cd in Happ, Hd.
  assert (Hh : negb (truthy cd) && truthy (content_type_of h)
               && index_found "text/html" (content_type_of h) = false)
    by (destruct (negb (truthy cd) && truthy (content_type_of h)),
          (index_found "text/html" (content_type_of h)); try reflexivity;
        discriminate Hd).
  assert (Hp : negb (truthy cd) && truthy (content_type_of h)
               && index_found "text/plain" (content_type_of h) = false)
    by (destruct (negb (truthy cd) && truthy (content_type_of h)),
          (index_found "text/plain" (content_type_of h)),
          (index_found "text/html" (content_type_of h)); try reflexivity;
        discriminate Hd).
  rewrite Hh, Hp in Happ.
  destruct (build_attachment h) as [e|a] eqn:Ha; [discriminate|].
  rewrite bind_inr in Happ. injection Happ as <-.
  destruct (build_attachment_inv _ _ Ha) as (Hname & Hcid & Hinl & Hsize).
  fold cd in Hinl, Hsize. fold cid in Hcid.
  exists a. split; [simpl; destruct (attachments r); reflexivity|].
  split; [exact Hname|].
  split; [intros E; rewrite Hcid, E; reflexivity|].
  split.
  { intros s mid E Hb. rewrite Hcid, E, (strip_brackets_spec s mid Hb).
    destruct (Js.is_empty mid); reflexivity. }
  rewrite Hinl, Hsize.
  destruct (truthy cd).
  - split.
    { split.
      - intros [= Hi]. split; [reflexivity|]. apply is_inline_spec. exact Hi.
      - intros [_ Hi]. apply is_inline_spec in Hi. now rewrite Hi. }
    split.
    { intros _ digits Hf. apply size_exec_first in Hf. rewrite Hf.
      split; [reflexivity|]. intros Hsmall. unfold Meta.parseInt.
      now rewrite (to_double_small _ Hsmall). }
    split; [|discriminate].
    intros _ Hno. rewrite (size_exec_none _ Hno). reflexivity.
  - split; [split; [discriminate | intros [[=] _]]|].
    split; [discriminate|]. split; [discriminate | auto].
Qed.

End Attachments.

(** C8, as stated, fails: a part without Content-Disposition is dispatched
    as an attachment whose [size] is unset, not 0, and whose [inline] is
    unset as well. *)
Lemma size_unset_without_disposition :
  exists r,
    fst (read (EmlString Ex.related_image) OptUndefined None) = ReturnsValue r /\
    attachments r = Some [Ex.image_attachment] /\
    att_size Ex.image_attachment = None /\
    att_size Ex.image_attachment <> Some (Finite 0).
Proof.
  eexists. split; [vm_compute; reflexivity|].
  split; [reflexivity|]. split; [reflexivity | discriminate].
Qed.

Lemma attachment_metadata_witness :
  exists a,
    attachments Ex.file_result = Some [a] /\
    att_name a = Some "f.txt" /\ att_size a = Some (Finite 10).
Proof.
  destruct (attachment_metadata Ex.file_headers (CString "data")
              empty_readed Ex.file_result)
    as (a & Hatt & Hname & _ & _ & _ & Hsize & _).
  - vm_compute. reflexivity.
  - vm_compute. reflexivity.
  - exists a. split; [exact Hatt|]. split.
    + assert (Hf : first_candidate Ex.file_headers = Some "f.txt")
        by (vm_compute; reflexivity).
      rewrite Hf in Hname. destruct Hname as (d & Hd & ->).
      vm_compute in Hd. congruence.
    + destruct (Hsize ltac:(vm_compute; reflexivity) "10") as [_ Hs].
      * apply size_exec_first. vm_compute. reflexivity.
      * apply Hs. vm_compute. reflexivity.
Defined.

(** The size is read at the first place where the literal matches, which
    can be inside a file name or at the end of a longer word; and a number
    of more than 53 binary digits is rounded. *)
Lemma size_of_first_match :
  first_size ("attachment; filename=" +:+ String Js.dquote "size=5.txt"
              +:+ String Js.dquote "; size=10") "5" /\
  first_size "attachment; filesize=7; size=10" "7" /\
  Meta.parseInt "9007199254740993" = Finite 9007199254740992.
Proof.
  split; [|split].
  - apply size_exec_first. vm_compute. reflexivity.
  - apply size_exec_first. vm_compute. reflexivity.
  - vm_compute. reflexivity.
Qed.

(** ** C6: header lines *)

Lemma name_char_not_space (c : ascii) :
  Js.is_name_char c = true -> Js.is_space c = false.
Proof.
  destruct c as [[] [] [] [] [] [] [] []]; vm_compute; congruence.
Qed.

(** White space followed by text that does not begin with white space and
    holds no CR and no LF: the continuation literal matches, and group 1 is
    that text. *)
Lemma continuation_plain (ws rest : string) :
  ws <> "" -> Js.all_chars Js.is_space ws = true ->
  rest <> "" -> Js.head_fails Js.is_space rest = true ->
  Js.all_chars Js.not_crlf rest = true ->
  Re.continuation (ws +:+ rest) = Some rest.
Proof.
  intros Hws Hsp Hrest Hhead Hall.
  assert (Hafter : forall w, Js.all_chars Js.is_space w = true ->
                     Re.after_space (w +:+ rest) = Some rest).
  { induction w as [|d w IH]; intros Hw.
    - destruct rest as [|c r]; [congruence|]. simpl in *.
      destruct (Js.is_space c); [discriminate Hhead|].
      apply andb_true_iff in Hall as [Hc Hr]. rewrite Hc.
      destruct (take_while_all _ _ Hr) as [-> _]. reflexivity.
    - simpl in Hw. apply andb_true_iff in Hw as [Hd Hw].
      change (String d w +:+ rest) with (String d (w +:+ rest)). simpl.
      rewrite Hd, (IH Hw). reflexivity. }
  destruct ws as [|c ws]; [congruence|].
  simpl in Hsp. apply andb_true_iff in Hsp as [Hc Hsp].
  change (String c ws +:+ rest) with (String c (ws +:+ rest)).
  unfold Re.continuation. rewrite Hc. apply Hafter. exact Hsp.
Qed.

(** A name, a colon, white space and a value that does not begin with white
    space and holds no CR and no LF: the line is not a continuation line,
    and the header literal gives the name and the value. *)
Lemma header_plain (name ws value : string) :
  name <> "" -> Js.all_chars Js.is_name_char name = true ->
  Js.all_chars Js.is_space ws = true ->
  Js.head_fails Js.is_space value = true ->
  Js.all_chars Js.not_crlf value = true ->
  let line := name +:+ ":" +:+ ws +:+ value in
  Js.is_empty line = false /\ Re.continuation line = None /\
  Re.header line = Some (name, value).
Proof.
  intros Hname Hall Hws Hhead Hval line. subst line.
  destruct (take_drop_app Js.is_name_char name (":" +:+ ws +:+ value) Hall eq_refl)
    as [Ht Hd].
  destruct (take_drop_app Js.is_space ws value Hws Hhead) as [_ Hd'].
  destruct (take_while_all _ _ Hval) as [Hv _].
  split; [|split].
  - destruct name; [congruence | reflexivity].
  - destruct name as [|c name]; [congruence|].
    simpl in Hall. apply andb_true_iff in Hall as [Hc _].
    change (String c name +:+ ":" +:+ ws +:+ value)
      with (String c (name +:+ ":" +:+ ws +:+ value)).
    unfold Re.continuation. rewrite (name_char_not_space _ Hc). reflexivity.
  - unfold Re.header. rewrite Ht, Hd.
    destruct name; [congruence|]. cbn [Js.is_empty].
    change (":" +:+ ws +:+ value) with (String ":" (ws +:+ value)).
    cbv iota. change ((Js.code ":" =? 58)%N) with true. cbv iota.
    rewrite Hd', Hv. reflexivity.
Qed.

(** What the header section does with a line, elsewhere. While the scan is
    in the header section:
    - a line made of white space followed by text (text that does not begin
      with white space and holds no CR) appends CR LF and that text to the
      value of the header named last, or to the last element of that value
      when it is a list, and leaves that name as it is;
    - a line [Name: value] makes [Name] the header named last; when the name
      has a non-empty string value so far, that value and the new one make a
      list; when the value so far is a list, the new value is appended to
      it; and when the name is new, it gets the value as a string. *)
Lemma header_folding (gb : JsProp -> option string) (o : Options)
    (rec : list string -> Result Part) (lines : list string)
    (prev : option string) (line : string) (tl : list string) (st : PState) :
  Reaches gb o rec None lines initial_state prev (line :: tl) st ->
  insideBody st = false ->
  (forall ws rest, line = ws +:+ rest ->
     ws <> "" -> Js.all_chars Js.is_space ws = true ->
     rest <> "" -> Js.head_fails Js.is_space rest = true ->
     Js.all_chars Js.not_crlf rest = true ->
     let n := lastHeaderName st in
     exists st', step gb o rec prev line (line :: tl) st = Continue st' /\
       lastHeaderName st' = n /\
       match parent_headers st !! n with
       | Some (HStr v) =>
           parent_headers st' !! n = Some (HStr (v +:+ Js.crlf +:+ rest))
       | Some (HArr l) =>
           exists l0 x, l = l0 ++ [x] /\
             parent_headers st' !! n = Some (HArr (l0 ++ [x +:+ Js.crlf +:+ rest]))
       | None => True
       end) /\
  (forall name ws value, line = name +:+ ":" +:+ ws +:+ value ->
     name <> "" -> Js.all_chars Js.is_name_char name = true ->
     Js.all_chars Js.is_space ws = true ->
     Js.head_fails Js.is_space value = true ->
     Js.all_chars Js.not_crlf value = true ->
     match parent_headers st !! name with
     | Some (HStr v) =>
         v <> "" ->
         exists st', step gb o rec prev line (line :: tl) st = Continue st' /\
           lastHeaderName st' = name /\
           parent_headers st' !! name = Some (HArr [v; value])
     | Some (HArr l) =>
         exists st', step gb o rec prev line (line :: tl) st = Continue st' /\
           lastHeaderName st' = name /\
           parent_headers st' !! name = Some (HArr (l ++ [value]))
     | None =>
         is_inherited name = false ->
         exists st', step gb o rec prev line (line :: tl) st = Continue st' /\
           lastHeaderName st' = name /\
           parent_headers st' !! name = Some (HStr value)
     end).
Proof.
  intros Hreach Hin.
  pose proof (reachable_sane _ _ _ _ _ _ _ _ _ Hreach initial_sane)
    as (_ & Hproto & Hlast & Hmulti).
  split.
  - intros ws rest -> Hws Hsp Hrest Hhead Hall n.
    assert (Hne : Js.is_empty (ws +:+ rest) = false)
      by (destruct ws; [congruence | reflexivity]).
    unfold step. rewrite Hin, Hne, (continuation_plain _ _ Hws Hsp Hrest Hhead Hall).
    simpl negb. cbv iota. unfold step_continuation. fold n.
    destruct (isMultiHeader st).
    + destruct Hmulti as (l & x & Hlk). fold n in Hlk.
      apply get_prop_arr in Hlk as Hg. rewrite Hg, last_snoc, Hlk.
      eexists. split; [reflexivity|]. split; [reflexivity|].
      exists l, x. split; [reflexivity|].
      simpl. rewrite (set_prop_ne _ _ _ Hlast), removelast_last.
      apply lookup_insert_eq.
    + fold n in Hmulti. eexists. split; [reflexivity|]. split; [reflexivity|].
      destruct (parent_headers st !! n) as [[v|l]|] eqn:Hlk; [| |exact I].
      * simpl. rewrite (set_prop_ne _ _ _ Hlast).
        apply get_prop_str in Hlk. rewrite Hlk. apply lookup_insert_eq.
      * destruct (Hmulti l eq_refl).
  - intros name ws value -> Hname Hnc Hws Hhead Hval.
    destruct (header_plain name ws value Hname Hnc Hws Hhead Hval)
      as (Hne & Hcont & Hhdr).
    unfold step. rewrite Hin, Hne, Hcont, Hhdr. simpl negb. cbv iota.
    unfold step_header.
    destruct (parent_headers st !! name) as [[v|l]|] eqn:Hlk.
    + intros Hv. apply get_prop_str in Hlk as Hg. rewrite Hg. simpl.
      destruct v; [congruence|]. simpl.
      assert (Hn : name <> "__proto__") by (intros ->; congruence).
      eexists. split; [reflexivity|]. split; [reflexivity|]. simpl.
      rewrite (set_prop_ne _ _ _ Hn). apply lookup_insert_eq.
    + apply get_prop_arr in Hlk as Hg. rewrite Hg. simpl.
      assert (Hn : name <> "__proto__") by (intros ->; congruence).
      eexists. split; [reflexivity|]. split; [reflexivity|]. simpl.
      rewrite (set_prop_ne _ _ _ Hn). apply lookup_insert_eq.
    + intros Hinh. unfold get_prop. rewrite Hlk, Hinh. simpl.
      assert (Hn : name <> "__proto__") by (intros ->; discriminate Hinh).
      eexists. split; [reflexivity|]. split; [reflexivity|]. simpl.
      rewrite (set_prop_ne _ _ _ Hn). apply lookup_insert_eq.
Qed.

(** C6. The code at a header name that comes again after an empty value:
    while the scan is in the header section, a line [Name: value] whose name
    holds the empty string so far does not make a list of the two values;
    the new value takes the place of the empty one, as for a name that has
    not come before. *)
Theorem repeated_name_after_empty_value (gb : JsProp -> option string)
    (o : Options) (rec : list string -> Result Part) (lines : list string)
    (prev : option string) (tl : list string) (st : PState)
    (name ws value : string) :
  let line := name +:+ ":" +:+ ws +:+ value in
  Reaches gb o rec None lines initial_state prev (line :: tl) st ->
  insideBody st = false ->
  name <> "" -> Js.all_chars Js.is_name_char name = true ->
  Js.all_chars Js.is_space ws = true ->
  Js.head_fails Js.is_space value = true ->
  Js.all_chars Js.not_crlf value = true ->
  parent_headers st !! name = Some (HStr "") ->
  exists st',
    step gb o rec prev line (line :: tl) st = Continue st' /\
    parent_headers st' !! name = Some (HStr value) /\
    parent_headers st' !! name <> Some (HArr [""; value]).
Proof.
  intros line Hreach Hin Hname Hnc Hws Hhead Hval Hlk.
  destruct (header_plain name ws value Hname Hnc Hws Hhead Hval)
    as (Hne & Hcont & Hhdr).
  fold line in Hne, Hcont, Hhdr.
  unfold step. rewrite Hin, Hne, Hcont, Hhdr. simpl negb. cbv iota.
  unfold step_header. apply get_prop_str in Hlk as Hg. rewrite Hg.
  cbn [truthy Js.is_empty negb].
  assert (Hn : name <> "__proto__").
  { pose proof (reachable_sane _ _ _ _ _ _ _ _ _ Hreach initial_sane)
      as (_ & Hproto & _).
    intros ->. congruence. }
  eexists. split; [reflexivity|].
  cbn [set_headers parent_headers]. rewrite (set_prop_ne _ _ _ Hn).
  rewrite lookup_insert_eq. split; [reflexivity | discriminate].
Qed.

Lemma repeated_name_after_empty_value_witness :
  exists st',
    step Sample.getBoundary (Some false)
         (parseRecursive Sample.getBoundary (Some false) 4)
         (Some "X:") "X: b" ["X: b"; ""; "body"] Ex.after_empty_value
      = Continue st' /\
    parent_headers st' !! "X" = Some (HStr "b") /\
    parent_headers st' !! "X" <> Some (HArr [""; "b"]).
Proof.
  apply (repeated_name_after_empty_value Sample.getBoundary (Some false)
           (parseRecursive Sample.getBoundary (Some false) 4)
           Ex.empty_then_value_lines (Some "X:") [""; "body"]
           Ex.after_empty_value "X" " " "b").
  - eapply reaches_step; [vm_compute; reflexivity|]. apply reaches_here.
  - reflexivity.
  - discriminate.
  - reflexivity.
  - reflexivity.
  - reflexivity.
  - reflexivity.
  - vm_compute. reflexivity.
Defined.

(** On the lines [Y: 1], [Y: 2] and a continuation line, the text of the
    last line goes to the last element of the list under [Y]. *)
Lemma header_folding_example :
  exists st',
    step Sample.getBoundary (Some false)
         (parseRecursive Sample.getBoundary (Some false) 3)
         (Some "Y: 2") " more" [" more"] Ex.two_Y = Continue st' /\
    lastHeaderName st' = "Y" /\
    exists l0 x, ["1"; "2"] = l0 ++ [x] /\
      parent_headers st' !! "Y" = Some (HArr (l0 ++ [x +:+ Js.crlf +:+ "more"])).
Proof.
  destruct (header_folding Sample.getBoundary (Some false)
              (parseRecursive Sample.getBoundary (Some false) 3)
              Ex.folded_lines (Some "Y: 2") " more" [] Ex.two_Y) as [H _].
  - eapply reaches_step; [vm_compute; reflexivity|].
    eapply reaches_step; [vm_compute; reflexivity|].
    apply reaches_here.
  - reflexivity.
  - specialize (H " " "more" eq_refl ltac:(discriminate) eq_refl
                  ltac:(discriminate) eq_refl eq_refl).
    cbv zeta in H.
    assert (Hl : parent_headers Ex.two_Y !! lastHeaderName Ex.two_Y
                 = Some (HArr ["1"; "2"])) by (vm_compute; reflexivity).
    rewrite Hl in H. exact H.
Qed.

(** The same on a message: the empty value under [X] is gone from the tree
    that [parse] returns. *)
Lemma empty_value_is_overwritten :
  fst (parse Sample.getBoundary (Some Ex.empty_then_value) OptUndefined None)
    = ReturnsValue Ex.empty_then_value_tree.
Proof. vm_compute. reflexivity. Qed.

(** ** C4: the two resolvers *)

Section TwoResolvers.

Variable gb : JsProp -> option string.
Variable o : Options.
Variable rec : list string -> Result Part.
Variable crec : string -> list string -> Result (option Item * list string).

(** A line matched by the header literal is not a continuation line. *)
Lemma header_not_continuation (line name value : string) :
  Re.header line = Some (name, value) -> Re.continuation line = None.
Proof.
  unfold Re.header, Re.continuation. destruct line as [|c r]; [discriminate|].
  simpl. destruct (Js.is_name_char c) eqn:Hc; [|discriminate].
  rewrite (name_char_not_space _ Hc). reflexivity.
Qed.

Lemma header_name_nonempty (line name value : string) :
  Re.header line = Some (name, value) -> name <> "".
Proof.
  unfold Re.header. destruct (Js.is_empty (Js.take_while _ line)) eqn:E;
    [discriminate|].
  destruct (Js.drop_while _ line) as [|c r]; [discriminate|].
  destruct (Js.code c =? 58)%N; [|discriminate].
  intros [= <- _] H. rewrite H in E. discriminate E.
Qed.

(** On a line of a header section with fresh names, the loop of
    [parseRecursive] does what the header step of [completeBoundary] does. *)
Lemma header_step_agrees (prev : option string) (line : string)
    (rest : list string) (c : CState) (seen : list string) :
  Js.is_empty line = false ->
  match Re.header line with
  | Some (name, _) => is_inherited name = false /\ name ∉ seen
  | None => True
  end ->
  (forall k, is_Some (c_headers c !! k) -> k ∈ seen) ->
  step gb o rec prev line rest (pstate_of c)
    = Continue (pstate_of (cstep_header line c)).
Proof.
  intros Hne Hfresh Hdom. unfold step, cstep_header. simpl insideBody.
  simpl negb. cbv iota. rewrite Hne.
  destruct (Re.header line) as [[name value]|] eqn:Hh.
  - rewrite (header_not_continuation _ _ _ Hh).
    destruct Hfresh as [Hinh Hseen].
    assert (Hg : get_prop (c_headers c) name = PUndefined).
    { unfold get_prop. destruct (c_headers c !! name) eqn:Hl.
      - exfalso. apply Hseen, Hdom. rewrite Hl. eauto.
      - simpl. rewrite Hinh. reflexivity. }
    unfold step_header. simpl parent_headers. rewrite Hg. reflexivity.
  - destruct (Re.continuation line) as [m|]; reflexivity.
Qed.

Lemma cstep_header_keys (line : string) (c : CState) (seen : list string) :
  Js.is_empty line = false ->
  (forall k, is_Some (c_headers c !! k) -> k ∈ seen) ->
  c_lastHeaderName c ∈ seen ->
  let seen' := match Re.header line with
               | Some (name, _) => name :: seen
               | None => seen
               end in
  (forall k, is_Some (c_headers (cstep_header line c) !! k) -> k ∈ seen') /\
  c_lastHeaderName (cstep_header line c) ∈ seen' /\
  c_insideBody (cstep_header line c) = c_insideBody c /\
  c_body (cstep_header line c) = c_body c /\
  childBoundary (cstep_header line c) = childBoundary c /\
  c_spliced (cstep_header line c) = c_spliced c.
Proof.
  intros Hne Hdom Hlast. unfold cstep_header. rewrite Hne.
  assert (Hset : forall k' v (S : list string), k' ∈ S ->
            (forall k, is_Some (c_headers c !! k) -> k ∈ S) ->
            forall k, is_Some (set_prop (c_headers c) k' v !! k) -> k ∈ S).
  { intros k' v S Hk' HS k. unfold set_prop.
    destruct (String.eqb k' "__proto__"); [apply HS|].
    destruct (decide (k' = k)) as [<-|Hneq]; [auto|].
    rewrite lookup_insert_ne by exact Hneq. apply HS. }
  destruct (Re.header line) as [[name value]|]; simpl.
  - repeat split; try set_solver.
    apply Hset; [set_solver|]. intros k Hk. specialize (Hdom k Hk). set_solver.
  - destruct (Re.continuation line) as [m|]; simpl; repeat split; auto.
    apply Hset; assumption.
Qed.

(** Through a header section with fresh names the two loops stay together. *)
Lemma header_phase (hdrs rest : list string) :
  forall (c : CState) (seen : list string) (prev : option string),
    fresh_headers seen hdrs = true ->
    (forall k, is_Some (c_headers c !! k) -> k ∈ seen) ->
    c_lastHeaderName c ∈ seen ->
    c_insideBody c = false ->
    let c' := fold_left (fun c line => cstep_header line c) hdrs c in
    exists prev',
      scan gb o rec prev (hdrs ++ rest) (pstate_of c)
        = scan gb o rec prev' rest (pstate_of c') /\
      cscan gb crec prev (hdrs ++ rest) c = cscan gb crec prev' rest c' /\
      c_insideBody c' = false /\ c_body c' = c_body c /\
      childBoundary c' = childBoundary c /\ c_spliced c' = c_spliced c.
Proof.
  induction hdrs as [|line hdrs IH]; intros c seen prev Hfresh Hdom Hlast Hin.
  - simpl. exists prev. auto 10.
  - simpl in Hfresh. apply andb_true_iff in Hfresh as [Hne Hfresh].
    apply negb_true_iff in Hne.
    destruct (cstep_header_keys line c seen Hne Hdom Hlast)
      as (Hdom' & Hlast' & Hin' & Hbody' & Hchild' & Hsp').
    assert (Hstep : step gb o rec prev line (line :: hdrs ++ rest) (pstate_of c)
                    = Continue (pstate_of (cstep_header line c))).
    { apply (header_step_agrees prev line _ c seen Hne); [|exact Hdom].
      destruct (Re.header line) as [[name value]|]; [|exact I].
      apply andb_true_iff in Hfresh as [Hfresh _].
      apply andb_true_iff in Hfresh as [Hinh Hseen].
      apply negb_true_iff in Hinh. apply negb_true_iff in Hseen.
      split; [exact Hinh|]. apply bool_decide_eq_false in Hseen. exact Hseen. }
    assert (Hfresh' : fresh_headers
              match Re.header line with
              | Some (name, _) => name :: seen
              | None => seen
              end hdrs = true).
    { destruct (Re.header line) as [[name value]|]; [|exact Hfresh].
      apply andb_true_iff in Hfresh as [_ Hfresh]. exact Hfresh. }
    rewrite Hin in Hin'.
    destruct (IH (cstep_header line c) _ (Some line) Hfresh' Hdom' Hlast' Hin')
      as (prev' & Hs & Hc & Hi & Hb & Hch & Hsp).
    exists prev'. cbn [app scan cscan fold_left]. rewrite Hstep, Hin. simpl negb.
    cbv iota. rewrite Hs, Hc. repeat split; auto; congruence.
Qed.

(** The marker literal matches only lines that begin with two dashes. *)
Lemma marker_needs_dashes (line : string) :
  Js.starts_with "--" line = false -> Re.marker line = None.
Proof.
  intros H. unfold Re.marker. destruct line as [|a [|b r]]; try reflexivity.
  destruct (Js.code a =? 45)%N eqn:Ha; [|reflexivity].
  destruct (Js.code b =? 45)%N eqn:Hb; [|reflexivity].
  apply code_eq in Ha; [|reflexivity]. apply code_eq in Hb; [|reflexivity].
  subst a b. cbv in H. destruct r; discriminate H.
Qed.

End TwoResolvers.

(** On the lines of a leaf part the bottom-up [completeBoundary] wraps
    exactly the part that the top-down [parseRecursive] produces. *)
Lemma leaf_agreement (gb : JsProp -> option string) (o : Options)
    (f1 f2 : nat) (b : string) (hdrs body : list string) :
  headersOnly o = false -> b <> "" ->
  fresh_headers [""] hdrs = true ->
  truthy (content_type_of (c_headers (header_section hdrs))) = true ->
  Re.is_multipart (content_type_of (c_headers (header_section hdrs))) = false ->
  match body with
  | l :: _ => Js.starts_with "--" l = false
  | [] => True
  end ->
  exists p,
    parseRecursive gb o (S f1) (hdrs ++ "" :: body) = Ok p /\
    completeBoundary gb (S f2) b (hdrs ++ "" :: body)
      = Ok (Some (IBoundary b None (Some p))).
Proof.
  intros Ho Hb Hfresh Hct Hmp Hbody.
  destruct (header_phase gb o (parseRecursive gb o f1) (completeBoundary_call gb f2)
              hdrs ("" :: body) cinit [""] None Hfresh)
    as (prev' & Hs & Hc & Hin & Hbd & Hch & Hsp).
  { intros k [v Hv]. simpl in Hv. rewrite lookup_empty in Hv. discriminate. }
  { set_solver. }
  { reflexivity. }
  fold (header_section hdrs) in Hs, Hc, Hin, Hbd, Hch.
  set (c := header_section hdrs) in *.
  exists (MkPart (Some (c_headers c))
            match body with
            | [] => BUnset
            | _ => BStr (Js.join Js.crlf body)
            end).
  split.
  - cbn [parseRecursive]. change initial_state with (pstate_of cinit).
    rewrite Hs. cbn [scan]. unfold step at 1, step_blank. cbn [pstate_of insideBody].
    simpl negb. cbv iota. cbn [Js.is_empty]. rewrite Ho.
    cbn [set_insideBody parent_headers]. rewrite Hct. simpl negb. cbv iota.
    change (parent_headers (pstate_of c)) with (c_headers c). rewrite Hmp.
    destruct body as [|l r]; reflexivity.
  - unfold completeBoundary. cbn [completeBoundary_call].
    destruct b as [|x b']; [congruence|].
    cbn [Js.is_empty]. fold cinit. rewrite Hc. cbn [cscan]. rewrite Hin.
    simpl negb. cbv iota. unfold cstep_header at 1. cbn [Js.is_empty].
    destruct body as [|l r].
    + cbn [cscan c_headers c_body]. rewrite Hbd. reflexivity.
    + cbn [cscan c_insideBody]. simpl negb. cbv iota.
      unfold cstep_body. rewrite (marker_needs_dashes _ Hbody).
      cbn [childBoundary]. rewrite Hch. reflexivity.
Qed.

(** *** The two loops in a multipart body *)

Lemma starts_with_refl (p : string) : Js.starts_with p p = true.
Proof. rewrite <- (append_nil_r p) at 2. apply starts_with_app. Qed.

Lemma starts_with_app_false (p q s : string) :
  Js.starts_with p s = false -> Js.starts_with (p +:+ q) s = false.
Proof.
  intros H. destruct (Js.starts_with (p +:+ q) s) eqn:E; [|reflexivity].
  apply starts_with_inv in E as [r ->]. rewrite append_assoc, starts_with_app in H.
  discriminate H.
Qed.

Lemma length_append (a b : string) :
  String.length (a +:+ b) = String.length a + String.length b.
Proof.
  induction a as [|x a IH]; [reflexivity|].
  change (String x a +:+ b) with (String x (a +:+ b)). simpl. now rewrite IH.
Qed.

Lemma starts_with_longer (p q : string) :
  q <> "" -> Js.starts_with (p +:+ q) p = false.
Proof.
  intros Hq. destruct (Js.starts_with (p +:+ q) p) eqn:E; [|reflexivity].
  apply starts_with_inv in E as [r Hr]. exfalso.
  apply (f_equal String.length) in Hr.
  rewrite !length_append in Hr. destruct q; [congruence|]. simpl in Hr. lia.
Qed.

Lemma last_or_cons (prev : option string) (line : string) (cl : list string) :
  last_or (Some line) cl = last_or prev (line :: cl).
Proof.
  unfold last_or. destruct cl as [|x cl']; [reflexivity|].
  rewrite last_cons_cons. destruct (last (x :: cl')) eqn:E; [reflexivity|].
  apply last_None in E. discriminate E.
Qed.

Section MultipartBody.

Variable gb : JsProp -> option string.
Variable o : Options.
Variable rec : list string -> Result Part.
Variable crec : string -> list string -> Result (option Item * list string).
Variable c : CState.
Variable fb : string.
Hypothesis Hfb : fb <> "".
Hypothesis Hplain : Js.all_chars Js.not_crlf fb = true.

Lemma fb_not_empty : Js.is_empty fb = false.
Proof. destruct fb; [congruence | reflexivity]. Qed.

Lemma marker_exact : Re.marker ("--" +:+ fb) = Some fb.
Proof.
  rewrite <- (append_nil_r fb) at 1. rewrite (marker_plain fb "" Hfb).
  - now rewrite append_nil_r.
  - now rewrite append_nil_r.
Qed.

Lemma closing_is_not_start :
  Js.starts_with ("--" +:+ fb +:+ "--") ("--" +:+ fb) = false.
Proof.
  rewrite <- append_assoc. apply starts_with_longer. discriminate.
Qed.

Lemma current_pbody (inside : bool) (done : list Item) (x : Item) :
  current_boundary (pbody c fb inside (done ++ [x])) = Some x.
Proof. unfold current_boundary, pbody. simpl. apply last_snoc. Qed.

Lemma set_current_pbody (inside : bool) (done : list Item) (x y : Item) :
  set_current_boundary y (pbody c fb inside (done ++ [x]))
    = pbody c fb inside (done ++ [y]).
Proof.
  unfold set_current_boundary, pbody, set_body. simpl.
  now rewrite replace_last_snoc.
Qed.

(** A line of a part is added to the lines of the open boundary. *)
Lemma p_collect prev line rest done acc :
  Js.starts_with ("--" +:+ fb) line = false ->
  step gb o rec prev line rest
       (pbody c fb true (done ++ [IBoundary fb (Some acc) None]))
    = Continue (pbody c fb true (done ++ [IBoundary fb (Some (acc ++ [line])) None])).
Proof.
  intros Hline. unfold step. cbn [pbody insideBody isMultipart findBoundary insideBoundary].
  simpl negb. cbv iota. rewrite Hline. simpl andb. cbv iota.
  unfold step_inside. cbn [findBoundary pbody].
  assert (Hclose : Js.starts_with ("--" +:+ fb +:+ "--") line = false).
  { rewrite <- append_assoc. apply starts_with_app_false. exact Hline. }
  rewrite Hclose, !andb_false_r, current_pbody, set_current_pbody. reflexivity.
Qed.

Lemma complete_pbody (inside : bool) (done : list Item) (acc : list string)
    (p : Part) :
  rec acc = Ok p ->
  complete_current rec (IBoundary fb (Some acc) None)
    (pbody c fb inside (done ++ [IBoundary fb (Some acc) None]))
  = Ok (pbody c fb inside (done ++ [IBoundary fb None (Some p)])).
Proof.
  intros Hrec. unfold complete_current, complete. rewrite Hrec.
  now rewrite set_current_pbody.
Qed.

(** The first marker opens a boundary. *)
Lemma p_first_marker prev rest :
  step gb o rec prev ("--" +:+ fb) rest (pbody c fb false [])
    = Continue (pbody c fb true ([] ++ [IBoundary fb (Some []) None])).
Proof.
  unfold step. cbn [pbody insideBody isMultipart findBoundary insideBoundary].
  change (negb true) with false. cbv iota.
  rewrite starts_with_refl, closing_is_not_start.
  change (true && negb false) with true. cbv iota. unfold step_marker, complete_open.
  cbn [current_boundary set_insideBoundary parent_body body_items last].
  rewrite marker_exact. reflexivity.
Qed.

(** A further marker resolves the open boundary and opens the next one. *)
Lemma p_marker prev rest done acc p :
  rec acc = Ok p ->
  step gb o rec prev ("--" +:+ fb) rest
       (pbody c fb true (done ++ [IBoundary fb (Some acc) None]))
    = Continue (pbody c fb true
                  ((done ++ [IBoundary fb None (Some p)])
                   ++ [IBoundary fb (Some []) None])).
Proof.
  intros Hrec. unfold step.
  cbn [pbody insideBody isMultipart findBoundary insideBoundary].
  change (negb true) with false. cbv iota.
  rewrite starts_with_refl, closing_is_not_start.
  change (true && negb false) with true. cbv iota. unfold step_marker, complete_open.
  change (set_insideBoundary true ?st) with st.
  change (set_insideBoundary true
            (MkPState (c_headers c) (BArr (done ++ [IBoundary fb (Some acc) None]))
               (c_lastHeaderName c) fb true true false true false false))
    with (pbody c fb true (done ++ [IBoundary fb (Some acc) None])).
  rewrite current_pbody. cbn [has_lines].
  rewrite (complete_pbody _ _ _ _ Hrec), marker_exact. reflexivity.
Qed.

(** The closing marker after a blank line resolves the open boundary. *)
Lemma p_closing rest done acc p :
  rec acc = Ok p ->
  step gb o rec (Some "") ("--" +:+ fb +:+ "--") rest
       (pbody c fb true (done ++ [IBoundary fb (Some acc) None]))
    = Continue (pbody c fb false (done ++ [IBoundary fb None (Some p)])).
Proof.
  intros Hrec. unfold step.
  cbn [pbody insideBody isMultipart findBoundary insideBoundary].
  change (negb true) with false. cbv iota.
  rewrite starts_with_refl. change (negb true) with false.
  rewrite andb_false_r. cbv iota.
  unfold step_inside. cbn [findBoundary].
  change (MkPState (c_headers c) (BArr (done ++ [IBoundary fb (Some acc) None]))
            (c_lastHeaderName c) fb true true false true false false)
    with (pbody c fb true (done ++ [IBoundary fb (Some acc) None])).
  rewrite current_pbody, starts_with_refl. cbn [has_delimiter].
  rewrite fb_not_empty, bool_decide_eq_true_2 by reflexivity.
  change (negb false && true && true) with true. cbv iota.
  change (set_insideBoundary false (pbody c fb true ?items))
    with (pbody c fb false items).
  rewrite (complete_pbody _ _ _ _ Hrec). reflexivity.
Qed.

(** After the closing marker a line that is no marker is passed over. *)
Lemma p_after prev line rest items :
  Js.starts_with ("--" +:+ fb) line = false ->
  step gb o rec prev line rest (pbody c fb false items)
    = Continue (pbody c fb false items).
Proof.
  intros Hline. unfold step.
  cbn [pbody insideBody isMultipart findBoundary insideBoundary].
  change (negb true) with false. cbv iota. rewrite Hline. reflexivity.
Qed.

Lemma p_finish done p :
  finish rec (pbody c fb false (done ++ [IBoundary fb None (Some p)]))
    = Ok (pbody c fb false (done ++ [IBoundary fb None (Some p)])).
Proof. unfold finish, complete_open. rewrite current_pbody. reflexivity. Qed.

(** The same steps in [completeBoundary]. *)

Hypothesis Hgb : gb (content_type_of (c_headers c)) = Some fb.

Lemma child_prefix_fb : child_prefix gb (c_headers c) = "--" +:+ fb.
Proof. unfold child_prefix. now rewrite Hgb. Qed.

Lemma c_first_marker prev next rest b :
  cstep_body gb crec prev next ("--" +:+ fb) rest (cbody c b None)
    = CContinue (cbody c b (Some (fb, []))).
Proof.
  unfold cstep_body. rewrite marker_exact. cbn [childBoundary cbody c_headers].
  rewrite child_prefix_fb, starts_with_refl. reflexivity.
Qed.

Lemma c_collect prev next line rest b acc :
  Js.starts_with ("--" +:+ fb) line = false ->
  cstep_body gb crec prev next line rest (cbody c b (Some (fb, acc)))
    = CContinue (cbody c b (Some (fb, acc ++ [line]))).
Proof.
  intros Hline. unfold cstep_body. cbn [childBoundary cbody].
  rewrite fb_not_empty, Hline, andb_false_r.
  destruct (Re.marker line); reflexivity.
Qed.

Lemma c_marker next rest b acc acc' child n :
  crec fb acc = Ok (Some child, acc') -> next = Some n -> Js.is_empty n = false ->
  cstep_body gb crec (Some "") next ("--" +:+ fb) rest (cbody c b (Some (fb, acc)))
    = CContinue (cbody c (push_child child b) (Some (fb, []))).
Proof.
  intros Hrec -> Hn. unfold cstep_body. cbn [childBoundary cbody c_body].
  rewrite marker_exact, fb_not_empty, starts_with_refl, Hrec, Hn.
  rewrite bool_decide_eq_true_2 by reflexivity. reflexivity.
Qed.

Lemma c_closing_break rest b acc acc' child :
  crec fb acc = Ok (Some child, acc') ->
  cstep_body gb crec (Some "") (Some "") ("--" +:+ fb +:+ "--") rest
             (cbody c b (Some (fb, acc)))
    = CBreak (cbody c (push_child child b) None).
Proof.
  intros Hrec. unfold cstep_body. cbn [childBoundary cbody c_body].
  assert (Hs : Js.starts_with ("--" +:+ fb) ("--" +:+ fb +:+ "--") = true)
    by (rewrite <- append_assoc; apply starts_with_app).
  rewrite fb_not_empty, Hs, Hrec, starts_with_refl.
  rewrite !bool_decide_eq_true_2 by reflexivity.
  destruct (Re.marker _); reflexivity.
Qed.

Lemma c_closing_end rest b acc acc' child :
  crec fb acc = Ok (Some child, acc') ->
  cstep_body gb crec (Some "") None ("--" +:+ fb +:+ "--") rest
             (cbody c b (Some (fb, acc)))
    = CContinue (cbody c (push_child child b)
                   (Some (fb, acc' ++ ["--" +:+ fb +:+ "--"]))).
Proof.
  intros Hrec. unfold cstep_body. cbn [childBoundary cbody c_body].
  assert (Hs : Js.starts_with ("--" +:+ fb) ("--" +:+ fb +:+ "--") = true)
    by (rewrite <- append_assoc; apply starts_with_app).
  rewrite fb_not_empty, Hs, Hrec, starts_with_refl.
  rewrite bool_decide_eq_true_2 by reflexivity.
  rewrite bool_decide_eq_false_2 by discriminate.
  destruct (Re.marker _); reflexivity.
Qed.

(** The lines of a child are collected alike by the two loops. *)
Lemma collect_lines (cl rest : list string) :
  Forall (fun l => Js.starts_with ("--" +:+ fb) l = false) cl ->
  forall prev done acc b,
    scan gb o rec prev (cl ++ rest)
         (pbody c fb true (done ++ [IBoundary fb (Some acc) None]))
      = scan gb o rec (last_or prev cl) rest
             (pbody c fb true (done ++ [IBoundary fb (Some (acc ++ cl)) None])) /\
    cscan gb crec prev (cl ++ rest) (cbody c b (Some (fb, acc)))
      = cscan gb crec (last_or prev cl) rest (cbody c b (Some (fb, acc ++ cl))).
Proof.
  induction 1 as [|line cl Hline _ IH]; intros prev done acc b.
  - rewrite app_nil_r. auto.
  - cbn [app scan cscan]. rewrite (p_collect _ _ _ _ _ Hline).
    cbn [c_insideBody cbody]. change (negb true) with false. cbv iota.
    rewrite (c_collect _ _ _ _ _ _ Hline).
    destruct (IH (Some line) done (acc ++ [line]) b) as [-> ->].
    rewrite <- !app_assoc. cbn [app].
    rewrite (last_or_cons prev line cl). auto.
Qed.

Lemma push_children (done : list Item) (child : Item) :
  push_child child (children_body done) = BArr (done ++ [child]).
Proof. destruct done; reflexivity. Qed.

Lemma children_body_snoc (done : list Item) (child : Item) :
  children_body (done ++ [child]) = BArr (done ++ [child]).
Proof. destruct done; reflexivity. Qed.

Lemma multipart_lines_cons (cl : list string) (children : list (list string))
    (tail : list string) :
  multipart_lines fb (cl :: children) tail
    = ("--" +:+ fb) :: cl ++ multipart_lines fb children tail.
Proof. unfold multipart_lines. simpl. now rewrite <- app_assoc. Qed.

(** From a child whose lines are collected to the end of the body, the two
    loops build the same list of resolved children. *)
Lemma rest_children (tail : list string) :
  tail = [] \/ tail = [""] ->
  forall (children : list (list string)) (done : list Item) (acc : list string),
    agrees rec crec fb acc ->
    Forall (fun cl => child_lines_ok fb cl /\ agrees rec crec fb cl) children ->
    exists all p cst,
      scan gb o rec (Some "") (multipart_lines fb children tail)
           (pbody c fb true (done ++ [IBoundary fb (Some acc) None]))
        = Ok (pbody c fb false (all ++ [IBoundary fb None (Some p)])) /\
      cscan gb crec (Some "") (multipart_lines fb children tail)
            (cbody c (children_body done) (Some (fb, acc))) = Ok cst /\
      c_headers cst = c_headers c /\
      c_body cst = BArr (all ++ [IBoundary fb None (Some p)]).
Proof.
  intros Htail. induction children as [|cl children IH]; intros done acc Hacc Hch.
  - destruct Hacc as (p & acc' & Hr & Hc). exists done, p.
    unfold multipart_lines. cbn [flat_map app].
    destruct Htail as [-> | ->].
    + eexists. cbn [scan cscan head c_insideBody cbody].
      change (negb true) with false. cbv iota.
      rewrite (p_closing _ _ _ _ Hr), (c_closing_end _ _ _ _ _ Hc), push_children.
      repeat split.
    + eexists. cbn [scan cscan head c_insideBody cbody].
      change (negb true) with false. cbv iota.
      rewrite (p_closing _ _ _ _ Hr), (c_closing_break _ _ _ _ _ Hc), push_children.
      rewrite (p_after (Some ("--" +:+ fb +:+ "--")) "" [""] _ eq_refl).
      repeat split.
  - destruct Hacc as (p & acc' & Hr & Hc).
    apply Forall_cons in Hch as [[(Hno & (n & Hhead & Hn) & Hlast) Hcl] Hch].
    rewrite multipart_lines_cons. cbn [scan cscan c_insideBody cbody].
    change (negb true) with false. cbv iota.
    rewrite (p_marker _ _ _ _ _ Hr).
    assert (Hnext : head (cl ++ multipart_lines fb children tail) = Some n)
      by (destruct cl; [discriminate Hhead | exact Hhead]).
    rewrite (c_marker _ _ _ _ _ _ n Hc Hnext Hn), push_children.
    destruct (collect_lines cl (multipart_lines fb children tail) Hno
                (Some ("--" +:+ fb)) (done ++ [IBoundary fb None (Some p)]) []
                (BArr (done ++ [IBoundary fb None (Some p)]))) as [-> ->].
    assert (Hprev : last_or (Some ("--" +:+ fb)) cl = Some "")
      by (unfold last_or; now rewrite Hlast).
    rewrite Hprev. cbn [app]. rewrite <- children_body_snoc.
    apply IH; assumption.
Qed.

(** The whole multipart body, from the line after the blank line. *)
Lemma body_phase (children : list (list string)) (tail : list string)
    (prev : option string) :
  children <> [] -> tail = [] \/ tail = [""] ->
  Forall (fun cl => child_lines_ok fb cl /\ agrees rec crec fb cl) children ->
  exists all p cst,
    scan gb o rec prev (multipart_lines fb children tail) (pbody c fb false [])
      = Ok (pbody c fb false (all ++ [IBoundary fb None (Some p)])) /\
    cscan gb crec prev (multipart_lines fb children tail) (cbody c BUnset None)
      = Ok cst /\
    c_headers cst = c_headers c /\
    c_body cst = BArr (all ++ [IBoundary fb None (Some p)]).
Proof.
  intros Hne Htail Hch. destruct children as [|cl children]; [congruence|].
  apply Forall_cons in Hch as [[(Hno & Hhead & Hlast) Hcl] Hch].
  rewrite multipart_lines_cons. cbn [scan cscan c_insideBody cbody].
  change (negb true) with false. cbv iota.
  rewrite p_first_marker, c_first_marker.
  destruct (collect_lines cl (multipart_lines fb children tail) Hno
              (Some ("--" +:+ fb)) [] [] BUnset) as [-> ->].
  assert (Hprev : last_or (Some ("--" +:+ fb)) cl = Some "")
    by (unfold last_or; now rewrite Hlast).
  rewrite Hprev. cbn [app].
  apply (rest_children tail Htail children [] cl Hcl Hch).
Qed.

End MultipartBody.

(** On the lines of a multipart part whose children are resolved alike by
    the two recursive calls, the two resolvers agree. *)
Lemma multipart_agreement (gb : JsProp -> option string) (o : Options)
    (f1 f2 : nat) (b : string) (hdrs : list string) (fb : string)
    (children : list (list string)) (tail : list string) :
  headersOnly o = false -> b <> "" ->
  fresh_headers [""] hdrs = true ->
  truthy (content_type_of (c_headers (header_section hdrs))) = true ->
  Re.is_multipart (content_type_of (c_headers (header_section hdrs))) = true ->
  gb (content_type_of (c_headers (header_section hdrs))) = Some fb ->
  fb <> "" -> Js.all_chars Js.not_crlf fb = true ->
  children <> [] -> tail = [] \/ tail = [""] ->
  Forall (fun cl => child_lines_ok fb cl /\
                    agrees (parseRecursive gb o f1) (completeBoundary_call gb f2)
                           fb cl)
         children ->
  exists p,
    parseRecursive gb o (S f1) (hdrs ++ "" :: multipart_lines fb children tail)
      = Ok p /\
    completeBoundary gb (S f2) b (hdrs ++ "" :: multipart_lines fb children tail)
      = Ok (Some (IBoundary b None (Some p))).
Proof.
  intros Ho Hb Hfresh Hct Hmp Hgb Hfb Hplain Hne Htail Hch.
  destruct (header_phase gb o (parseRecursive gb o f1) (completeBoundary_call gb f2)
              hdrs ("" :: multipart_lines fb children tail) cinit [""] None Hfresh)
    as (prev' & Hs & Hc & Hin & Hbd & Hcb & Hsp).
  { intros k [v Hv]. simpl in Hv. rewrite lookup_empty in Hv. discriminate. }
  { constructor. }
  { reflexivity. }
  fold (header_section hdrs) in Hs, Hc, Hin, Hbd, Hcb.
  set (c := header_section hdrs) in *.
  destruct (body_phase gb o (parseRecursive gb o f1) (completeBoundary_call gb f2)
              c fb Hfb Hplain Hgb children tail (Some "") Hne Htail Hch)
    as (all & p & cst & HP & HC & Hh & Hbody).
  exists (MkPart (Some (c_headers c)) (BArr (all ++ [IBoundary fb None (Some p)]))).
  split.
  - cbn [parseRecursive]. change initial_state with (pstate_of cinit).
    rewrite Hs. cbn [scan]. unfold step at 1, step_blank.
    cbn [pstate_of insideBody]. change (negb false) with true. cbv iota.
    cbn [Js.is_empty]. rewrite Ho. cbn [set_insideBody parent_headers].
    change (parent_headers (pstate_of c)) with (c_headers c).
    rewrite Hct. change (negb true) with false. cbv iota.
    rewrite Hmp, Hgb, (fb_not_empty fb Hfb Hplain).
    change (set_multipart fb (set_insideBody true (pstate_of c)))
      with (pbody c fb false []).
    rewrite HP, p_finish. reflexivity.
  - unfold completeBoundary. cbn [completeBoundary_call].
    destruct b as [|x b']; [congruence|].
    cbn [Js.is_empty]. fold cinit. rewrite Hc. cbn [cscan]. rewrite Hin.
    change (negb false) with true. cbv iota. unfold cstep_header at 1.
    cbn [Js.is_empty].
    replace (MkCState (c_headers c) (c_body c) (c_lastHeaderName c) true
               (childBoundary c) (c_spliced c)) with (cbody c BUnset None)
      by (unfold cbody; rewrite Hbd, Hcb; reflexivity).
    rewrite HC, Hh, Hbody. reflexivity.
Qed.

(** What a call of [completeBoundary] returns is what [completeBoundary]
    returns. *)
Lemma completeBoundary_call_value (gb : JsProp -> option string) (f : nat)
    (b : string) (lines : list string) (r : option Item) :
  completeBoundary gb f b lines = Ok r ->
  exists lines', completeBoundary_call gb f b lines = Ok (r, lines').
Proof.
  unfold completeBoundary.
  destruct (completeBoundary_call gb f b lines) as [[x l]|e [x l]|];
    try discriminate.
  intros [= <-]. eauto.
Qed.

Lemma child_length (fb : string) (children : list (list string))
    (tail cl : list string) :
  cl ∈ children -> length cl < length (multipart_lines fb children tail).
Proof.
  unfold multipart_lines. induction children as [|x children IH]; intros Hin.
  - inversion Hin.
  - cbn [flat_map]. rewrite !length_app. cbn [length]. rewrite ?length_app.
    apply elem_of_cons in Hin as [->|Hin]; [lia|].
    specialize (IH Hin). rewrite !length_app in IH. cbn [length] in IH. lia.
Qed.

(** C4, amended. On the raw lines of an already-isolated boundary that are
    [agreeable] (at every level: a header section in which no line is blank
    and no name comes twice or is a name of [Object.prototype]; for a leaf a
    Content-Type that is not multipart and a body that does not begin with
    two dashes; for a multipart part a marker line right after the blank
    line, children that begin with a header line and end with a blank line,
    the closing marker, and at most one blank line after it) the bottom-up
    [completeBoundary] produces exactly the part that the top-down
    [parseRecursive] produces: same headers, same body, same nested
    boundaries. *)
Theorem resolvers_agree (gb : JsProp -> option string) (o : Options) (n : nat) :
  forall (lines : list string) (b : string) (f1 f2 : nat),
    headersOnly o = false -> b <> "" ->
    agreeable gb n lines ->
    length lines < f1 -> length lines < f2 ->
    exists p,
      parseRecursive gb o f1 lines = Ok p /\
      completeBoundary gb f2 b lines = Ok (Some (IBoundary b None (Some p))).
Proof.
  assert (Hleaf : forall lines b f1 f2,
            headersOnly o = false -> b <> "" -> agreeable gb 0 lines ->
            length lines < f1 -> length lines < f2 ->
            exists p,
              parseRecursive gb o f1 lines = Ok p /\
              completeBoundary gb f2 b lines
                = Ok (Some (IBoundary b None (Some p)))).
  { intros lines b f1 f2 Ho Hb [(hdrs & body & -> & Hf & Hct & Hmp & Hbody)|[]] H1 H2.
    destruct f1 as [|f1]; [lia|]. destruct f2 as [|f2]; [lia|].
    apply leaf_agreement; assumption. }
  induction n as [|m IH]; intros lines b f1 f2 Ho Hb Hag H1 H2;
    [apply Hleaf; assumption|].
  destruct Hag as [Hl|Hm]; [apply Hleaf; [| |left| |]; assumption|].
  destruct Hm as (hdrs & fb & children & tail & -> & Hf & Hct & Hmp & Hgb
                  & Hfb & Hplain & Hne & Htail & Hch).
  destruct f1 as [|f1]; [lia|]. destruct f2 as [|f2]; [lia|].
  apply multipart_agreement; try assumption.
  rewrite Forall_forall in Hch |- *. intros cl Hin.
  destruct (Hch cl Hin) as [Hok Hcl]. split; [exact Hok|].
  pose proof (child_length fb children tail cl Hin) as Hlen.
  rewrite length_app in H1, H2. cbn [length] in H1, H2.
  destruct (IH cl fb f1 f2 Ho Hfb Hcl) as (p & Hp & Hc); [lia | lia |].
  apply completeBoundary_call_value in Hc as [cl' Hc].
  exists p, cl'. auto.
Qed.

(** C4, as stated, fails: on a leaf part with a repeated header the top-down
    parser collects the values in a list, and the bottom-up resolver keeps
    the last value only. *)
Lemma resolvers_differ_on_repeated_header :
  parseRecursive Sample.getBoundary (Some false) 6 Ex.repeated_lines
    = Ok Ex.top_down_part /\
  completeBoundary Sample.getBoundary 6 "B" Ex.repeated_lines
    = Ok (Some (IBoundary "B" None (Some Ex.bottom_up_part))) /\
  Ex.top_down_part <> Ex.bottom_up_part.
Proof.
  split; [vm_compute; reflexivity|]. split; [vm_compute; reflexivity|].
  intros H.
  apply (f_equal (fun p => match part_headers p with
                           | Some m => m !! "Received"
                           | None => None
                           end)) in H.
  vm_compute in H. discriminate H.
Qed.


(** ** The examples of the specification, run *)

Lemma plain_example :
  exists r,
    fst (read (EmlString Ex.plain) OptUndefined None) = ReturnsValue r /\
    text r = Some "Hello" /\
    headers r = Some {[ "Content-Type" := HStr "text/plain" ]} /\
    attachments r = None.
Proof. eexists. split; [vm_compute; reflexivity|]. repeat split. Qed.

Lemma mixed_example :
  exists r,
    fst (read (EmlString Ex.mixed) OptUndefined None) = ReturnsValue r /\
    text r = Some "hi" /\
    attachments r = Some [Ex.file_attachment].
Proof. eexists. split; [vm_compute; reflexivity|]. repeat split. Qed.

(** The part of [Ex.no_blank_before_marker], opened right after a line of
    text and closed without a blank line, is resolved. *)
Lemma marker_after_text_is_resolved :
  fst (parse Sample.getBoundary (Some Ex.no_blank_before_marker) OptUndefined None)
    = ReturnsValue
        (MkPart (Some {[ "Content-Type" := HStr "multipart/mixed; boundary=B" ]})
           (BArr [IBoundary "B" None
                    (Some (MkPart (Some {[ "X" := HStr "y" ]}) (BStr "body")))])).
Proof. vm_compute. reflexivity. Qed.

Lemma headersOnly_example :
  fst (parse Sample.getBoundary (Some Ex.mixed) (OptObject true) None)
    = ReturnsValue
        (MkPart (Some {[ "Content-Type" := HStr "multipart/mixed; boundary=B" ]})
           BUnset).
Proof. vm_compute. reflexivity. Qed.

Lemma resolvers_agree_witness :
  exists p,
    parseRecursive Sample.getBoundary (Some false) 20 Ex.alternative_lines = Ok p /\
    completeBoundary Sample.getBoundary 20 "B" Ex.alternative_lines
      = Ok (Some (IBoundary "B" None (Some p))).
Proof.
  apply (resolvers_agree Sample.getBoundary (Some false) 1 Ex.alternative_lines
           "B" 20 20); [reflexivity | discriminate | | vm_compute; lia ..].
  right.
  exists ["Content-Type: multipart/alternative; boundary=C"], "C",
         [Ex.plain_child; Ex.html_child], [""].
  split; [reflexivity|].
  do 4 (split; [vm_compute; reflexivity|]).
  split; [discriminate|]. split; [reflexivity|]. split; [discriminate|].
  split; [right; reflexivity|].
  repeat constructor; try (vm_compute; reflexivity).
  - exists "Content-Type: text/plain". split; reflexivity.
  - exists ["Content-Type: text/plain"], ["hi"; ""].
    repeat split; vm_compute; reflexivity.
  - exists "Content-Type: text/html". split; reflexivity.
  - exists ["Content-Type: text/html"], ["<b>hi</b>"; ""].
    repeat split; vm_compute; reflexivity.
Defined.

(** * Further properties of the module *)

(** ** getFileExtension *)

(** X1. For a mime type that is not the name of a member of
    [Object.prototype], [getFileExtension] returns a string: an extension
    that begins with a dot when the type is one of the five listed ones,
    and the empty string for every other type. *)
Theorem getFileExtension_string (mimeType : string) :
  is_inherited mimeType = false ->
  exists e, getFileExtension mimeType = PStr e /\
    (mimeType ∈ known_types -> Js.starts_with "." e = true) /\
    (mimeType ∉ known_types -> e = "").
Proof.
  intros Hinh. unfold getFileExtension, get_prop, fileExtensions, known_types.
  cbn [list_to_map foldr fst snd uncurry].
  destruct (decide (mimeType = "text/plain")) as [->|H1];
    [exists ".txt"; split; [reflexivity|]; split; [reflexivity|set_solver]|].
  rewrite lookup_insert_ne by congruence.
  destruct (decide (mimeType = "text/html")) as [->|H2];
    [exists ".html"; split; [reflexivity|]; split; [reflexivity|set_solver]|].
  rewrite lookup_insert_ne by congruence.
  destruct (decide (mimeType = "image/png")) as [->|H3];
    [exists ".png"; split; [reflexivity|]; split; [reflexivity|set_solver]|].
  rewrite lookup_insert_ne by congruence.
  destruct (decide (mimeType = "image/jpg")) as [->|H4];
    [exists ".jpg"; split; [reflexivity|]; split; [reflexivity|set_solver]|].
  rewrite lookup_insert_ne by congruence.
  destruct (decide (mimeType = "image/jpeg")) as [->|H5];
    [exists ".jpg"; split; [reflexivity|]; split; [reflexivity|set_solver]|].
  rewrite lookup_insert_ne by congruence.
  rewrite lookup_empty, Hinh. exists "". split; [reflexivity|].
  split; [|reflexivity]. intros Hin.
  repeat (apply elem_of_cons in Hin as [?|Hin]; [congruence|]).
  inversion Hin.
Qed.

Lemma getFileExtension_string_witness :
  exists e, getFileExtension "image/jpeg" = PStr e /\
    ("image/jpeg" ∈ known_types -> Js.starts_with "." e = true) /\
    ("image/jpeg" ∉ known_types -> e = "").
Proof. apply (getFileExtension_string "image/jpeg"). reflexivity. Defined.

(** ** createBoundary *)

(** X2. A boundary made by [createBoundary] from an identifier without CR
    and LF is not empty and holds no CR and no LF; the line made of two
    dashes and the boundary is matched by the marker literal of the parser,
    with the boundary as its token, and it does not begin with the closing
    marker. *)
Theorem createBoundary_marker (id : string) :
  Js.all_chars Js.not_crlf id = true ->
  let b := createBoundary id in
  b <> "" /\ Js.all_chars Js.not_crlf b = true /\
  Re.marker ("--" +:+ b) = Some b /\
  Js.starts_with ("--" +:+ b +:+ "--") ("--" +:+ b) = false.
Proof.
  intros Hid b.
  assert (Hb : b <> "") by discriminate.
  assert (Hall : Js.all_chars Js.not_crlf b = true).
  { unfold b, createBoundary. rewrite all_chars_app, Hid. reflexivity. }
  repeat split; try assumption.
  - exact (marker_exact b Hb Hall).
  - exact (closing_is_not_start b).
Qed.

Lemma createBoundary_marker_witness :
  createBoundary "4f2a" <> "" /\
  Js.all_chars Js.not_crlf (createBoundary "4f2a") = true /\
  Re.marker ("--" +:+ createBoundary "4f2a") = Some (createBoundary "4f2a") /\
  Js.starts_with ("--" +:+ createBoundary "4f2a" +:+ "--")
                 ("--" +:+ createBoundary "4f2a") = false.
Proof. apply (createBoundary_marker "4f2a"). reflexivity. Defined.

(** ** toEmailAddress *)

Lemma closing_no_dquote (s : string) :
  Js.all_chars no_dquote s = true -> Quote.closing s = s.
Proof.
  induction s as [|c s IH]; [reflexivity|]. cbn [Js.all_chars Quote.closing].
  unfold no_dquote at 1. intros H. apply andb_true_iff in H as [Hc Hs].
  apply negb_true_iff in Hc. rewrite Hc. cbn [andb]. now rewrite IH.
Qed.

Lemma closing_quoted (s ws : string) :
  Js.all_chars no_dquote s = true -> Js.all_chars Js.is_space ws = true ->
  Quote.closing (s +:+ String Js.dquote ws) = s.
Proof.
  intros Hs Hws. induction s as [|c s IH].
  - change ("" +:+ String Js.dquote ws) with (String Js.dquote ws).
    cbn [Quote.closing]. rewrite Hws. reflexivity.
  - change (String c s +:+ String Js.dquote ws)
      with (String c (s +:+ String Js.dquote ws)).
    cbn [Js.all_chars] in Hs. apply andb_true_iff in Hs as [Hc Hs].
    cbn [Quote.closing]. unfold no_dquote in Hc. apply negb_true_iff in Hc.
    rewrite Hc. cbn [andb]. now rewrite IH.
Qed.

Lemma strip_no_dquote (s : string) :
  Js.all_chars no_dquote s = true -> Quote.strip s = s.
Proof.
  intros H. destruct s as [|c s]; [reflexivity|]. unfold Quote.strip.
  pose proof H as H'. cbn [Js.all_chars] in H'.
  apply andb_true_iff in H' as [Hc _]. unfold no_dquote in Hc.
  apply negb_true_iff in Hc. rewrite Hc. now apply closing_no_dquote.
Qed.

(** X3. For a name without a double quote, [toEmailAddress] renders one
    address as the name in double quotes, a space, and the e-mail in angle
    brackets when there is one; a name that already comes in double quotes
    (white space may follow the closing quote) is rendered like the bare
    name, so the quotes are not doubled. *)
Theorem toEmailAddress_quotes (name ws email : string) :
  name <> "" -> Js.all_chars no_dquote name = true ->
  Js.all_chars Js.is_space ws = true ->
  toEmailAddress (AddrData (AddrOne name email))
    = String Js.dquote name +:+ String Js.dquote " "
      +:+ (if Js.is_empty email then "" else "<" +:+ email +:+ ">") /\
  toEmailAddress
    (AddrData (AddrOne (String Js.dquote name +:+ String Js.dquote ws) email))
    = toEmailAddress (AddrData (AddrOne name email)).
Proof.
  intros Hne Hq Hws. cbn [toEmailAddress]. unfold address_text.
  destruct name as [|c name]; [congruence|].
  rewrite (strip_no_dquote _ Hq).
  change (String Js.dquote (String c name) +:+ String Js.dquote ws)
    with (String Js.dquote (String c name +:+ String Js.dquote ws)).
  cbn [Js.is_empty negb Quote.strip].
  change (Meta.is_dquote Js.dquote) with true. cbv iota.
  rewrite (closing_quoted _ _ Hq Hws).
  split; [|reflexivity].
  destruct (Js.is_empty email); cbn [negb].
  - now rewrite append_nil_r.
  - now rewrite !append_assoc.
Qed.

Lemma toEmailAddress_quotes_witness :
  toEmailAddress (AddrData (AddrOne "PayPal" "noreply@paypal.com"))
    = String Js.dquote "PayPal" +:+ String Js.dquote " "
      +:+ (if Js.is_empty "noreply@paypal.com" then ""
           else "<" +:+ "noreply@paypal.com" +:+ ">") /\
  toEmailAddress
    (AddrData (AddrOne (String Js.dquote "PayPal" +:+ String Js.dquote " ")
                       "noreply@paypal.com"))
    = toEmailAddress (AddrData (AddrOne "PayPal" "noreply@paypal.com")).
Proof.
  apply (toEmailAddress_quotes "PayPal" " " "noreply@paypal.com");
    [discriminate | reflexivity | reflexivity].
Defined.

Lemma join_nonempty (sep : string) (l : list string) :
  Forall (fun x => Js.is_empty x = false) l ->
  Js.is_empty (Js.join sep l) = true -> l = [].
Proof.
  destruct l as [|x l]; [reflexivity|]. intros H. apply Forall_cons in H as [Hx _].
  destruct l as [|y l]; cbn [Js.join].
  - congruence.
  - destruct x; [discriminate Hx | discriminate].
Qed.

Lemma join_app (sep : string) (l1 l2 : list string) :
  Forall (fun x => Js.is_empty x = false) l1 ->
  Forall (fun x => Js.is_empty x = false) l2 ->
  Js.join sep (l1 ++ l2) =
    if Js.is_empty (Js.join sep l1) then Js.join sep l2
    else if Js.is_empty (Js.join sep l2) then Js.join sep l1
    else Js.join sep l1 +:+ sep +:+ Js.join sep l2.
Proof.
  intros H1 H2. induction l1 as [|x l1 IH]; [reflexivity|].
  apply Forall_cons in H1 as [Hx H1]. specialize (IH H1).
  assert (Hj : Js.is_empty (Js.join sep (x :: l1)) = false).
  { destruct (Js.is_empty (Js.join sep (x :: l1))) eqn:E; [|reflexivity].
    apply join_nonempty in E; [discriminate E|]. constructor; assumption. }
  rewrite Hj. destruct l1 as [|y l1].
  - cbn [app]. destruct l2 as [|z l2]; [reflexivity|].
    assert (Hz : Js.is_empty (Js.join sep (z :: l2)) = false).
    { destruct (Js.is_empty (Js.join sep (z :: l2))) eqn:E; [|reflexivity].
      apply join_nonempty in E; [discriminate E | assumption]. }
    rewrite Hz. reflexivity.
  - assert (Hy : Js.is_empty (Js.join sep (y :: l1)) = false).
    { destruct (Js.is_empty (Js.join sep (y :: l1))) eqn:E; [|reflexivity].
      apply join_nonempty in E; [discriminate E | assumption]. }
    rewrite Hy in IH.
    change (Js.join sep ((x :: y :: l1) ++ l2))
      with (x +:+ sep +:+ Js.join sep ((y :: l1) ++ l2)).
    change (Js.join sep (x :: y :: l1)) with (x +:+ sep +:+ Js.join sep (y :: l1)).
    rewrite IH. destruct (Js.is_empty (Js.join sep l2)); [reflexivity|].
    now rewrite !append_assoc.
Qed.

Lemma filter_nonempty (l : list string) :
  Forall (fun x => Js.is_empty x = false)
         (List.filter (fun a => negb (Js.is_empty a)) l).
Proof.
  induction l as [|x l IH]; [constructor|]. cbn [List.filter].
  destruct (Js.is_empty x) eqn:E; cbn [negb]; [exact IH|].
  constructor; assumption.
Qed.

(** X4. [toEmailAddress] on an array: an array of one address is rendered
    like the address itself, and the rendering of two arrays put end to end
    is made of their renderings, with a comma and a space between them
    unless one of them is empty; so an address without name and e-mail
    leaves no trace. *)
Theorem toEmailAddress_array (a : string * string) (l1 l2 : list (string * string)) :
  toEmailAddress (AddrData (AddrMany [a]))
    = toEmailAddress (AddrData (AddrOne a.1 a.2)) /\
  toEmailAddress (AddrData (AddrMany (l1 ++ l2)))
    = comma_join (toEmailAddress (AddrData (AddrMany l1)))
                 (toEmailAddress (AddrData (AddrMany l2))).
Proof.
  split.
  - cbn [toEmailAddress map List.filter].
    destruct (address_text a.1 a.2) eqn:E; reflexivity.
  - cbn [toEmailAddress]. rewrite map_app, List.filter_app. unfold comma_join.
    apply join_app; apply filter_nonempty.
Qed.

(** ** parse: what it returns *)

(** X5. [parse] calls the callback in effect exactly once, with the error
    it caught, if any, and with the tree built so far. If that call throws,
    the exception escapes from [parse]; otherwise [parse] returns the error,
    or the tree when there is no error. The only errors are the one for an
    argument that is not a string and the [TypeError]s raised while the
    lines are scanned; in particular the fallback error 'read EML failed!'
    is never returned. *)
Theorem parse_outcome (gb : JsProp -> option string) (eml : option string)
    (options : OptionsArg) (callback : option Callback) :
  exists (error : option JsError) (result : Part),
    parse gb eml options callback =
      (match shift_callback options callback with
       | Some f =>
           match cb_throws f error with
           | Some thrown => Raises thrown
           | None => match error with
                     | Some e => ReturnsError e
                     | None => ReturnsValue result
                     end
           end
       | None => match error with
                 | Some e => ReturnsError e
                 | None => ReturnsValue result
                 end
       end,
       match shift_callback options callback with
       | Some f => [MkCall f error result]
       | None => []
       end) /\
    match error with
    | None => is_Some eml
    | Some e =>
        (eml = None /\ e = argument_error) \/
        (is_Some eml /\ error_name e = "TypeError")
    end.
Proof.
  unfold parse, parse_try. destruct eml as [text|].
  - pose proof (parseRecursive_sound gb (parse_options options callback)
                  (S (length (Js.split_lines text))) (Js.split_lines text)
                  ltac:(lia)) as H.
    destruct (parseRecursive gb (parse_options options callback)
                (S (length (Js.split_lines text))) (Js.split_lines text))
      as [p|e p|]; [| |destruct H].
    + exists None, p. split; [reflexivity | eauto].
    + exists (Some e), p. destruct e as [n m|m]; [|discriminate H].
      split; [reflexivity|]. right. split; [eauto | exact H].
  - exists (Some argument_error), empty_part. split; [reflexivity|].
    left. split; reflexivity.
Qed.

(** ** parse: line ends *)

Lemma split_lines_plain (x t cur : string) :
  Js.all_chars Js.not_crlf x = true ->
  Js.split_lines_from cur (x +:+ t) = Js.split_lines_from (cur +:+ x) t.
Proof.
  revert cur. induction x as [|c x IH]; intros cur H.
  - now rewrite append_nil_r.
  - cbn [Js.all_chars] in H. apply andb_true_iff in H as [Hc Hx].
    unfold Js.not_crlf in Hc. apply negb_true_iff, orb_false_iff in Hc as [H13 H10].
    change (String c x +:+ t) with (String c (x +:+ t)).
    cbn [Js.split_lines_from]. rewrite H10, H13, (IH _ Hx).
    f_equal. rewrite append_assoc. reflexivity.
Qed.

(** Lines without CR and LF, joined by CR LF or by LF alone, are what
    [split(/\r?\n/)] gives back. *)
Lemma split_join (sep : string) (lines : list string) :
  sep = Js.crlf \/ sep = String Js.LF "" ->
  lines <> [] -> Forall (fun l => Js.all_chars Js.not_crlf l = true) lines ->
  Js.split_lines (Js.join sep lines) = lines.
Proof.
  intros Hsep Hne Hall. unfold Js.split_lines.
  assert (G : forall cur, Js.split_lines_from cur (Js.join sep lines)
                          = match lines with
                            | [] => [cur]
                            | x :: r => (cur +:+ x) :: r
                            end).
  { clear Hne. induction lines as [|x r IH]; intros cur; [reflexivity|].
    apply Forall_cons in Hall as [Hx Hr]. specialize (IH Hr).
    destruct r as [|y r].
    - cbn [Js.join]. rewrite <- (append_nil_r x) at 1.
      rewrite (split_lines_plain _ _ _ Hx). reflexivity.
    - change (Js.join sep (x :: y :: r)) with (x +:+ sep +:+ Js.join sep (y :: r)).
      rewrite (split_lines_plain _ _ _ Hx).
      destruct Hsep as [-> | ->].
      + change (Js.crlf +:+ ?t) with (String Js.CR (String Js.LF t)).
        cbn [Js.split_lines_from].
        change ((Js.code Js.CR =? 10)%N) with false.
        change ((Js.code Js.CR =? 13)%N) with true.
        change ((Js.code Js.LF =? 10)%N) with true. cbv iota.
        rewrite IH. reflexivity.
      + change (String Js.LF "" +:+ ?t) with (String Js.LF t).
        cbn [Js.split_lines_from].
        change ((Js.code Js.LF =? 10)%N) with true. cbv iota.
        rewrite IH. reflexivity. }
  rewrite G. destruct lines; [congruence | reflexivity].
Qed.

(** X6. [parse] does not tell CR LF line ends from bare LF line ends: lines
    without CR and LF give the same result, and the same call of the
    callback, whether they are joined by CR LF or by LF. *)
Theorem parse_line_ends (gb : JsProp -> option string) (lines : list string)
    (options : OptionsArg) (callback : option Callback) :
  lines <> [] -> Forall (fun l => Js.all_chars Js.not_crlf l = true) lines ->
  parse gb (Some (Js.join (String Js.LF "") lines)) options callback
    = parse gb (Some (Js.join Js.crlf lines)) options callback.
Proof.
  intros Hne Hall. unfold parse, parse_try.
  rewrite (split_join Js.crlf lines), (split_join (String Js.LF "") lines);
    auto.
Qed.

Lemma parse_line_ends_witness :
  parse Sample.getBoundary
        (Some (Js.join (String Js.LF "") ["Content-Type: text/plain"; ""; "Hello"]))
        OptUndefined None
    = parse Sample.getBoundary
        (Some (Js.join Js.crlf ["Content-Type: text/plain"; ""; "Hello"]))
        OptUndefined None.
Proof.
  apply (parse_line_ends Sample.getBoundary
           ["Content-Type: text/plain"; ""; "Hello"] OptUndefined None);
    [discriminate | repeat constructor].
Defined.

(** ** parse: a message with one part *)

Lemma all_chars_impl (p q : ascii -> bool) (s : string) :
  (forall c, p c = true -> q c = true) ->
  Js.all_chars p s = true -> Js.all_chars q s = true.
Proof.
  intros Hpq. induction s as [|c s IH]; [reflexivity|]. cbn [Js.all_chars].
  intros H. apply andb_true_iff in H as [Hc Hs].
  now rewrite (Hpq _ Hc), IH.
Qed.

Lemma name_char_not_crlf (c : ascii) :
  Js.is_name_char c = true -> Js.not_crlf c = true.
Proof.
  destruct c as [[] [] [] [] [] [] [] []]; vm_compute; congruence.
Qed.

Lemma not_inherited_ne (k : string) :
  is_inherited k = false -> k <> "__proto__".
Proof. intros H ->. vm_compute in H. discriminate H. Qed.

Lemma header_line_parts (kv : string * string) :
  plain_header kv ->
  Js.is_empty (header_line kv) = false /\
  Re.continuation (header_line kv) = None /\
  Re.header (header_line kv) = Some (kv.1, kv.2) /\
  Js.all_chars Js.not_crlf (header_line kv) = true.
Proof.
  intros (Hne & Hname & _ & Hhead & Hval).
  destruct (header_plain kv.1 " " kv.2 Hne Hname eq_refl Hhead Hval)
    as (H1 & H2 & H3).
  repeat split; try assumption.
  unfold header_line. rewrite !all_chars_app, Hval.
  rewrite (all_chars_impl _ _ _ name_char_not_crlf Hname). reflexivity.
Qed.

Lemma header_section_step (kv : string * string) (c : CState) :
  plain_header kv ->
  cstep_header (header_line kv) c
    = MkCState (<[kv.1 := HStr kv.2]> (c_headers c)) (c_body c) kv.1
               (c_insideBody c) (childBoundary c) (c_spliced c).
Proof.
  intros Hkv. destruct (header_line_parts kv Hkv) as (H1 & _ & H3 & _).
  unfold cstep_header. rewrite H1, H3.
  rewrite set_prop_ne; [reflexivity|].
  apply not_inherited_ne. apply Hkv.
Qed.

Lemma header_section_fold (kvs : list (string * string)) :
  Forall plain_header kvs ->
  forall c,
    c_headers (fold_left (fun c line => cstep_header line c)
                         (map header_line kvs) c)
    = fold_left (fun h kv => <[kv.1 := HStr kv.2]> h) kvs (c_headers c).
Proof.
  induction 1 as [|kv kvs Hkv _ IH]; intros c; [reflexivity|].
  cbn [map fold_left]. rewrite IH, (header_section_step _ _ Hkv). reflexivity.
Qed.

Lemma fold_insert_headers_of (kvs : list (string * string)) :
  NoDup kvs.*1 ->
  fold_left (fun h kv => <[kv.1 := HStr kv.2]> h) kvs ∅ = headers_of kvs.
Proof.
  induction kvs as [|kv kvs IH] using rev_ind; intros Hnd; [reflexivity|].
  rewrite fmap_app in Hnd. apply NoDup_app in Hnd as (Hnd & Hnot & _).
  rewrite fold_left_app. cbn [fold_left]. rewrite (IH Hnd).
  unfold headers_of. rewrite map_app. cbn [map].
  rewrite list_to_map_snoc; [reflexivity|].
  intros Hin. apply (Hnot kv.1).
  - rewrite <- list_fmap_compose in Hin. exact Hin.
  - cbn. left.
Qed.

Lemma header_section_headers_of (kvs : list (string * string)) :
  Forall plain_header kvs -> NoDup kvs.*1 ->
  c_headers (header_section (map header_line kvs)) = headers_of kvs.
Proof.
  intros Hall Hnd. unfold header_section.
  rewrite (header_section_fold _ Hall). apply fold_insert_headers_of, Hnd.
Qed.

Lemma fresh_header_lines (kvs : list (string * string)) :
  Forall plain_header kvs -> NoDup kvs.*1 ->
  forall seen, (forall k, k ∈ kvs.*1 -> k ∉ seen) ->
    fresh_headers seen (map header_line kvs) = true.
Proof.
  induction 1 as [|kv kvs Hkv _ IH]; intros Hnd seen Hseen; [reflexivity|].
  cbn [map fresh_headers].
  destruct (header_line_parts kv Hkv) as (H1 & _ & H3 & _).
  rewrite H1, H3. destruct Hkv as (_ & _ & Hinh & _). rewrite Hinh.
  cbn [fmap list_fmap] in Hnd. apply NoDup_cons in Hnd as [Hnot Hnd].
  rewrite bool_decide_eq_false_2 by (apply Hseen; left).
  cbn [negb andb]. apply IH; [exact Hnd|].
  intros k Hk. apply not_elem_of_cons. split.
  - intros ->. contradiction.
  - apply Hseen. right. exact Hk.
Qed.

(** The lines of a message with one part are resolved into its headers
    and its body. *)
Lemma parseRecursive_leaf (gb : JsProp -> option string) (o : Options)
    (f : nat) (kvs : list (string * string)) (body : list string) :
  headersOnly o = false ->
  Forall plain_header kvs -> NoDup kvs.*1 ->
  truthy (content_type_of (headers_of kvs)) = true ->
  Re.is_multipart (content_type_of (headers_of kvs)) = false ->
  parseRecursive gb o (S f) (map header_line kvs ++ "" :: body)
    = Ok (MkPart (Some (headers_of kvs)) (body_of_lines body)).
Proof.
  intros Ho Hall Hnd Hct Hmp.
  assert (Hfresh : fresh_headers [""] (map header_line kvs) = true).
  { apply fresh_header_lines; try assumption.
    intros k Hk Hin. apply list_elem_of_singleton in Hin. subst k.
    apply list_elem_of_fmap in Hk as (kv & Hk & Hkv).
    rewrite Forall_forall in Hall. destruct (Hall kv Hkv) as (Hne & _).
    congruence. }
  destruct (header_phase gb o (parseRecursive gb o f) (fun _ _ => NoFuel)
              (map header_line kvs) ("" :: body) cinit [""] None Hfresh)
    as (prev' & Hs & _).
  { intros k [v Hv]. simpl in Hv. rewrite lookup_empty in Hv. discriminate. }
  { constructor. }
  { reflexivity. }
  fold (header_section (map header_line kvs)) in Hs.
  pose proof (header_section_headers_of kvs Hall Hnd) as Hh.
  set (c := header_section (map header_line kvs)) in *.
  cbn [parseRecursive]. change initial_state with (pstate_of cinit).
  rewrite Hs. cbn [scan]. unfold step at 1, step_blank. cbn [pstate_of insideBody].
  change (negb false) with true. cbv iota. cbn [Js.is_empty]. rewrite Ho.
  cbn [set_insideBody parent_headers].
  change (parent_headers (pstate_of c)) with (c_headers c). rewrite Hh, Hct.
  change (negb true) with false. cbv iota. rewrite Hmp, <- Hh.
  destruct body as [|l r]; reflexivity.
Qed.

(** X7. A message with one part is read back as written: header lines
    [Name: value] with distinct plain names and plain values, among them a
    Content-Type that is not multipart, then a blank line and body lines
    without CR and LF, all joined by CR LF, are parsed into the header
    object that maps each name to its value and into the body lines joined
    by CR LF (no body when no line follows the blank line). [parse] returns
    that tree, after the call of the callback in effect; only an exception
    of that callback keeps it from returning. *)
Theorem parse_leaf_round_trip (gb : JsProp -> option string)
    (kvs : list (string * string)) (body : list string)
    (options : OptionsArg) (callback : option Callback) :
  headersOnly (parse_options options callback) = false ->
  Forall plain_header kvs -> NoDup kvs.*1 ->
  Forall (fun l => Js.all_chars Js.not_crlf l = true) body ->
  truthy (content_type_of (headers_of kvs)) = true ->
  Re.is_multipart (content_type_of (headers_of kvs)) = false ->
  fst (parse gb (Some (Js.join Js.crlf (map header_line kvs ++ "" :: body)))
             options callback)
    = after_callback (shift_callback options callback) None
        (ReturnsValue (MkPart (Some (headers_of kvs)) (body_of_lines body))).
Proof.
  intros Ho Hall Hnd Hbody Hct Hmp. unfold parse, parse_try.
  rewrite (split_join Js.crlf); [|left; reflexivity|destruct kvs; discriminate|].
  - rewrite (parseRecursive_leaf gb _ _ kvs body Ho Hall Hnd Hct Hmp). reflexivity.
  - apply Forall_app. split.
    + apply Forall_fmap. eapply Forall_impl; [exact Hall|].
      intros kv Hkv. apply header_line_parts, Hkv.
    + constructor; [reflexivity | exact Hbody].
Qed.

Lemma parse_leaf_round_trip_witness :
  fst (parse Sample.getBoundary
         (Some (Js.join Js.crlf
                  (map header_line [("Content-Type", "text/plain"); ("Subject", "Hi")]
                   ++ "" :: ["Hello"; "World"])))
         OptUndefined None)
    = ReturnsValue
        (MkPart (Some (headers_of [("Content-Type", "text/plain"); ("Subject", "Hi")]))
                (body_of_lines ["Hello"; "World"])).
Proof.
  apply (parse_leaf_round_trip Sample.getBoundary
           [("Content-Type", "text/plain"); ("Subject", "Hi")] ["Hello"; "World"]
           OptUndefined None).
  - reflexivity.
  - repeat constructor; discriminate.
  - cbn. apply NoDup_cons. split; [|apply NoDup_singleton].
    intros H. apply list_elem_of_singleton in H. discriminate H.
  - repeat constructor.
  - vm_compute. reflexivity.
  - vm_compute. reflexivity.
Defined.

(** ** parse: a multipart message *)

Section Children.

Variable gb : JsProp -> option string.
Variable o : Options.
Variable rec : list string -> Result Part.
Variable c : CState.
Variable fb : string.
Hypothesis Hfb : fb <> "".
Hypothesis Hplain : Js.all_chars Js.not_crlf fb = true.

Lemma last_or_app (prev : option string) (l m : list string) :
  last_or prev (l ++ m) = last_or (last_or prev l) m.
Proof.
  unfold last_or. destruct m as [|x m] using rev_ind.
  - rewrite app_nil_r. cbn [last]. destruct (last l); reflexivity.
  - rewrite app_assoc, !last_snoc. reflexivity.
Qed.

(** After the closing marker the lines that are no marker are passed over. *)
Lemma after_lines (tail : list string) :
  Forall (fun l => Js.starts_with ("--" +:+ fb) l = false) tail ->
  forall prev items,
    scan gb o rec prev tail (pbody c fb false items) = Ok (pbody c fb false items).
Proof.
  induction 1 as [|l tail Hl _ IH]; intros prev items; [reflexivity|].
  cbn [scan]. rewrite (p_after gb o rec c fb prev l _ items Hl). apply IH.
Qed.

(** So are the lines before the first marker. *)
Lemma skip_lines (pre rest : list string) :
  Forall (fun l => Js.starts_with ("--" +:+ fb) l = false) pre ->
  forall prev items,
    exists prev',
      scan gb o rec prev (pre ++ rest) (pbody c fb false items)
        = scan gb o rec prev' rest (pbody c fb false items).
Proof.
  induction 1 as [|l pre Hl _ IH]; intros prev items; [exists prev; reflexivity|].
  destruct (IH (Some l) items) as [prev' IH']. exists prev'.
  cbn [app scan]. rewrite (p_after gb o rec c fb prev l _ items Hl). exact IH'.
Qed.

(** From a child whose lines are collected to the end of the body: one
    resolved boundary for each child, in the order of the children. *)
Lemma rest_parts (tail : list string) :
  Forall (fun l => Js.starts_with ("--" +:+ fb) l = false) tail ->
  forall (children : list (list string)) (parts : list Part)
         (done : list Item) (acc : list string) (p : Part) (prev : option string),
    rec acc = Ok p ->
    Forall2 (fun cl q =>
               Forall (fun l => Js.starts_with ("--" +:+ fb) l = false) cl /\
               rec cl = Ok q) children parts ->
    last_or prev (flat_map (fun cl => ("--" +:+ fb) :: cl) children) = Some "" ->
    scan gb o rec prev (multipart_lines fb children tail)
         (pbody c fb true (done ++ [IBoundary fb (Some acc) None]))
      = Ok (pbody c fb false
              (done ++ IBoundary fb None (Some p)
                 :: map (fun q => IBoundary fb None (Some q)) parts)).
Proof.
  intros Htail children parts done acc p prev Hacc Hch. revert done acc p prev Hacc.
  induction Hch as [|cl q children parts [Hno Hq] _ IH];
    intros done acc p prev Hacc Hprev.
  - unfold multipart_lines. cbn [flat_map app] in *. unfold last_or in Hprev.
    cbn [last] in Hprev. subst prev. cbn [scan].
    rewrite (p_closing gb o rec c fb Hfb Hplain _ _ _ _ Hacc).
    apply after_lines. exact Htail.
  - rewrite multipart_lines_cons. cbn [scan].
    rewrite (p_marker gb o rec c fb Hfb Hplain _ _ _ _ _ Hacc).
    destruct (collect_lines gb o rec (fun _ _ => NoFuel) c fb Hfb Hplain
                cl (multipart_lines fb children tail) Hno
                (Some ("--" +:+ fb)) (done ++ [IBoundary fb None (Some p)]) []
                BUnset) as [-> _].
    cbn [app]. rewrite (IH _ _ _ _ Hq).
    + rewrite <- app_assoc. reflexivity.
    + cbn [flat_map] in Hprev.
      change ((("--" +:+ fb) :: cl) ++ ?m) with (("--" +:+ fb) :: (cl ++ m)) in Hprev.
      rewrite <- (last_or_cons prev), last_or_app in Hprev. exact Hprev.
Qed.

(** The whole multipart body, from the line after the blank line. *)
Lemma body_parts (children : list (list string)) (parts : list Part)
    (tail : list string) (prev : option string) :
  Forall (fun l => Js.starts_with ("--" +:+ fb) l = false) tail ->
  Forall2 (fun cl q =>
             Forall (fun l => Js.starts_with ("--" +:+ fb) l = false) cl /\
             rec cl = Ok q) children parts ->
  last (flat_map (fun cl => ("--" +:+ fb) :: cl) children) = Some "" ->
  scan gb o rec prev (multipart_lines fb children tail) (pbody c fb false [])
    = Ok (pbody c fb false (map (fun q => IBoundary fb None (Some q)) parts)).
Proof.
  intros Htail Hch Hlast.
  destruct Hch as [|cl q children parts [Hno Hq] Hch]; [discriminate Hlast|].
  rewrite multipart_lines_cons. cbn [scan].
  rewrite (p_first_marker gb o rec c fb Hfb Hplain).
  destruct (collect_lines gb o rec (fun _ _ => NoFuel) c fb Hfb Hplain
              cl (multipart_lines fb children tail) Hno
              (Some ("--" +:+ fb)) [] [] BUnset) as [-> _].
  cbn [app]. rewrite (rest_parts tail Htail children parts [] cl q _ Hq Hch).
  - reflexivity.
  - cbn [flat_map] in Hlast.
    change ((("--" +:+ fb) :: cl) ++ ?m) with (("--" +:+ fb) :: (cl ++ m)) in Hlast.
    rewrite <- last_or_app, (last_or_cons None). unfold last_or.
    rewrite Hlast. reflexivity.
Qed.

End Children.

(** X8. A multipart message is resolved into one boundary record per child,
    in the order of the children: after plain header lines with a multipart
    Content-Type whose boundary token is [fb] and a blank line, the body
    lists the children, each after a marker line, then the closing marker
    after a blank line; the body of the result is the array of the records
    [{boundary: fb, part}], where [part] is what the recursive call makes
    of the lines of the child. The lines before the first marker and those
    after the closing marker leave no trace in the result. *)
Theorem parse_multipart_children (gb : JsProp -> option string) (o : Options)
    (f : nat) (kvs : list (string * string)) (fb : string)
    (preamble : list string) (children : list (list string))
    (parts : list Part) (tail : list string) :
  headersOnly o = false ->
  Forall plain_header kvs -> NoDup kvs.*1 ->
  truthy (content_type_of (headers_of kvs)) = true ->
  Re.is_multipart (content_type_of (headers_of kvs)) = true ->
  gb (content_type_of (headers_of kvs)) = Some fb ->
  fb <> "" -> Js.all_chars Js.not_crlf fb = true ->
  Forall2 (fun cl p =>
             Forall (fun l => Js.starts_with ("--" +:+ fb) l = false) cl /\
             parseRecursive gb o f cl = Ok p) children parts ->
  last (flat_map (fun cl => ("--" +:+ fb) :: cl) children) = Some "" ->
  Forall (fun l => Js.starts_with ("--" +:+ fb) l = false) preamble ->
  Forall (fun l => Js.starts_with ("--" +:+ fb) l = false) tail ->
  parseRecursive gb o (S f)
    (map header_line kvs ++ "" :: preamble ++ multipart_lines fb children tail)
    = Ok (MkPart (Some (headers_of kvs))
                 (BArr (map (fun p => IBoundary fb None (Some p)) parts))).
Proof.
  intros Ho Hall Hnd Hct Hmp Hgb Hfb Hplain Hch Hlast Hpre Htail.
  assert (Hfresh : fresh_headers [""] (map header_line kvs) = true).
  { apply fresh_header_lines; try assumption.
    intros k Hk Hin. apply list_elem_of_singleton in Hin. subst k.
    apply list_elem_of_fmap in Hk as (kv & Hk & Hkv).
    rewrite Forall_forall in Hall. destruct (Hall kv Hkv) as (Hne & _).
    congruence. }
  destruct (header_phase gb o (parseRecursive gb o f) (fun _ _ => NoFuel)
              (map header_line kvs)
              ("" :: preamble ++ multipart_lines fb children tail)
              cinit [""] None Hfresh)
    as (prev' & Hs & _).
  { intros k [v Hv]. simpl in Hv. rewrite lookup_empty in Hv. discriminate. }
  { constructor. }
  { reflexivity. }
  fold (header_section (map header_line kvs)) in Hs.
  pose proof (header_section_headers_of kvs Hall Hnd) as Hh.
  set (c := header_section (map header_line kvs)) in *.
  cbn [parseRecursive]. change initial_state with (pstate_of cinit).
  rewrite Hs. cbn [scan]. unfold step at 1, step_blank. cbn [pstate_of insideBody].
  change (negb false) with true. cbv iota. cbn [Js.is_empty]. rewrite Ho.
  cbn [set_insideBody parent_headers].
  change (parent_headers (pstate_of c)) with (c_headers c). rewrite Hh, Hct.
  change (negb true) with false. cbv iota.
  rewrite Hmp, Hgb, (fb_not_empty fb Hfb Hplain).
  change (set_multipart fb (set_insideBody true (pstate_of c)))
    with (pbody c fb false []).
  destruct (skip_lines gb o (parseRecursive gb o f) c fb preamble
              (multipart_lines fb children tail) Hpre (Some "") []) as [prev1 ->].
  rewrite (body_parts gb o _ c fb Hfb Hplain children parts tail prev1
             Htail Hch Hlast).
  unfold finish, complete_open, current_boundary. cbn [pbody parent_body body_items].
  rewrite <- Hh.
  destruct (last (map (fun q => IBoundary fb None (Some q)) parts)) as [it|] eqn:E;
    [|reflexivity].
  apply last_Some in E as (l' & E).
  destruct parts as [|q parts] using rev_ind; [destruct l'; discriminate E|].
  rewrite map_app in E. cbn [map] in E. apply app_inj_tail in E as [_ <-].
  reflexivity.
Qed.

Lemma parse_multipart_children_witness :
  parseRecursive Sample.getBoundary (Some false) 3
    (map header_line [("Content-Type", "multipart/alternative; boundary=C")]
     ++ "" :: ["This is a message in MIME format."]
     ++ multipart_lines "C" [Ex.plain_child; Ex.html_child] [""])
  = Ok (MkPart
          (Some (headers_of [("Content-Type", "multipart/alternative; boundary=C")]))
          (BArr (map (fun p => IBoundary "C" None (Some p))
                     [Ex.leaf "text/plain" (Js.join Js.crlf ["hi"; ""]);
                      Ex.leaf "text/html" (Js.join Js.crlf ["<b>hi</b>"; ""])]))).
Proof.
  apply (parse_multipart_children Sample.getBoundary (Some false) 2
           [("Content-Type", "multipart/alternative; boundary=C")] "C"
           ["This is a message in MIME format."]
           [Ex.plain_child; Ex.html_child]
           [Ex.leaf "text/plain" (Js.join Js.crlf ["hi"; ""]);
            Ex.leaf "text/html" (Js.join Js.crlf ["<b>hi</b>"; ""])] [""]).
  - reflexivity.
  - constructor; [|constructor]. repeat split; try discriminate; reflexivity.
  - apply NoDup_singleton.
  - vm_compute. reflexivity.
  - vm_compute. reflexivity.
  - vm_compute. reflexivity.
  - discriminate.
  - reflexivity.
  - constructor; [|constructor; [|constructor]].
    + split; [|vm_compute; reflexivity].
      constructor; [reflexivity|]. constructor; [reflexivity|].
      constructor; [reflexivity|]. constructor; [reflexivity|]. constructor.
    + split; [|vm_compute; reflexivity].
      constructor; [reflexivity|]. constructor; [reflexivity|].
      constructor; [reflexivity|]. constructor; [reflexivity|]. constructor.
  - reflexivity.
  - constructor; [reflexivity | constructor].
  - constructor; [reflexivity | constructor].
Defined.

(** ** parse: the option headersOnly *)

Section HeadersOnly.

Variable gb : JsProp -> option string.

(** In the header section a line that is not blank is handled without
    regard to the options and to the recursive call; the scan stays in the
    header section and leaves the body alone. *)
Lemma step_header_line (o o' : Options) (rec rec' : list string -> Result Part)
    prev line rest st :
  insideBody st = false -> Js.is_empty line = false ->
  step gb o rec prev line rest st = step gb o' rec' prev line rest st /\
  match step gb o rec prev line rest st with
  | Continue st' => insideBody st' = false /\ parent_body st' = parent_body st
  | Break _ => False
  | Raise _ _ => True
  | Starve => False
  end.
Proof.
  intros Hin Hne. unfold step. rewrite Hin, Hne. cbn [negb].
  split; [reflexivity|].
  unfold step_continuation, step_header.
  repeat case_match; simplify_eq; cbn; auto.
Qed.

(** What the scan with [headersOnly] does, next to the scan without it: it
    ends at the first blank line, where the other scan goes on. *)
Lemma scan_headersOnly (o : Options) (rec rec' : list string -> Result Part)
    (lines : list string) :
  forall prev st, insideBody st = false ->
    match scan gb (Some true) rec prev lines st with
    | Ok st' =>
        parent_body st' = parent_body st /\
        ((insideBody st' = false /\ scan gb o rec' prev lines st = Ok st') \/
         (exists prev0 rest st0,
            insideBody st0 = false /\ st' = set_insideBody true st0 /\
            scan gb o rec' prev lines st = scan gb o rec' prev0 ("" :: rest) st0))
    | Throw e st' => scan gb o rec' prev lines st = Throw e st'
    | NoFuel => False
    end.
Proof.
  induction lines as [|line tl IH]; intros prev st Hin.
  - cbn [scan]. auto.
  - destruct (Js.is_empty line) eqn:Hne.
    + destruct line; [|discriminate Hne]. cbn [scan]. unfold step at 1.
      rewrite Hin. cbn [negb Js.is_empty]. unfold step_blank. cbn [headersOnly].
      split; [reflexivity|]. right. exists prev, tl, st. auto.
    + destruct (step_header_line (Some true) o rec rec' prev line (line :: tl) st
                  Hin Hne) as [Heq Hst].
      cbn [scan]. rewrite <- Heq.
      destruct (step gb (Some true) rec prev line (line :: tl) st)
        as [st1|st1|e st1|]; try contradiction; [|reflexivity].
      destruct Hst as [Hin1 Hb1]. specialize (IH (Some line) st1 Hin1).
      destruct (scan gb (Some true) rec (Some line) tl st1); try exact IH.
      rewrite <- Hb1. exact IH.
Qed.

(** In the body no step touches the headers. *)
Lemma step_body_headers (o : Options) (rec : list string -> Result Part)
    prev line rest st :
  insideBody st = true ->
  match step gb o rec prev line rest st with
  | Continue st' =>
      parent_headers st' = parent_headers st /\ insideBody st' = true
  | Break st' | Raise _ st' => parent_headers st' = parent_headers st
  | Starve => True
  end.
Proof.
  intros Hin. unfold step. rewrite Hin. cbn [negb].
  unfold step_marker, step_inside, complete_open, complete_current.
  repeat case_match; simplify_eq; cbn; auto.
Qed.

Lemma complete_open_headers (rec : list string -> Result Part) (st : PState) :
  match complete_open rec st with
  | Ok st' | Throw _ st' => parent_headers st' = parent_headers st
  | NoFuel => True
  end.
Proof.
  unfold complete_open, complete_current.
  repeat case_match; simplify_eq; cbn; auto.
Qed.

(** Once the scan is in the body, the headers of the result are those it
    had on entering it. *)
Lemma body_keeps_headers (o : Options) (rec : list string -> Result Part)
    (rest : list string) (prev : option string) (st : PState) :
  insideBody st = true ->
  match to_part match scan gb o rec prev rest st with
                | Ok st' => finish rec st'
                | r => r
                end with
  | Ok q | Throw _ q => part_headers q = Some (parent_headers st)
  | NoFuel => True
  end.
Proof.
  intros Hin.
  pose proof (scan_invariant gb o rec
    (fun _ st' => parent_headers st' = parent_headers st /\ insideBody st' = true)
    (fun st' => parent_headers st' = parent_headers st)
    (fun _ st' => parent_headers st' = parent_headers st) True) as Hscan.
  specialize (Hscan ltac:(
    intros prev0 line tl st0 [Hh Hi];
    pose proof (step_body_headers o rec prev0 line (line :: tl) st0 Hi) as Hs;
    destruct (step gb o rec prev0 line (line :: tl) st0); auto;
    try (destruct Hs; split); congruence)).
  specialize (Hscan ltac:(intros st0 [Hh _]; exact Hh) rest prev st
                    ltac:(split; [reflexivity | exact Hin])).
  destruct (scan gb o rec prev rest st) as [st'|e st'|]; cbn; [|congruence|exact I].
  unfold finish. pose proof (complete_open_headers rec st') as Hc.
  destruct (complete_open rec st'); cbn; [congruence|congruence|exact I].
Qed.

End HeadersOnly.

(** X9. With the option [headersOnly] the scan stops at the first blank
    line: the body of the result is unset, and when the headers hold a
    Content-Type, they are the headers that the same lines get without the
    option, whether that parse ends well or with an error. *)
Theorem headersOnly_headers (gb : JsProp -> option string) (f : nat)
    (lines : list string) (p : Part) :
  parseRecursive gb (Some true) (S f) lines = Ok p ->
  part_body p = BUnset /\
  exists h, part_headers p = Some h /\
    forall (o : Options) (f' : nat),
      headersOnly o = false -> truthy (content_type_of h) = true ->
      match parseRecursive gb o (S f') lines with
      | Ok q | Throw _ q => part_headers q = Some h
      | NoFuel => True
      end.
Proof.
  cbn [parseRecursive]. intros Hp.
  assert (Hinit : insideBody initial_state = false) by reflexivity.
  destruct (scan gb (Some true) (parseRecursive gb (Some true) f) None lines
              initial_state) as [st'|e st'|] eqn:Hs; [|discriminate Hp..].
  assert (Hbody : parent_body st' = BUnset).
  { pose proof (scan_headersOnly gb (Some true) (parseRecursive gb (Some true) f)
                  (parseRecursive gb (Some true) f) lines None initial_state Hinit) as H.
    rewrite Hs in H. destruct H as [H _]. exact H. }
  assert (Hfin : finish (parseRecursive gb (Some true) f) st' = Ok st').
  { unfold finish, complete_open, current_boundary. rewrite Hbody. reflexivity. }
  rewrite Hfin in Hp. cbn in Hp. injection Hp as <-. cbn [state_part part_body part_headers].
  split; [exact Hbody|]. exists (parent_headers st'). split; [reflexivity|].
  intros o f' Ho Hct.
  pose proof (scan_headersOnly gb o (parseRecursive gb (Some true) f)
                (parseRecursive gb o f') lines None initial_state Hinit) as H.
  rewrite Hs in H. destruct H as [_ [[Hin H]|(prev0 & rest & st0 & Hin & -> & H)]].
  - rewrite H. unfold finish, complete_open, current_boundary. rewrite Hbody.
    reflexivity.
  - rewrite H. cbn [scan]. unfold step at 1. rewrite Hin. cbn [negb Js.is_empty].
    unfold step_blank. rewrite Ho. cbn [parent_headers set_insideBody] in Hct |- *.
    rewrite Hct. cbn [negb].
    assert (G : forall st1, parent_headers st1 = parent_headers st0 ->
                  insideBody st1 = true ->
                  match to_part match scan gb o (parseRecursive gb o f') (Some "")
                                        rest st1 with
                                | Ok st2 => finish (parseRecursive gb o f') st2
                                | r => r
                                end with
                  | Ok q | Throw _ q => part_headers q = Some (parent_headers st0)
                  | NoFuel => True
                  end).
    { intros st1 Hh Hi. rewrite <- Hh. apply body_keeps_headers. exact Hi. }
    destruct (Re.is_multipart (content_type_of (parent_headers st0)));
      [destruct (gb (content_type_of (parent_headers st0))) as [b|];
       [destruct (Js.is_empty b)|]|];
      apply G; reflexivity.
Qed.

Lemma headersOnly_headers_witness :
  part_body (MkPart (Some (headers_of [("Content-Type", "text/plain"); ("X", "1")]))
                    BUnset) = BUnset /\
  exists h,
    part_headers (MkPart (Some (headers_of [("Content-Type", "text/plain"); ("X", "1")]))
                         BUnset) = Some h /\
    forall (o : Options) (f' : nat),
      headersOnly o = false -> truthy (content_type_of h) = true ->
      match parseRecursive Sample.getBoundary o (S f')
              ["Content-Type: text/plain"; "X: 1"; ""; "body"] with
      | Ok q | Throw _ q => part_headers q = Some h
      | NoFuel => True
      end.
Proof.
  apply (headersOnly_headers Sample.getBoundary 0
           ["Content-Type: text/plain"; "X: 1"; ""; "body"]).
  vm_compute. reflexivity.
Defined.

(** ** parse: a header that comes several times *)

Section Repeated.

Variable gb : JsProp -> option string.
Variable rec : list string -> Result Part.
Variable name : string.
Hypothesis Hname : name <> "".
Hypothesis Hchars : Js.all_chars Js.is_name_char name = true.
Hypothesis Hinh : is_inherited name = false.

Lemma repeated_scan (vs : list string) (rest : list string) :
  Forall (fun v => Js.head_fails Js.is_space v = true /\
                   Js.all_chars Js.not_crlf v = true) vs ->
  forall prev l,
    exists prev',
      scan gb (Some true) rec prev
           (map (fun v => header_line (name, v)) vs ++ rest) (listed name l)
      = scan gb (Some true) rec prev' rest (listed name (l ++ vs)).
Proof.
  induction 1 as [|v vs [Hh Hv] _ IH]; intros prev l.
  - exists prev. now rewrite app_nil_r.
  - assert (Hkv : plain_header (name, v)) by (repeat split; assumption).
    destruct (header_line_parts _ Hkv) as (H1 & H2 & H3 & _).
    destruct (IH (Some (header_line (name, v))) (l ++ [v])) as [prev' IH'].
    exists prev'. cbn [map app scan]. unfold step at 1.
    cbn [listed insideBody negb]. rewrite H1, H2, H3. unfold step_header.
    cbn [listed parent_headers fst snd]. unfold get_prop. rewrite lookup_singleton_eq.
    cbn [truthy]. rewrite set_prop_ne by (apply not_inherited_ne, Hinh).
    rewrite insert_singleton_eq.
    change (set_headers {[name := HArr (l ++ [v])]}
              (set_last_header name true (listed name l)))
      with (listed name (l ++ [v])).
    rewrite IH', <- app_assoc. reflexivity.
Qed.

End Repeated.

(** X10. A header that comes several times keeps all its values, in the
    order of the lines: with [headersOnly], two or more lines [name: value]
    of one plain name, the first with a value that is not empty, give the
    header object in which the name holds the list of the values. *)
Theorem repeated_header_list (gb : JsProp -> option string) (f : nat)
    (name v1 v2 : string) (vs body : list string) :
  name <> "" -> Js.all_chars Js.is_name_char name = true ->
  is_inherited name = false -> v1 <> "" ->
  Forall (fun v => Js.head_fails Js.is_space v = true /\
                   Js.all_chars Js.not_crlf v = true) (v1 :: v2 :: vs) ->
  parseRecursive gb (Some true) (S f)
    (map (fun v => header_line (name, v)) (v1 :: v2 :: vs) ++ "" :: body)
    = Ok (MkPart (Some {[ name := HArr (v1 :: v2 :: vs) ]}) BUnset).
Proof.
  intros Hname Hchars Hinh Hv1 Hall.
  apply Forall_cons in Hall as [[Hh1 Hc1] Hall].
  apply Forall_cons in Hall as [[Hh2 Hc2] Hall].
  assert (Hk1 : plain_header (name, v1)) by (repeat split; assumption).
  assert (Hk2 : plain_header (name, v2)) by (repeat split; assumption).
  destruct (header_line_parts _ Hk1) as (A1 & A2 & A3 & _).
  destruct (header_line_parts _ Hk2) as (B1 & B2 & B3 & _).
  pose proof (not_inherited_ne _ Hinh) as Hproto.
  assert (S1 : forall prev rest,
            step gb (Some true) (parseRecursive gb (Some true) f) prev
                 (header_line (name, v1)) rest initial_state
            = Continue (MkPState {[ name := HStr v1 ]} BUnset name "" false false
                          false false false false)).
  { intros prev rest. unfold step. change (insideBody initial_state) with false.
    cbn [negb]. rewrite A1, A2, A3. unfold step_header.
    change (parent_headers initial_state) with (∅ : Headers). cbn [fst snd].
    unfold get_prop. rewrite lookup_empty, Hinh. cbn [truthy].
    rewrite (set_prop_ne _ _ _ Hproto), insert_empty. reflexivity. }
  assert (S2 : forall prev rest,
            step gb (Some true) (parseRecursive gb (Some true) f) prev
                 (header_line (name, v2)) rest
                 (MkPState {[ name := HStr v1 ]} BUnset name "" false false
                    false false false false)
            = Continue (listed name [v1; v2])).
  { intros prev rest. unfold step. cbn [insideBody negb]. rewrite B1, B2, B3.
    unfold step_header. cbn [parent_headers fst snd]. unfold get_prop.
    rewrite lookup_singleton_eq. cbn [truthy].
    destruct v1 as [|a v1]; [congruence|]. cbn [Js.is_empty negb].
    rewrite (set_prop_ne _ _ _ Hproto), insert_singleton_eq. reflexivity. }
  cbn [parseRecursive map app scan]. rewrite S1, S2.
  destruct (repeated_scan gb (parseRecursive gb (Some true) f) name Hname Hchars
              Hinh vs ("" :: body) Hall (Some (header_line (name, v2)))
              [v1; v2]) as [prev' ->].
  cbn [scan]. unfold step at 1. cbn [listed insideBody negb Js.is_empty].
  unfold step_blank. cbn [headersOnly]. reflexivity.
Qed.

Lemma repeated_header_list_witness :
  parseRecursive Sample.getBoundary (Some true) 1
    (map (fun v => header_line ("Received", v)) ["a"; "b"; "c"] ++ "" :: ["body"])
    = Ok (MkPart (Some {[ "Received" := HArr ["a"; "b"; "c"] ]}) BUnset).
Proof.
  apply (repeated_header_list Sample.getBoundary 0 "Received" "a" "b" ["c"] ["body"]);
    try reflexivity; try discriminate.
  repeat constructor.
Defined.

(** ** completeBoundary: termination and the shape of its result *)

Section BottomUp.

Variable gb : JsProp -> option string.
Variable f : nat.
Variable crec : string -> list string -> Result (option Item * list string).
Hypothesis Hrec : crec_ok f crec.

Lemma cstep_header_frame (line : string) (st : CState) :
  c_body (cstep_header line st) = c_body st /\
  childBoundary (cstep_header line st) = childBoundary st.
Proof. unfold cstep_header. repeat case_match; auto. Qed.

Lemma wf_push_child (child : Item) (b : Body) :
  wf_item child = true -> wf_body b = true -> wf_body (push_child child b) = true.
Proof.
  intros Hc Hb. destruct b as [| |items]; cbn [push_child].
  - cbn. now rewrite Hc.
  - cbn. now rewrite Hc.
  - apply wf_body_Forall. apply wf_body_Forall in Hb.
    apply Forall_app. split; [exact Hb|]. constructor; [exact Hc | constructor].
Qed.

Lemma cstep_body_ok prev line tl st :
  cstate_ok f (line :: tl) st ->
  match cstep_body gb crec prev (head tl) line (line :: tl) st with
  | CContinue st' => cstate_ok f tl st'
  | CBreak st' => wf_body (c_body st') = true
  | CStarve => False
  end.
Proof.
  intros [Hwf Hlen]. unfold cstep_body, cstate_ok.
  destruct (childBoundary st) as [[cb cl]|] eqn:Hcb.
  - cbn [length] in Hlen.
    destruct (Re.marker line) as [m|];
      (destruct (Js.is_empty cb) eqn:Hecb; [reflexivity|]);
      (destruct (bool_decide (prev = Some "") && Js.starts_with ("--" +:+ cb) line);
       [ destruct (Hrec cb cl) as (h & body & cl' & -> & Hbody & Hcl');
           [destruct cb; [discriminate Hecb | discriminate] | lia |];
         pose proof (wf_push_child
                       (IBoundary cb None (Some (MkPart (Some h) body)))
                       (c_body st) Hbody Hwf) as Hp;
         cbv zeta; repeat case_match; simplify_eq;
         cbn [c_body childBoundary] in *; simplify_eq;
         try (split; [exact Hp|]); try exact Hp;
         rewrite ?length_app; cbn [length]; lia
       | cbn [c_body childBoundary]; split; [exact Hwf|];
         rewrite length_app; cbn [length]; lia ]).
  - cbn [length] in Hlen.
    destruct (Re.marker line) as [m|]; [|reflexivity].
    destruct (Js.starts_with (child_prefix gb (c_headers st)) line);
      [|reflexivity].
    cbn [c_body childBoundary length]. split; [exact Hwf | lia].
Qed.

Lemma cscan_ok (rest : list string) :
  forall prev st, cstate_ok f rest st ->
    exists st', cscan gb crec prev rest st = Ok st' /\ wf_body (c_body st') = true.
Proof.
  induction rest as [|line tl IH]; intros prev st Hst.
  - exists st. split; [reflexivity | apply Hst].
  - cbn [cscan]. destruct (c_insideBody st).
    + cbn [negb]. pose proof (cstep_body_ok prev line tl st Hst) as H.
      destruct (cstep_body gb crec prev (head tl) line (line :: tl) st)
        as [st'|st'|]; [apply IH; exact H | eauto | destruct H].
    + cbn [negb]. apply IH. destruct Hst as [Hwf Hlen].
      destruct (cstep_header_frame line st) as [Hb Hc].
      unfold cstate_ok. rewrite Hb, Hc. split; [exact Hwf|].
      destruct (childBoundary st) as [[cb cl]|]; cbn [length] in Hlen; lia.
Qed.

End BottomUp.

(** One call of [completeBoundary] ends, with a record of the promised
    shape, and leaves of the array [lines] a part that is no longer. *)
Lemma completeBoundary_call_ok (gb : JsProp -> option string) (f : nat) :
  crec_ok f (completeBoundary_call gb f).
Proof.
  induction f as [|f IH]; intros boundary lines Hb Hlen; [lia|].
  cbn [completeBoundary_call].
  destruct boundary as [|c b]; [congruence|]. cbn [Js.is_empty].
  destruct (cscan_ok gb f (completeBoundary_call gb f) IH lines None
              (MkCState ∅ BUnset "" false None 0)) as (st' & -> & Hwf).
  { split; [reflexivity|]. cbn [childBoundary]. lia. }
  eexists _, _, _. split; [reflexivity|]. split; [exact Hwf|].
  rewrite length_take. lia.
Qed.

(** X11. [completeBoundary] ends on every input, and it returns [null] for
    an empty delimiter only: for a delimiter that is not empty the result
    is a record with that same delimiter, resolved into a part that has a
    header object and whose body is unset, a string, or an array of records
    resolved in the same way (no string and no record with lines left in
    it). *)
Theorem completeBoundary_shape (gb : JsProp -> option string) (f : nat) :
  forall (boundary : string) (lines : list string),
    length lines < f ->
    (boundary = "" -> completeBoundary gb f boundary lines = Ok None) /\
    (boundary <> "" ->
     exists h body,
       completeBoundary gb f boundary lines
         = Ok (Some (IBoundary boundary None (Some (MkPart (Some h) body)))) /\
       wf_body body = true).
Proof.
  intros boundary lines Hlen. split.
  - intros ->. destruct f as [|f]; [lia | reflexivity].
  - intros Hb.
    destruct (completeBoundary_call_ok gb f boundary lines Hb Hlen)
      as (h & body & lines' & Hc & Hwf & _).
    exists h, body. unfold completeBoundary. rewrite Hc. auto.
Qed.

Lemma completeBoundary_shape_witness :
  ("B" = "" ->
   completeBoundary Sample.getBoundary 20 "B" Ex.alternative_lines = Ok None) /\
  ("B" <> "" ->
   exists h body,
     completeBoundary Sample.getBoundary 20 "B" Ex.alternative_lines
       = Ok (Some (IBoundary "B" None (Some (MkPart (Some h) body)))) /\
     wf_body body = true).
Proof.
  apply (completeBoundary_shape Sample.getBoundary 20 "B" Ex.alternative_lines).
  vm_compute. lia.
Defined.

(** ** read: parsing, then reading the tree *)

Section ReadTree.

Context {collab : Collaborators}.

(** X12. Unless a function is passed as [options] next to a [callback],
    [read] on a string is [read] on the tree that [parse] returns for it,
    with the same calls of the callback; and when [parse] returns an error,
    [read] ends with that error: it hands it to the callback in effect and
    returns it, unless that callback throws. *)
Theorem read_string_is_read_tree (s : string) (options : OptionsArg)
    (callback : option Callback) :
  (forall g, options = OptFunction g -> callback = None) ->
  (forall p,
     fst (parse getBoundary (Some s) (shift_options options callback) None)
       = ReturnsValue p ->
     read (EmlString s) options callback
       = read (EmlObject (Some p)) options callback) /\
  (forall e,
     fst (parse getBoundary (Some s) (shift_options options callback) None)
       = ReturnsError e ->
     fst (read (EmlString s) options callback)
       = after_callback (shift_callback options callback) (Some e)
           (ReturnsError e)).
Proof.
  intros Hopt. unfold read.
  set (options' := shift_options options callback).
  assert (Hsh : shift_callback options' None = None).
  { subst options'. destruct options as [| | |g]; try reflexivity.
    rewrite (Hopt g eq_refl). reflexivity. }
  unfold parse. rewrite Hsh. cbn [after_callback].
  pose proof (parse_try_sound getBoundary (Some s) (parse_options options' None)) as H.
  destruct (parse_try getBoundary (Some s) (parse_options options' None))
    as [q|e q|]; [| |destruct H].
  - split; [|discriminate]. intros p [= <-]. reflexivity.
  - rewrite (returned_error _ _ H). split; [discriminate|].
    intros e' [= <-]. cbn [fst]. now rewrite (returned_error _ _ H).
Qed.

(** X13. Unless a function is passed as [options] next to a [callback],
    [read] calls the callback in effect exactly once, with the error and
    the result from which the returned value is taken; exactly one of the
    two is set. If that call throws, the exception escapes from [read];
    otherwise [read] returns the error, or the result when there is no
    error. *)
Theorem read_reports_once (eml : EmlArg) (options : OptionsArg)
    (callback : option Callback) :
  (forall g, options = OptFunction g -> callback = None) ->
  exists (error : option JsError) (result : option Readed),
    read eml options callback =
      (match shift_callback options callback with
       | Some f =>
           match cb_throws f error with
           | Some thrown => Raises thrown
           | None => returned error result
           end
       | None => returned error result
       end,
       match shift_callback options callback with
       | Some f => [ByRead (MkCall f error result)]
       | None => []
       end)
    /\ (error = None <-> is_Some result).
Proof.
  intros Hopt. unfold read.
  set (options' := shift_options options callback).
  assert (Hsh : shift_callback options' None = None).
  { subst options'. destruct options as [| | |g]; try reflexivity.
    rewrite (Hopt g eq_refl). reflexivity. }
  destruct eml as [s|data|].
  - unfold parse. rewrite Hsh. cbn [after_callback].
    pose proof (parse_try_sound getBoundary (Some s) (parse_options options' None))
      as H.
    destruct (parse_try getBoundary (Some s) (parse_options options' None))
      as [q|e q|]; [| |destruct H].
    + cbn [returned map app]. destruct (_read (Some q)) as [e|r].
      * exists (Some e), None. split; [reflexivity|].
        split; [discriminate | intros [? [=]]].
      * exists None, (Some r). split; [reflexivity|]. split; eauto.
    + rewrite (returned_error _ _ H). cbn [map app].
      exists (Some e), None. split; [reflexivity|].
      split; [discriminate | intros [? [=]]].
  - cbn [app]. destruct (_read data) as [e|r].
    + exists (Some e), None. split; [reflexivity|].
      split; [discriminate | intros [? [=]]].
    + exists None, (Some r). split; [reflexivity|]. split; eauto.
  - cbn [app]. exists (Some (new_Error "Missing EML file content!")), None.
    split; [reflexivity|]. split; [discriminate | intros [? [=]]].
Qed.

End ReadTree.

Lemma read_string_is_read_tree_witness :
  (forall p,
     fst (parse getBoundary (Some Ex.plain) (shift_options OptUndefined None) None)
       = ReturnsValue p ->
     read (EmlString Ex.plain) OptUndefined None
       = read (EmlObject (Some p)) OptUndefined None) /\
  (forall e,
     fst (parse getBoundary (Some Ex.plain) (shift_options OptUndefined None) None)
       = ReturnsError e ->
     fst (read (EmlString Ex.plain) OptUndefined None) = ReturnsError e).
Proof.
  apply (read_string_is_read_tree Ex.plain OptUndefined None). discriminate.
Defined.

Lemma read_reports_once_witness :
  exists (error : option JsError) (result : option Readed),
    read (EmlString Ex.plain) (OptFunction Ex.rethrow) None =
      (match cb_throws Ex.rethrow error with
       | Some thrown => Raises thrown
       | None => returned error result
       end,
       [ByRead (MkCall Ex.rethrow error result)])
    /\ (error = None <-> is_Some result).
Proof.
  apply (read_reports_once (EmlString Ex.plain) (OptFunction Ex.rethrow) None).
  intros g _. reflexivity.
Defined.

(** ** read: the fields derived from the root headers *)

Section RootFields.

Context {collab : Collaborators}.

(** [_append] leaves the fields derived from the root headers alone. *)
Lemma _append_scalars hs content r r' :
  _append hs content r = inr r' -> scalars r' = scalars r.
Proof.
  unfold _append. destruct hs as [h|]; [|discriminate].
  unfold mbind, Exc_bind, mret, Exc_ret.
  repeat case_match; try discriminate; intros [= <-]; reflexivity.
Qed.

Lemma read_nested_scalars r x r' :
  read_nested (inr r) x = inr r' -> scalars r' = scalars r.
Proof.
  unfold read_nested. rewrite bind_inr.
  destruct x as [s|d ls [[hs b]|]]; [intros [= <-]; reflexivity | | discriminate].
  destruct b as [|s|items]; try apply _append_scalars.
  apply (fold_left_exc append_bound (fun r1 => scalars r1 = scalars r));
    [reflexivity | | reflexivity].
  intros r1 y r2 Hr. unfold append_bound. rewrite bind_inr.
  destruct y as [s|d' ls' [[hs' b']|]]; try discriminate.
  intros H. rewrite (_append_scalars _ _ _ _ H). exact Hr.
Qed.

Lemma read_block_scalars r item r' :
  read_block (inr r) item = inr r' -> scalars r' = scalars r.
Proof.
  unfold read_block. rewrite bind_inr.
  destruct item as [s|d ls [[hs b]|]]; try (intros [= <-]; reflexivity).
  destruct b as [|s|items]; [intros [= <-]; reflexivity | apply _append_scalars |].
  destruct hs as [h|]; [|discriminate].
  apply (fold_left_exc read_nested (fun r1 => scalars r1 = scalars r)).
  - reflexivity.
  - intros r1 x r2 Hr H. rewrite (read_nested_scalars _ _ _ H). exact Hr.
  - destruct (_ && _); reflexivity.
Qed.

Lemma read_try_scalars (h : Headers) (b : Body) (r : Readed) :
  read_try (MkPart (Some h) b) = inr r ->
  exists r0, read_scalars h = inr r0 /\ scalars r = scalars r0.
Proof.
  unfold read_try. cbn [part_headers part_body].
  destruct (read_scalars h) as [e|r0]; [discriminate|].
  rewrite bind_inr. intros H. exists r0. split; [reflexivity|].
  destruct b as [|s|items].
  - injection H as <-. reflexivity.
  - apply _append_scalars in H. exact H.
  - destruct (root_boundary h); [|injection H as <-; reflexivity].
    revert H. apply (fold_left_exc read_block (fun r1 => scalars r1 = scalars r0));
      [reflexivity | | reflexivity].
    intros r1 x r2 Hr H. rewrite (read_block_scalars _ _ _ H). exact Hr.
Qed.

Lemma derive_inv {A} (h : Headers) (key : string) (g : JsProp -> Exc A)
    (x : option A) :
  derive h key g = inr x ->
  if truthy (get_prop h key)
  then exists a, g (get_prop h key) = inr a /\ x = Some a
  else x = None.
Proof.
  unfold derive. destruct (truthy (get_prop h key)).
  - destruct (g (get_prop h key)) as [e|a]; [discriminate|].
    rewrite bind_inr. intros [= <-]. eauto.
  - intros [= <-]. reflexivity.
Qed.

(** X14. The fields [date], [subject], [from] and [to] of what [read]
    returns for a parsed tree, and [headers], depend on the root headers
    only, whatever the body holds: [headers] is the root header object; a
    field whose header is missing or empty stays unset; otherwise [date] is
    made from the Date value, [subject] is the decoded Subject value, and
    [from] and [to] are the addresses read from the From and To values. *)
Theorem read_root_fields (h : Headers) (b : Body) (options : OptionsArg)
    (callback : option Callback) (r : Readed) :
  fst (read (EmlObject (Some (MkPart (Some h) b))) options callback)
    = ReturnsValue r ->
  headers r = Some h /\
  date r = (if truthy (get_prop h "Date")
            then Some (to_str (get_prop h "Date")) else None) /\
  (if truthy (get_prop h "Subject")
   then exists s, unquote_header (get_prop h "Subject") = inr s /\
                  subject r = Some s
   else subject r = None) /\
  (if truthy (get_prop h "From")
   then exists a, getEmailAddress (get_prop h "From") = inr a /\ from r = Some a
   else from r = None) /\
  (if truthy (get_prop h "To")
   then exists a, getEmailAddress (get_prop h "To") = inr a /\ to r = Some a
   else to r = None).
Proof.
  unfold read, _read. cbn [fst app].
  intros Hv; apply after_callback_value in Hv; revert Hv.
  destruct (read_try (MkPart (Some h) b)) as [e|r1] eqn:Ht.
  - unfold returned. destruct (error_truthy e); discriminate.
  - cbn [returned]. intros [= <-].
    destruct (read_try_scalars h b r1 Ht) as (r0 & H0 & Hsc).
    unfold scalars in Hsc. injection Hsc as Hd Hs Hf Hto _ Hh.
    rewrite Hd, Hs, Hf, Hto, Hh. clear Hd Hs Hf Hto Hh Ht.
    revert H0. unfold read_scalars.
    destruct (derive h "Date" _) as [|d] eqn:Ed; [discriminate|]. rewrite bind_inr.
    destruct (derive h "Subject" _) as [|s] eqn:Es; [discriminate|]. rewrite bind_inr.
    destruct (derive h "From" _) as [|f] eqn:Ef; [discriminate|]. rewrite bind_inr.
    destruct (derive h "To" _) as [|t] eqn:Et; [discriminate|]. rewrite bind_inr.
    destruct (derive h "CC" _) as [|c1]; [discriminate|]. rewrite bind_inr.
    destruct (derive h "Cc" _) as [|c2]; [discriminate|]. rewrite bind_inr.
    intros [= <-]. cbn [headers date subject from to].
    apply derive_inv in Ed, Es, Ef, Et.
    split; [reflexivity|]. split; [|auto].
    destruct (truthy (get_prop h "Date")); [|exact Ed].
    destruct Ed as (a & [= <-] & ->). reflexivity.
Qed.

End RootFields.

Lemma read_root_fields_witness :
  headers Ex.letter_result = Some Ex.letter_headers /\
  date Ex.letter_result
    = (if truthy (get_prop Ex.letter_headers "Date")
       then Some (to_str (get_prop Ex.letter_headers "Date")) else None) /\
  (if truthy (get_prop Ex.letter_headers "Subject")
   then exists s, unquote_header (get_prop Ex.letter_headers "Subject") = inr s /\
                  subject Ex.letter_result = Some s
   else subject Ex.letter_result = None) /\
  (if truthy (get_prop Ex.letter_headers "From")
   then exists a, getEmailAddress (get_prop Ex.letter_headers "From") = inr a /\
                  from Ex.letter_result = Some a
   else from Ex.letter_result = None) /\
  (if truthy (get_prop Ex.letter_headers "To")
   then exists a, getEmailAddress (get_prop Ex.letter_headers "To") = inr a /\
                  to Ex.letter_result = Some a
   else to Ex.letter_result = None).
Proof.
  apply (read_root_fields Ex.letter_headers (BStr "Hello") OptUndefined None
           Ex.letter_result).
  vm_compute. reflexivity.
Defined.

(** ** read: where a part goes *)

Section Dispatch.

Context {collab : Collaborators}.

(** Under a transfer encoding that passes the content through,
    [transfer_decode] returns the content. *)
Lemma transfer_decode_through (ct encoding : JsProp) (charset : string)
    (content : Content) :
  passes_through encoding = true ->
  transfer_decode ct encoding charset content = inr content /\
  is_str "base64" encoding = false.
Proof.
  unfold passes_through, transfer_decode.
  destruct encoding as [|e|l|]; try discriminate; [intros _; auto|].
  intros H. apply andb_true_iff in H as [H H4]. apply andb_true_iff in H as [H H3].
  apply andb_true_iff in H as [H1 H2].
  apply negb_true_iff in H1, H2, H3, H4. cbn [is_str]. rewrite H1, H2.
  split; [|reflexivity].
  destruct (truthy (PStr e) && negb (String.eqb charset "utf8")); [|reflexivity].
  cbn [string_method]. rewrite bind_inr, H3, H4. reflexivity.
Qed.

Lemma _append_plain_text (h : Headers) (body : string) (r : Readed) :
  plain_text_part h ->
  _append (Some h) (CString body) r
    = inr (add_text body
             (content_type_of h, encoding_or_empty (transfer_encoding h)) r).
Proof.
  intros (Hcd & Hct & Hhtml & Hplain & Henc). unfold _append.
  destruct (transfer_decode_through (content_type_of h) (transfer_encoding h)
              (getCharsetName (default defaultCharset
                                 (getCharset (content_type_of h))))
              (CString body) Henc) as [-> Hb].
  rewrite bind_inr, Hcd, Hct, Hhtml, Hplain, Hb. cbn [negb andb content_string].
  rewrite bind_mret. reflexivity.
Qed.

(** X15. A single part that is plain text is shown as it is: for a parsed
    tree with a string body, no Content-Disposition, a Content-Type that
    holds [text/plain] and not [text/html], and a transfer encoding that
    passes the content through (none, or one such as [7bit]), [read] puts
    the body unchanged into [text], records the Content-Type and the
    encoding in [textheaders], and sets neither [html] nor [attachments]. *)
Theorem read_plain_text (h : Headers) (body : string) (options : OptionsArg)
    (callback : option Callback) (r : Readed) :
  plain_text_part h ->
  fst (read (EmlObject (Some (MkPart (Some h) (BStr body)))) options callback)
    = ReturnsValue r ->
  text r = Some body /\
  textheaders r
    = Some (content_type_of h, encoding_or_empty (transfer_encoding h)) /\
  html r = None /\ attachments r = None.
Proof.
  intros Hp. unfold read, _read, read_try. cbn [fst app part_headers part_body].
  intros Hv; apply after_callback_value in Hv; revert Hv.
  destruct (read_scalars h) as [e|r0] eqn:H0.
  - rewrite bind_inl. unfold returned. destruct (error_truthy e); discriminate.
  - rewrite bind_inr, (_append_plain_text h body r0 Hp). cbn [returned].
    intros [= <-].
    destruct (read_scalars_inv h r0 H0) as (_ & _ & _ & _ & _ & _ & Ht & Hh & Ha).
    cbn [add_text text textheaders html attachments]. rewrite Ht, Hh, Ha. auto.
Qed.

(** X16. Each call of [_append] that succeeds adds to exactly one of
    [attachments], [html] and [text], and leaves every other field alone: a
    part with a Content-Disposition, or without a Content-Type that holds
    [text/html] or [text/plain], becomes one more attachment; otherwise a
    Content-Type that holds [text/html] sends the part to [html], also when
    it holds [text/plain] as well, and only the remaining parts go to
    [text]. *)
Theorem append_one_bucket (h : Headers) (content : Content) (r r' : Readed) :
  _append (Some h) content r = inr r' ->
  let leaf := (content_type_of h, encoding_or_empty (transfer_encoding h)) in
  scalars r' = scalars r /\
  multipartAlternative r' = multipartAlternative r /\ data r' = data r /\
  if dispatched_as_attachment h then
    text r' = text r /\ html r' = html r /\
    textheaders r' = textheaders r /\ htmlheaders r' = htmlheaders r /\
    exists a, attachments r' = Some (default [] (attachments r) ++ [a])
  else if index_found "text/html" (content_type_of h) then
    attachments r' = attachments r /\
    text r' = text r /\ textheaders r' = textheaders r /\
    is_Some (html r') /\ htmlheaders r' = Some leaf
  else
    attachments r' = attachments r /\
    html r' = html r /\ htmlheaders r' = htmlheaders r /\
    is_Some (text r') /\ textheaders r' = Some leaf.
Proof.
  intros H leaf. split; [exact (_append_scalars _ _ _ _ H)|].
  revert H. unfold _append, dispatched_as_attachment.
  destruct (transfer_decode _ _ _ content) as [e|c]; [discriminate|].
  rewrite bind_inr.
  destruct (truthy (get_prop h "Content-Disposition")); cbn [negb andb].
  - destruct (build_attachment h) as [e|a]; [discriminate|].
    rewrite bind_inr. intros [= <-]. cbn. repeat split; eauto.
    destruct (attachments r); eauto.
  - destruct (truthy (content_type_of h)); cbn [negb andb].
    + destruct (index_found "text/html" (content_type_of h)); cbn [negb orb].
      * intros [= <-]. cbn. repeat split; eauto.
      * destruct (index_found "text/plain" (content_type_of h)); cbn [negb].
        -- destruct (if is_str "base64" (transfer_encoding h) then _ else _)
             as [e|s]; [discriminate|].
           rewrite bind_inr. intros [= <-]. cbn. repeat split; eauto.
        -- destruct (build_attachment h) as [e|a]; [discriminate|].
           rewrite bind_inr. intros [= <-]. cbn. repeat split; eauto.
           destruct (attachments r); eauto.
    + destruct (build_attachment h) as [e|a]; [discriminate|].
      rewrite bind_inr. intros [= <-]. cbn. repeat split; eauto.
      destruct (attachments r); eauto.
Qed.

End Dispatch.

Lemma read_plain_text_witness :
  text Ex.letter_result = Some "Hello" /\
  textheaders Ex.letter_result
    = Some (content_type_of Ex.letter_headers,
            encoding_or_empty (transfer_encoding Ex.letter_headers)) /\
  html Ex.letter_result = None /\ attachments Ex.letter_result = None.
Proof.
  apply (read_plain_text Ex.letter_headers "Hello" OptUndefined None
           Ex.letter_result).
  - repeat split; vm_compute; reflexivity.
  - vm_compute. reflexivity.
Defined.

Lemma append_one_bucket_witness :
  let r' := add_text "Hello" (PStr "text/plain", PStr "") empty_readed in
  let leaf := (content_type_of Ex.letter_headers,
               encoding_or_empty (transfer_encoding Ex.letter_headers)) in
  scalars r' = scalars empty_readed /\
  multipartAlternative r' = multipartAlternative empty_readed /\
  data r' = data empty_readed /\
  if dispatched_as_attachment Ex.letter_headers then
    text r' = text empty_readed /\ html r' = html empty_readed /\
    textheaders r' = textheaders empty_readed /\
    htmlheaders r' = htmlheaders empty_readed /\
    exists a, attachments r' = Some (default [] (attachments empty_readed) ++ [a])
  else if index_found "text/html" (content_type_of Ex.letter_headers) then
    attachments r' = attachments empty_readed /\
    text r' = text empty_readed /\ textheaders r' = textheaders empty_readed /\
    is_Some (html r') /\ htmlheaders r' = Some leaf
  else
    attachments r' = attachments empty_readed /\
    html r' = html empty_readed /\ htmlheaders r' = htmlheaders empty_readed /\
    is_Some (text r') /\ textheaders r' = Some leaf.
Proof.
  apply (append_one_bucket Ex.letter_headers (CString "Hello") empty_readed
           (add_text "Hello" (PStr "text/plain", PStr "") empty_readed)).
  vm_compute. reflexivity.
Defined.

(** ** read: the text parts of a multipart message *)

Section TextParts.

Context {collab : Collaborators}.

Lemma read_block_text (p : string * Headers * string) (r : Readed) :
  plain_text_part p.1.2 ->
  read_block (inr r) (leaf_item p)
    = inr (add_text p.2 (content_type_of p.1.2,
                         encoding_or_empty (transfer_encoding p.1.2)) r).
Proof.
  intros Hp. unfold read_block, leaf_item. rewrite bind_inr.
  apply _append_plain_text. exact Hp.
Qed.

Lemma read_blocks_text (parts : list (string * Headers * string)) :
  Forall (fun p => plain_text_part p.1.2) parts ->
  forall r,
    exists r',
      fold_left read_block (map leaf_item parts) (inr r) = inr r' /\
      text r' = match parts with
                | [] => text r
                | _ => Some (default "" (text r) +:+ concat_all (map snd parts))
                end /\
      html r' = html r /\ attachments r' = attachments r.
Proof.
  induction 1 as [|p parts Hp _ IH]; intros r.
  - exists r. auto.
  - cbn [map fold_left]. rewrite (read_block_text p r Hp).
    destruct (IH (add_text p.2 (content_type_of p.1.2,
                                encoding_or_empty (transfer_encoding p.1.2)) r))
      as (r' & -> & Ht & Hh & Ha).
    exists r'. split; [reflexivity|]. rewrite Hh, Ha. split; [|auto].
    rewrite Ht. cbn [add_text text map concat_all fold_right].
    assert (E : default "" (Some match text r with
                                 | Some old => if Js.is_empty old then p.2
                                               else old +:+ p.2
                                 | None => p.2
                                 end)
                = default "" (text r) +:+ p.2).
    { destruct (text r) as [old|]; [|reflexivity].
      destruct old; reflexivity. }
    destruct parts as [|q parts].
    + cbn [map fold_right default]. rewrite append_nil_r.
      f_equal. exact E.
    + rewrite E, append_assoc. reflexivity.
Qed.

(** X17. The plain-text parts of a multipart message are put end to end:
    when the root headers name a boundary and the body is an array of
    resolved records over parts that are plain text with a string body,
    [read] sets [text] to the bodies of the parts in their order, one after
    the other, and sets neither [html] nor [attachments]. *)
Theorem read_text_parts (h : Headers) (parts : list (string * Headers * string))
    (options : OptionsArg) (callback : option Callback) (r : Readed) :
  root_boundary h = true -> parts <> [] ->
  Forall (fun p => plain_text_part p.1.2) parts ->
  fst (read (EmlObject (Some (MkPart (Some h) (BArr (map leaf_item parts)))))
            options callback) = ReturnsValue r ->
  text r = Some (concat_all (map snd parts)) /\
  html r = None /\ attachments r = None.
Proof.
  intros Hb Hne Hall. unfold read, _read, read_try.
  cbn [fst app part_headers part_body].
  intros Hv; apply after_callback_value in Hv; revert Hv.
  destruct (read_scalars h) as [e|r0] eqn:H0.
  - rewrite bind_inl. unfold returned. destruct (error_truthy e); discriminate.
  - rewrite bind_inr, Hb.
    change (fold_left read_block (map leaf_item parts) (mret r0))
      with (fold_left read_block (map leaf_item parts) (inr r0)).
    destruct (read_blocks_text parts Hall r0) as (r' & -> & Ht & Hh & Ha).
    cbn [returned]. intros [= <-].
    destruct (read_scalars_inv h r0 H0) as (_ & _ & _ & _ & _ & _ & Ht0 & Hh0 & Ha0).
    rewrite Ht, Hh, Ha, Ht0, Hh0, Ha0.
    destruct parts; [congruence | auto].
Qed.

End TextParts.

Lemma read_text_parts_witness :
  text Ex.two_texts_result = Some (concat_all (map snd Ex.two_texts)) /\
  html Ex.two_texts_result = None /\ attachments Ex.two_texts_result = None.
Proof.
  apply (read_text_parts Ex.mixed_headers Ex.two_texts OptUndefined None
           Ex.two_texts_result).
  - vm_compute. reflexivity.
  - discriminate.
  - repeat constructor; vm_compute; reflexivity.
  - vm_compute. reflexivity.
Defined.

(** ** Decoding of header values and of quoted-printable text *)

Lemma strip_newlines_clean (s : string) :
  Js.all_chars Js.not_lf (Js.strip_newlines s) = true /\
  forall c, Js.all_chars Js.not_lf (Js.strip_newlines (String c s)) = true.
Proof.
  induction s as [|a s [IH1 IH2]].
  - split; [reflexivity|]. intros c. cbn [Js.strip_newlines].
    destruct (Js.code c =? 10)%N eqn:E10; [reflexivity|].
    destruct (Js.code c =? 13)%N; cbn [Js.all_chars]; unfold Js.not_lf;
      rewrite E10; reflexivity.
  - split; [apply IH2|]. intros c.
    change (Js.strip_newlines (String c (String a s)))
      with (if (Js.code c =? 10)%N then Js.strip_newlines (String a s)
            else if (Js.code c =? 13)%N then
              if (Js.code a =? 10)%N then Js.strip_newlines s
              else String c (Js.strip_newlines (String a s))
            else String c (Js.strip_newlines (String a s))).
    destruct (Js.code c =? 10)%N eqn:E10; [apply IH2|].
    assert (Hc : Js.all_chars Js.not_lf (String c (Js.strip_newlines (String a s)))
                 = true).
    { cbn [Js.all_chars]. unfold Js.not_lf at 1. rewrite E10. apply IH2. }
    destruct (Js.code c =? 13)%N; [|exact Hc].
    destruct (Js.code a =? 10)%N; [exact IH1 | exact Hc].
Qed.

Section Decoded.

Context {collab : Collaborators}.

(** X18. What [unquoteString] returns never holds a line feed, whatever
    the text and whatever the charset decoder returns for its encoded
    words. *)
Theorem unquoteString_no_line_feed (str : string) :
  Js.all_chars Js.not_lf (unquoteString str) = true.
Proof.
  unfold unquoteString. apply strip_newlines_clean.
Qed.

End Decoded.

(** *** Soft line breaks *)

Lemma last_char_some (a : string) :
  forall d, exists z, last_char (String d a) = Some z.
Proof.
  induction a as [|c a IH]; intros d; [exists d; reflexivity|].
  destruct (IH c) as [z Hz]. exists z. exact Hz.
Qed.

Lemma drop_blank_solid (r x : string) (z : ascii) :
  last_char r = Some z -> Replace.is_blank z = false ->
  Js.drop_while Replace.is_blank r <> "" /\
  Js.drop_while Replace.is_blank (r +:+ x) = Js.drop_while Replace.is_blank r +:+ x.
Proof.
  induction r as [|c r IH]; [discriminate|]. intros Hl Hz.
  change (String c r +:+ x) with (String c (r +:+ x)). cbn [Js.drop_while].
  destruct (Replace.is_blank c) eqn:Hc; [|split; [discriminate | reflexivity]].
  destruct r as [|d r]; [cbn in Hl; congruence|].
  apply IH; [exact Hl | exact Hz].
Qed.

(** The blanks before the end of a line are removed in a text with no
    regard to what follows a part of it that does not end with a blank. *)
Lemma trailing_blanks_app (a x : string) :
  ends_solid a = true ->
  Replace.trailing_blanks (a +:+ x)
    = Replace.trailing_blanks a +:+ Replace.trailing_blanks x.
Proof.
  unfold ends_solid. induction a as [|c a IH]; [reflexivity|]. intros H.
  change (String c a +:+ x) with (String c (a +:+ x)).
  destruct a as [|d a].
  - cbn [last_char] in H. apply negb_true_iff in H.
    cbn [Replace.trailing_blanks]. rewrite H. reflexivity.
  - assert (Hl : last_char (String c (String d a)) = last_char (String d a))
      by reflexivity.
    rewrite Hl in H. specialize (IH H).
    cbn [Replace.trailing_blanks]. fold Replace.trailing_blanks.
    destruct (Replace.is_blank c) eqn:Hc.
    + destruct (last_char_some a d) as [z Ez]. rewrite Ez in H.
      apply negb_true_iff in H.
      destruct (drop_blank_solid (String d a) x z Ez H) as [Hne Hd].
      rewrite Hd.
      destruct (Js.drop_while Replace.is_blank (String d a)) as [|e t] eqn:Ed;
        [congruence|].
      change (String e t +:+ x) with (String e (t +:+ x)). cbv iota.
      destruct (Replace.is_terminator e); rewrite IH; reflexivity.
    + rewrite IH. reflexivity.
Qed.

Lemma soft_breaks_skip (a y : string) :
  Js.all_chars no_equals a = true ->
  Replace.soft_breaks (a +:+ y) = a +:+ Replace.soft_breaks y.
Proof.
  induction a as [|c a IH]; [reflexivity|]. cbn [Js.all_chars]. intros H.
  apply andb_true_iff in H as [Hc Ha]. unfold no_equals in Hc.
  apply negb_true_iff in Hc.
  change (String c a +:+ y) with (String c (a +:+ y)).
  cbn [Replace.soft_breaks]. rewrite Hc, (IH Ha). reflexivity.
Qed.

Lemma trailing_blanks_chars (p : ascii -> bool) (a : string) :
  Js.all_chars p a = true -> Js.all_chars p (Replace.trailing_blanks a) = true.
Proof.
  induction a as [|c a IH]; [reflexivity|]. cbn [Js.all_chars]. intros H.
  apply andb_true_iff in H as [Hc Ha]. specialize (IH Ha).
  cbn [Replace.trailing_blanks].
  destruct (Replace.is_blank c).
  - destruct (Js.drop_while Replace.is_blank a) as [|d t]; [reflexivity|].
    destruct (Replace.is_terminator d); [exact IH|].
    cbn [Js.all_chars]. now rewrite Hc.
  - cbn [Js.all_chars]. now rewrite Hc.
Qed.

Section QuotedPrintable.

Context {collab : Collaborators}.

(** X19. A soft line break joins two lines of quoted-printable text: an
    equals sign followed by CR LF, or by LF alone, is dropped by
    [unquotePrintable], so that the text decodes like the text without the
    break. This holds after a text [a] that holds no equals sign and does
    not end with a tab or a space, and before any text [b]. *)
Theorem unquotePrintable_soft_break (a b charset : string) (qEncoding : bool) :
  Js.all_chars no_equals a = true -> ends_solid a = true ->
  unquotePrintable (a +:+ "=" +:+ Js.crlf +:+ b) charset qEncoding
    = unquotePrintable (a +:+ b) charset qEncoding /\
  unquotePrintable (a +:+ "=" +:+ String Js.LF b) charset qEncoding
    = unquotePrintable (a +:+ b) charset qEncoding.
Proof.
  intros Ha Hs.
  assert (H : forall x, Replace.soft_breaks (Replace.trailing_blanks (a +:+ x))
                        = Replace.trailing_blanks a
                          +:+ Replace.soft_breaks (Replace.trailing_blanks x)).
  { intros x. rewrite (trailing_blanks_app a x Hs).
    apply soft_breaks_skip, trailing_blanks_chars, Ha. }
  unfold unquotePrintable. rewrite !H. split; reflexivity.
Qed.

End QuotedPrintable.

Lemma unquotePrintable_soft_break_witness :
  unquotePrintable ("J'interdis aux marchands de vanter trop"
                    +:+ "=" +:+ Js.crlf +:+ " leur marchandise") "utf8" false
    = unquotePrintable ("J'interdis aux marchands de vanter trop"
                        +:+ " leur marchandise") "utf8" false /\
  unquotePrintable ("J'interdis aux marchands de vanter trop"
                    +:+ "=" +:+ String Js.LF " leur marchandise") "utf8" false
    = unquotePrintable ("J'interdis aux marchands de vanter trop"
                        +:+ " leur marchandise") "utf8" false.
Proof.
  apply (unquotePrintable_soft_break "J'interdis aux marchands de vanter trop"
           " leur marchandise" "utf8" false); reflexivity.
Defined.

(** ** getCharset *)

Lemma charset_group_shape (s name : string) :
  Meta.charset_group s = Some name ->
  name <> "" /\ Js.all_chars Js.is_name_char name = true.
Proof.
  unfold Meta.charset_group.
  destruct (Js.drop_while (fun c => negb (Js.is_word c)) s) as [|c r] eqn:E.
  - destruct (existsb _ _); [|discriminate]. intros [= <-].
    split; [discriminate | reflexivity].
  - intros [= <-]. apply drop_while_head in E. apply negb_false_iff in E.
    assert (Hc : Js.is_name_char c = true) by (unfold Js.is_name_char; now rewrite E).
    split; [|exact (take_while_chars Js.is_name_char (String c r))].
    cbn [Js.take_while]. rewrite Hc. discriminate.
Qed.

Lemma charset_search_shape (s name : string) :
  Meta.charset_search s = Some name ->
  name <> "" /\ Js.all_chars Js.is_name_char name = true.
Proof.
  induction s as [|c s IH].
  - cbn. discriminate.
  - cbn [Meta.charset_search].
    destruct (Meta.charset_at (String c s)) as [g|] eqn:E; [|exact IH].
    intros [= <-]. unfold Meta.charset_at in E.
    destruct (Js.starts_with "charset" (String c s)); [|discriminate].
    destruct (Js.drop_while Js.is_space (Js.drop 7 (String c s))) as [|d r];
      [discriminate|].
    destruct (Meta.is_eq d); [|discriminate].
    exact (charset_group_shape _ _ E).
Qed.

Section Charset.

Context {collab : Collaborators}.

(** X20. When [getCharset] finds a character set name in a Content-Type
    value, the name is not empty and is made of letters, digits,
    underscores and dashes only: quotes, white space and semicolons around
    it are never part of it. *)
Theorem getCharset_name_shape (contentType : JsProp) (name : string) :
  getCharset contentType = Some name ->
  name <> "" /\ Js.all_chars Js.is_name_char name = true.
Proof. unfold getCharset. apply charset_search_shape. Qed.

End Charset.

Lemma getCharset_name_shape_witness :
  getCharset (PStr ("text/plain; charset=" +:+ String Js.dquote "utf-8"
                    +:+ String Js.dquote "; format=flowed")) = Some "utf-8" /\
  "utf-8" <> "" /\ Js.all_chars Js.is_name_char "utf-8" = true.
Proof.
  assert (H : getCharset (PStr ("text/plain; charset=" +:+ String Js.dquote "utf-8"
                                +:+ String Js.dquote "; format=flowed"))
              = Some "utf-8") by (vm_compute; reflexivity).
  split; [exact H|]. exact (getCharset_name_shape _ _ H).
Defined.

Lemma two_prefixes (a c' c : string) :
  Js.starts_with a c = true -> Js.starts_with c' c = true ->
  String.length a <= String.length c' -> Js.starts_with a c' = true.
Proof.
  unfold Js.starts_with. revert c' c.
  induction a as [|x a IH]; intros c' c Ha Hc Hlen; [destruct c'; reflexivity|].
  destruct c' as [|z c']; [cbn in Hlen; lia|].
  destruct c as [|y c]; [discriminate Ha|].
  cbn [String.prefix] in *.
  destruct (ascii_dec x y) as [->|]; [|discriminate Ha].
  destruct (ascii_dec z y) as [->|]; [|discriminate Hc].
  destruct (ascii_dec y y); [|congruence].
  apply (IH c' c Ha Hc). cbn in Hlen. lia.
Qed.

Lemma starts_with_short (a b c c' : string) :
  Js.starts_with a (b +:+ c) = true -> Js.starts_with c' c = true ->
  String.length a <= String.length b + String.length c' ->
  Js.starts_with a (b +:+ c') = true.
Proof.
  revert a. induction b as [|y b IH]; intros a Ha Hc Hlen.
  - exact (two_prefixes a c' c Ha Hc Hlen).
  - destruct a as [|x a]; [reflexivity|].
    change (String y b +:+ c) with (String y (b +:+ c)) in Ha.
    change (String y b +:+ c') with (String y (b +:+ c')).
    unfold Js.starts_with in *. cbn [String.prefix] in *.
    destruct (ascii_dec x y); [|discriminate Ha].
    apply IH; [exact Ha | exact Hc | cbn in Hlen; lia].
Qed.

(** The search for [charset] passes over a text in which the word does not
    begin. *)
Lemma charset_search_skip (p t : string) :
  Js.starts_with "charse" t = true ->
  Js.includes "charset" (p +:+ "charse") = false ->
  Meta.charset_search (p +:+ t) = Meta.charset_search t.
Proof.
  intros Ht. induction p as [|x p IH]; [reflexivity|].
  change (String x p +:+ "charse") with (String x (p +:+ "charse")).
  cbn [Js.includes]. intros H. apply orb_false_iff in H as [H1 H2].
  change (String x p +:+ t) with (String x (p +:+ t)).
  cbn [Meta.charset_search]. unfold Meta.charset_at at 1.
  destruct (Js.starts_with "charset" (String x (p +:+ t))) eqn:E.
  - apply (starts_with_short "charset" (String x p) t "charse") in E;
      [|exact Ht|cbn; lia].
    change (String x p +:+ "charse") with (String x (p +:+ "charse")) in E.
    congruence.
  - apply IH. exact H2.
Qed.

Section CharsetFound.

Context {collab : Collaborators}.

(** X21. [getCharset] finds the name after the first [charset=]: when the
    word [charset] does not begin earlier in the value, and the equals sign
    is followed by characters that are no letters, digits or underscores
    (a quote, for one), then by a name of letters, digits, underscores and
    dashes that begins with none of the latter, and the name ends there,
    [getCharset] returns that name. *)
Theorem getCharset_finds_name (p q name rest : string) :
  Js.includes "charset" (p +:+ "charse") = false ->
  Js.all_chars non_word q = true ->
  name <> "" -> Js.all_chars Js.is_name_char name = true ->
  Js.head_fails non_word name = true ->
  Js.head_fails Js.is_name_char rest = true ->
  getCharset (PStr (p +:+ "charset=" +:+ q +:+ name +:+ rest)) = Some name.
Proof.
  intros Hp Hq Hne Hname Hhead Hrest. unfold getCharset. cbn [to_str].
  rewrite (charset_search_skip p ("charset=" +:+ q +:+ name +:+ rest) eq_refl Hp).
  change ("charset=" +:+ q +:+ name +:+ rest)
    with (String "c" ("harset=" +:+ q +:+ name +:+ rest)).
  cbn [Meta.charset_search]. unfold Meta.charset_at.
  change (Js.starts_with "charset" (String "c" ("harset=" +:+ q +:+ name +:+ rest)))
    with true. cbv iota.
  change (Js.drop_while Js.is_space
            (Js.drop 7 (String "c" ("harset=" +:+ q +:+ name +:+ rest))))
    with (String "=" (q +:+ name +:+ rest)).
  cbv iota. change (Meta.is_eq "=") with true. cbv iota.
  unfold Meta.charset_group.
  assert (Hh : Js.head_fails non_word (name +:+ rest) = true)
    by (destruct name; [congruence | exact Hhead]).
  destruct (take_drop_app non_word q (name +:+ rest) Hq Hh) as [_ Hd].
  unfold non_word in Hd. rewrite Hd.
  destruct (take_drop_app Js.is_name_char name rest Hname Hrest) as [Ht _].
  destruct name as [|c name]; [congruence|].
  change (String c name +:+ rest) with (String c (name +:+ rest)) in *.
  cbv iota. rewrite Ht. reflexivity.
Qed.

End CharsetFound.

Lemma getCharset_finds_name_witness :
  getCharset (PStr ("application/json; " +:+ "charset=" +:+ String Js.dquote ""
                    +:+ "iso-8859-2" +:+ String Js.dquote "; x=y"))
    = Some "iso-8859-2".
Proof.
  apply (getCharset_finds_name "application/json; " (String Js.dquote "")
           "iso-8859-2" (String Js.dquote "; x=y"));
    try reflexivity.
  discriminate.
Defined.

(** ** Encoded words *)

Lemma starts_with_mark (r x : string) :
  r <> "" ->
  Js.starts_with "?=" (r +:+ "?=" +:+ x) = Js.starts_with "?=" r.
Proof.
  intros Hr. destruct r as [|c r]; [congruence|].
  change (String c r +:+ "?=" +:+ x) with (String c (r +:+ "?=" +:+ x)).
  unfold Js.starts_with. cbn [String.prefix].
  destruct (ascii_dec "?" c); [|reflexivity].
  destruct r as [|d r].
  - reflexivity.
  - change (String d r +:+ "?=" +:+ x) with (String d (r +:+ "?=" +:+ x)).
    cbn [String.prefix].
    destruct (ascii_dec "=" d); [destruct r; reflexivity | reflexivity].
Qed.

Lemma payload_exact (p x : string) :
  lazy_payload p = true -> Word.payload (p +:+ "?=" +:+ x) = Some (p, x).
Proof.
  induction p as [|c r IH]; [discriminate|]. cbn [lazy_payload]. intros H.
  apply andb_true_iff in H as [Hc H].
  change (String c r +:+ "?=" +:+ x) with (String c (r +:+ "?=" +:+ x)).
  cbn [Word.payload]. rewrite Hc.
  destruct r as [|d r].
  - change ("" +:+ "?=" +:+ x) with ("?=" +:+ x).
    rewrite starts_with_app. reflexivity.
  - cbn [Js.is_empty orb] in H. apply andb_true_iff in H as [Hs Hl].
    apply negb_true_iff in Hs.
    rewrite (starts_with_mark (String d r) x) by discriminate.
    rewrite Hs, (IH Hl). reflexivity.
Qed.

Lemma at_start_word (cs : string) (t : ascii) (p x : string) :
  cs <> "" -> Js.all_chars Word.not_qmark cs = true ->
  Word.is_B t || Word.is_Q t = true -> lazy_payload p = true ->
  Word.at_start ("=?" +:+ cs +:+ "?" +:+ String t ("?" +:+ p +:+ "?=" +:+ x))
    = Some (Word.MkMatch cs t p x).
Proof.
  intros Hne Hcs Ht Hp. unfold Word.at_start.
  rewrite starts_with_app.
  change (Js.drop 2 ("=?" +:+ ?u)) with u. cbv zeta.
  destruct (take_drop_app Word.not_qmark cs
              ("?" +:+ String t ("?" +:+ p +:+ "?=" +:+ x)) Hcs eq_refl) as [-> ->].
  destruct cs as [|c cs]; [congruence|]. cbn [Js.is_empty].
  change ("?" +:+ String t ("?" +:+ p +:+ "?=" +:+ x))
    with (String "?" (String t (String "?" (p +:+ "?=" +:+ x)))).
  cbv iota. change (Word.is_qmark "?") with true. rewrite Ht. cbn [andb].
  rewrite (payload_exact p x Hp). reflexivity.
Qed.

Lemma exec_at_start (s : string) (m : Word.Match) :
  Word.at_start s = Some m -> Word.exec s = Some m.
Proof. intros H. destruct s; cbn [Word.exec]; rewrite H; reflexivity. Qed.

Lemma matches_from_skip (s : string) :
  forall k, String.length s <= k -> Word.matches_from k s = [].
Proof.
  induction s as [|c s IH]; intros k Hk; [reflexivity|].
  cbn [String.length] in Hk. destruct k as [|k]; [lia|].
  cbn [Word.matches_from]. apply IH. lia.
Qed.

Lemma drop_all (s : string) : Js.drop (String.length s) s = "".
Proof. induction s as [|c s IH]; [reflexivity | exact IH]. Qed.

Lemma expand_plain (matched before after repl : string) :
  Js.all_chars no_dollar repl = true ->
  Replace.expand matched before after repl = repl.
Proof.
  induction repl as [|c r IH]; [reflexivity|]. cbn [Js.all_chars]. intros H.
  apply andb_true_iff in H as [Hc Hr]. unfold no_dollar in Hc.
  apply negb_true_iff in Hc. cbn [Replace.expand]. rewrite Hc, (IH Hr).
  reflexivity.
Qed.

Section EncodedWords.

Context {collab : Collaborators}.

(** X22. [decodeJoint] on a text that begins with an encoded word
    [=?charset?t?payload?=], where [t] is B or Q in either case: the
    charset name is looked up with [getCharsetName]; with Q the payload is
    decoded by [unquotePrintable] with the Q-encoding flag; with B it is
    decoded from Base64, its line breaks removed, and then from the charset
    (through [fromBase64] and [encode] when the charset is utf8). What
    follows the encoded word is not part of the result. *)
Theorem decodeJoint_encoded_word (cs : string) (t : ascii) (p rest : string) :
  cs <> "" -> Js.all_chars Word.not_qmark cs = true ->
  Word.is_B t || Word.is_Q t = true -> lazy_payload p = true ->
  decodeJoint ("=?" +:+ cs +:+ "?" +:+ String t ("?" +:+ p +:+ "?=" +:+ rest))
    = if Word.is_B t then
        if String.eqb (getCharsetName cs) "utf8"
        then decode (CBytes (encode (Base64_fromBase64 (Js.strip_newlines p))))
                    "utf8"
        else decode (CBytes (Base64_toUint8Array (Js.strip_newlines p)))
                    (getCharsetName cs)
      else unquotePrintable p (getCharsetName cs) true.
Proof.
  intros Hne Hcs Ht Hp. unfold decodeJoint.
  rewrite (exec_at_start _ _ (at_start_word cs t p rest Hne Hcs Ht Hp)).
  reflexivity.
Qed.

(** X23. [unquoteString] on a text that is one encoded word returns what
    [decodeJoint] makes of the word, without its line breaks, provided the
    decoded text holds no dollar sign (the decoded text is handed to
    [replace] as the replacement, in which a dollar sign can stand for
    something else). *)
Theorem unquoteString_encoded_word (cs : string) (t : ascii) (p : string) :
  cs <> "" -> Js.all_chars Word.not_qmark cs = true ->
  Word.is_B t || Word.is_Q t = true -> lazy_payload p = true ->
  Js.all_chars no_dollar (decodeJoint (encoded_word cs t p)) = true ->
  unquoteString (encoded_word cs t p)
    = Js.strip_newlines (decodeJoint (encoded_word cs t p)).
Proof.
  intros Hne Hcs Ht Hp Hd. unfold unquoteString.
  set (w := encoded_word cs t p) in *.
  assert (Hm : Word.matches w = [w]).
  { pose proof (at_start_word cs t p "" Hne Hcs Ht Hp) as Ha.
    change ("=?" +:+ cs +:+ "?" +:+ String t ("?" +:+ p +:+ "?=" +:+ ""))
      with w in Ha.
    unfold Word.matches.
    assert (Hw : exists c r, w = String c r) by (exists "="%char; eexists; reflexivity).
    destruct Hw as (c & r & Hw). rewrite Hw in Ha |- *.
    cbn [Word.matches_from]. rewrite Ha.
    assert (Ht' : Word.text (Word.MkMatch cs t p "") = String c r)
      by (rewrite <- Hw; reflexivity).
    rewrite Ht'. f_equal. apply matches_from_skip. cbn [String.length]. lia. }
  rewrite Hm. cbn [fold_left]. f_equal.
  unfold Replace.first. destruct w as [|c r] eqn:Hw; [discriminate Hm|].
  cbn [Replace.first_from]. rewrite starts_with_refl, drop_all.
  rewrite (expand_plain _ _ _ _ Hd), append_nil_r. reflexivity.
Qed.

End EncodedWords.

Lemma decodeJoint_encoded_word_witness :
  decodeJoint ("=?" +:+ "iso-8859-1" +:+ "?"
               +:+ String "q" ("?" +:+ "Caf=E9_noir" +:+ "?=" +:+ " tail"))
    = if Word.is_B "q" then
        if String.eqb (getCharsetName "iso-8859-1") "utf8"
        then decode (CBytes (encode (Base64_fromBase64
                                       (Js.strip_newlines "Caf=E9_noir"))))
                    "utf8"
        else decode (CBytes (Base64_toUint8Array (Js.strip_newlines "Caf=E9_noir")))
                    (getCharsetName "iso-8859-1")
      else unquotePrintable "Caf=E9_noir" (getCharsetName "iso-8859-1") true.
Proof.
  apply (decodeJoint_encoded_word "iso-8859-1" "q" "Caf=E9_noir" " tail");
    try reflexivity.
  discriminate.
Defined.

Lemma unquoteString_encoded_word_witness :
  unquoteString (encoded_word "iso-8859-1" "Q" "Caf=E9_noir")
    = Js.strip_newlines (decodeJoint (encoded_word "iso-8859-1" "Q" "Caf=E9_noir")).
Proof.
  apply (unquoteString_encoded_word "iso-8859-1" "Q" "Caf=E9_noir");
    try reflexivity.
  discriminate.
Defined.

(** ** read: a plain message, from the text to the result *)

Lemma headers_of_single (kvs : list (string * string)) :
  single_valued (headers_of kvs).
Proof.
  intros k x H. unfold headers_of in H. apply elem_of_list_to_map_2 in H.
  apply list_elem_of_fmap in H as (kv & [= _ ->] & _). eauto.
Qed.

Section PlainMessage.

Context {collab : Collaborators}.

Lemma derive_single {A} (h : Headers) (key : string) (g : JsProp -> Exc A) :
  single_valued h -> is_inherited key = false ->
  (forall v, exists a, g (PStr v) = inr a) ->
  exists x, derive h key g = inr x.
Proof.
  intros Hh Hk Hg. unfold derive, get_prop.
  destruct (h !! key) as [x|] eqn:E.
  - destruct (Hh key x E) as [v ->].
    destruct (truthy (PStr v)); [|eauto].
    destruct (Hg v) as [a ->]. rewrite bind_inr. eauto.
  - rewrite Hk. cbn [truthy]. eauto.
Qed.

(** On a header object without repeated names the fields derived from
    the root headers are always made. *)
Lemma read_scalars_single (h : Headers) :
  single_valued h -> exists r0, read_scalars h = inr r0.
Proof.
  intros Hh. unfold read_scalars.
  assert (Hu : forall v, exists a, unquote_header (PStr v) = inr a)
    by (intros v; eexists; reflexivity).
  assert (Hg : forall v, exists a, getEmailAddress (PStr v) = inr a)
    by (intros v; eexists; reflexivity).
  assert (Hd : forall v, exists a, (fun v => mret (to_str v) : Exc string) (PStr v)
                                   = inr a)
    by (intros v; eexists; reflexivity).
  destruct (derive_single h "Date" _ Hh eq_refl Hd) as [d ->]. rewrite bind_inr.
  destruct (derive_single h "Subject" _ Hh eq_refl Hu) as [s ->]. rewrite bind_inr.
  destruct (derive_single h "From" _ Hh eq_refl Hg) as [f ->]. rewrite bind_inr.
  destruct (derive_single h "To" _ Hh eq_refl Hg) as [t ->]. rewrite bind_inr.
  destruct (derive_single h "CC" _ Hh eq_refl Hg) as [c1 ->]. rewrite bind_inr.
  destruct (derive_single h "Cc" _ Hh eq_refl Hg) as [c2 ->]. rewrite bind_inr.
  eauto.
Qed.

(** X24. A plain message is read from its text: header lines [Name: value]
    with distinct plain names, among them a Content-Type that holds
    [text/plain] and is not multipart, no Content-Disposition and no
    transfer encoding that changes the content; a blank line; and body
    lines, all joined by CR LF. For such a text [read] returns a result,
    whose [headers] map each name to its value and whose [text] is the body
    lines joined by CR LF, with neither [html] nor [attachments]; a callback
    among the arguments is taken not to throw. *)
Theorem read_plain_message (kvs : list (string * string)) (body : list string)
    (options : OptionsArg) (callback : option Callback) :
  callbacks_return options callback ->
  headersOnly (parse_options (shift_options options callback) None) = false ->
  Forall plain_header kvs -> NoDup kvs.*1 ->
  body <> [] -> Forall (fun l => Js.all_chars Js.not_crlf l = true) body ->
  plain_text_part (headers_of kvs) ->
  Re.is_multipart (content_type_of (headers_of kvs)) = false ->
  exists r,
    fst (read (EmlString (Js.join Js.crlf (map header_line kvs ++ "" :: body)))
              options callback) = ReturnsValue r /\
    headers r = Some (headers_of kvs) /\
    text r = Some (Js.join Js.crlf body) /\
    html r = None /\ attachments r = None.
Proof.
  intros Hcb Ho Hall Hnd Hne Hbody Hp Hmp.
  destruct (read_scalars_single _ (headers_of_single kvs)) as [r0 H0].
  destruct (read_scalars_inv _ _ H0) as (c1 & c2 & _ & _ & _ & Hh & Ht & Hhtml & Ha).
  exists (add_text (Js.join Js.crlf body)
            (content_type_of (headers_of kvs),
             encoding_or_empty (transfer_encoding (headers_of kvs))) r0).
  split.
  - unfold read, parse, parse_try.
    rewrite (split_join Js.crlf);
      [|left; reflexivity|destruct kvs; discriminate|].
    + pose proof Hp as (_ & Hct & _).
      rewrite (parseRecursive_leaf getBoundary _ _ kvs body Ho Hall Hnd Hct Hmp).
      rewrite (after_callback_quiet _ _ _ (quiet_parse_callback _ _ Hcb)).
      cbn [returned]. unfold _read, read_try. cbn [part_headers part_body].
      rewrite H0, bind_inr. destruct body as [|l body]; [congruence|].
      cbn [body_of_lines]. rewrite (_append_plain_text _ _ _ Hp).
      cbn [fst]. rewrite (after_callback_quiet _ _ _ (quiet_callback _ _ Hcb)).
      reflexivity.
    + apply Forall_app. split.
      * apply Forall_fmap. eapply Forall_impl; [exact Hall|].
        intros kv Hkv. apply header_line_parts, Hkv.
      * constructor; [reflexivity | exact Hbody].
  - cbn [add_text headers text html attachments]. rewrite Hh, Ht, Hhtml, Ha. auto.
Qed.

End PlainMessage.

Lemma read_plain_message_witness :
  exists r,
    fst (read (EmlString
                 (Js.join Js.crlf
                    (map header_line [("Subject", "Hi"); ("Content-Type", "text/plain")]
                     ++ "" :: ["Hello"; "World"])))
              OptUndefined None) = ReturnsValue r /\
    headers r = Some (headers_of [("Subject", "Hi"); ("Content-Type", "text/plain")]) /\
    text r = Some (Js.join Js.crlf ["Hello"; "World"]) /\
    html r = None /\ attachments r = None.
Proof.
  apply (read_plain_message [("Subject", "Hi"); ("Content-Type", "text/plain")]
           ["Hello"; "World"] OptUndefined None).
  - split; discriminate.
  - reflexivity.
  - repeat constructor; discriminate.
  - cbn. apply NoDup_cons. split; [|apply NoDup_singleton].
    intros H. apply list_elem_of_singleton in H. discriminate H.
  - discriminate.
  - repeat constructor.
  - repeat split; vm_compute; reflexivity.
  - vm_compute. reflexivity.
Defined.

(** ** read: a quoted-printable text part *)

Section Encoded.

Context {collab : Collaborators}.

(** X25. A plain-text part in quoted-printable is decoded with the
    character set of its Content-Type: for a parsed tree with a string
    body, no Content-Disposition, a Content-Type that holds [text/plain]
    and not [text/html], and a transfer encoding that reads
    [quoted-printable] in any mix of upper and lower case, [read] sets
    [text] to the body decoded by [unquotePrintable] with the character set
    named in the Content-Type, or with [utf-8] when it names none. *)
Theorem read_quoted_printable_text (h : Headers) (body e : string)
    (options : OptionsArg) (callback : option Callback) (r : Readed) :
  truthy (get_prop h "Content-Disposition") = false ->
  truthy (content_type_of h) = true ->
  index_found "text/html" (content_type_of h) = false ->
  index_found "text/plain" (content_type_of h) = true ->
  or_else (get_prop h "Content-Transfer-Encoding")
          (get_prop h "Content-transfer-encoding") = PStr e ->
  Js.to_lower e = "quoted-printable" ->
  fst (read (EmlObject (Some (MkPart (Some h) (BStr body)))) options callback)
    = ReturnsValue r ->
  text r = Some (unquotePrintable body
                   (getCharsetName
                      (default defaultCharset (getCharset (content_type_of h))))
                   false) /\
  textheaders r = Some (content_type_of h, PStr "quoted-printable").
Proof.
  intros Hcd Hct Hhtml Hplain He Hlow.
  unfold read, _read, read_try. cbn [fst app part_headers part_body].
  intros Hv; apply after_callback_value in Hv; revert Hv.
  destruct (read_scalars h) as [x|r0] eqn:H0.
  - rewrite bind_inl. unfold returned. destruct (error_truthy x); discriminate.
  - rewrite bind_inr. unfold _append, transfer_encoding. rewrite He, Hlow.
    unfold transfer_decode. cbn [is_str String.eqb Ascii.eqb Bool.eqb as_string].
    rewrite !bind_inr, bind_mret, Hcd, Hct, Hhtml, Hplain.
    cbn [negb andb content_string]. rewrite bind_mret. cbn [returned].
    intros [= <-].
    destruct (read_scalars_inv h r0 H0) as (c1 & c2 & _ & _ & _ & _ & Ht & _).
    cbn [add_text text textheaders encoding_or_empty truthy Js.is_empty negb].
    rewrite Ht. auto.
Qed.

(** X26. [toEmailAddress] renders what [getEmailAddress] returns, in each
    of its three forms: whether the address parser finds no address
    ([null]), one (an object) or several (an array), the rendering of the
    result is the renderings of the addresses found that are not empty,
    with a comma and a space between them. *)
Theorem addresses_rendered (raw : string) :
  exists a,
    getEmailAddress (PStr raw) = inr a /\
    toEmailAddress (AddrData a)
      = Js.join ", "
          (List.filter (fun s => negb (Js.is_empty s))
             (map (fun item => address_text item.1 item.2)
                  (addressparser (unquoteString raw)))).
Proof.
  unfold getEmailAddress, unquote_header. cbn [string_method].
  rewrite !bind_inr, bind_mret.
  destruct (addressparser (unquoteString raw)) as [|[n e] [|y l]];
    eexists; (split; [reflexivity|]).
  - reflexivity.
  - cbn [toEmailAddress map List.filter fst snd].
    destruct (address_text n e); reflexivity.
  - reflexivity.
Qed.

(** ** read: multipartAlternative *)

Lemma fold_inl {A} (stepf : Exc Readed -> A -> Exc Readed) (l : list A)
    (e : JsError) :
  (forall e x, stepf (inl e) x = inl e) -> fold_left stepf l (inl e) = inl e.
Proof.
  intros H. induction l as [|x l IH]; [reflexivity|].
  cbn [fold_left]. rewrite H. exact IH.
Qed.

Lemma _append_alternative hs content r r' :
  _append hs content r = inr r' ->
  multipartAlternative r' = multipartAlternative r.
Proof.
  unfold _append. destruct hs as [h|]; [|discriminate].
  unfold mbind, Exc_bind, mret, Exc_ret.
  repeat case_match; try discriminate; intros [= <-]; reflexivity.
Qed.

Lemma read_nested_alternative r x r' :
  read_nested (inr r) x = inr r' ->
  multipartAlternative r' = multipartAlternative r.
Proof.
  unfold read_nested. rewrite bind_inr.
  destruct x as [s|d ls [[hs b]|]]; [intros [= <-]; reflexivity | | discriminate].
  destruct b as [|s|items]; try apply _append_alternative.
  apply (fold_left_exc append_bound
           (fun r1 => multipartAlternative r1 = multipartAlternative r));
    [reflexivity | | reflexivity].
  intros r1 y r2 Hr. unfold append_bound. rewrite bind_inr.
  destruct y as [s|d' ls' [[hs' b']|]]; try discriminate.
  intros H. rewrite (_append_alternative _ _ _ _ H). exact Hr.
Qed.

Lemma read_block_alternative r item r' :
  read_block (inr r) item = inr r' ->
  multipartAlternative r'
    = match multipartAlternative r with
      | Some ct => Some ct
      | None => nested_multipart item
      end.
Proof.
  unfold read_block, nested_multipart. rewrite bind_inr.
  destruct item as [s|d ls [[hs b]|]];
    try (intros [= <-]; destruct (multipartAlternative _); reflexivity).
  destruct b as [|s|items].
  - intros [= <-]. destruct hs; destruct (multipartAlternative _); reflexivity.
  - intros H. rewrite (_append_alternative _ _ _ _ H).
    destruct hs; destruct (multipartAlternative r); reflexivity.
  - destruct hs as [h|]; [|discriminate]. cbv zeta.
    set (r1 := if truthy (content_type_of h)
                  && index_found "multipart" (content_type_of h)
                  && negb (bool_decide (is_Some (multipartAlternative r)))
               then set_multipartAlternative (content_type_of h) r
               else r).
    change (fold_left read_nested items (mret r1))
      with (fold_left read_nested items (inr r1)).
    intros H.
    assert (H1 : multipartAlternative r' = multipartAlternative r1).
    { revert H. apply (fold_left_exc read_nested
               (fun r2 => multipartAlternative r2 = multipartAlternative r1));
        [reflexivity | | reflexivity].
      intros r2 x r3 Hr H. rewrite (read_nested_alternative _ _ _ H). exact Hr. }
    rewrite H1. subst r1.
    destruct (multipartAlternative r) as [ct|] eqn:E.
    + rewrite bool_decide_eq_true_2 by eauto. cbn [negb]. rewrite andb_false_r.
      exact E.
    + rewrite bool_decide_eq_false_2 by (intros [? [=]]). cbn [negb].
      rewrite andb_true_r.
      destruct (truthy (content_type_of h) && index_found "multipart" (content_type_of h));
        [reflexivity | exact E].
Qed.

Lemma read_blocks_alternative (items : list Item) :
  forall r r',
    fold_left read_block items (inr r) = inr r' ->
    multipartAlternative r'
      = match multipartAlternative r with
        | Some ct => Some ct
        | None => first_nested items
        end.
Proof.
  induction items as [|it items IH]; intros r r'.
  - intros [= <-]. destruct (multipartAlternative r); reflexivity.
  - cbn [fold_left first_nested].
    destruct (read_block (inr r) it) as [e|r1] eqn:E.
    + rewrite fold_inl by reflexivity. discriminate.
    + intros H. rewrite (IH _ _ H), (read_block_alternative _ _ _ E).
      destruct (multipartAlternative r); [reflexivity|].
      destruct (nested_multipart it); reflexivity.
Qed.

(** X27. [multipartAlternative] is decided by the first nested multipart
    part: when [read] succeeds on a tree whose root headers name a boundary
    and whose body is an array, the field holds the Content-Type of the
    first element of the body whose part has an array body and a
    Content-Type that holds [multipart], and it is unset when there is no
    such element; later ones do not replace it. *)
Theorem multipartAlternative_first (h : Headers) (items : list Item)
    (options : OptionsArg) (callback : option Callback) (r : Readed) :
  root_boundary h = true ->
  fst (read (EmlObject (Some (MkPart (Some h) (BArr items)))) options callback)
    = ReturnsValue r ->
  multipartAlternative r = first_nested items.
Proof.
  intros Hb. unfold read, _read, read_try. cbn [fst app part_headers part_body].
  intros Hv; apply after_callback_value in Hv; revert Hv.
  destruct (read_scalars h) as [x|r0] eqn:H0.
  - rewrite bind_inl. unfold returned. destruct (error_truthy x); discriminate.
  - rewrite bind_inr, Hb.
    change (fold_left read_block items (mret r0))
      with (fold_left read_block items (inr r0)).
    destruct (fold_left read_block items (inr r0)) as [x|r1] eqn:E.
    + unfold returned. destruct (error_truthy x); discriminate.
    + cbn [returned]. intros [= <-].
      rewrite (read_blocks_alternative _ _ _ E).
      assert (Hm : multipartAlternative r0 = None).
      { revert H0. unfold read_scalars, mbind, Exc_bind, mret, Exc_ret.
        repeat case_match; try discriminate; intros [= <-]; reflexivity. }
      rewrite Hm. reflexivity.
Qed.

End Encoded.

Lemma read_quoted_printable_text_witness :
  text Ex.qp_result
    = Some (unquotePrintable ("soft =" +:+ Js.crlf +:+ "break")
              (getCharsetName
                 (default defaultCharset
                    (getCharset (content_type_of Ex.qp_headers))))
              false) /\
  textheaders Ex.qp_result
    = Some (content_type_of Ex.qp_headers, PStr "quoted-printable").
Proof.
  apply (read_quoted_printable_text Ex.qp_headers
           ("soft =" +:+ Js.crlf +:+ "break") "Quoted-Printable"
           OptUndefined None Ex.qp_result);
    vm_compute; reflexivity.
Defined.

Lemma multipartAlternative_first_witness :
  multipartAlternative Ex.alternative_result
    = first_nested Ex.alternative_items.
Proof.
  apply (multipartAlternative_first
           {[ "Content-Type" := HStr "multipart/mixed; boundary=B" ]}
           Ex.alternative_items OptUndefined None Ex.alternative_result);
    vm_compute; reflexivity.
Defined.

(** ** read: the name of an attachment *)

Lemma split_char_plain (sep : ascii) (a t cur : string) :
  Js.all_chars (fun c => negb (Ascii.eqb c sep)) a = true ->
  Js.split_char_from sep cur (a +:+ t) = Js.split_char_from sep (cur +:+ a) t.
Proof.
  revert cur. induction a as [|c a IH]; intros cur H.
  - now rewrite append_nil_r.
  - cbn [Js.all_chars] in H. apply andb_true_iff in H as [Hc Ha].
    apply negb_true_iff in Hc.
    change (String c a +:+ t) with (String c (a +:+ t)).
    cbn [Js.split_char_from]. rewrite Hc, (IH _ Ha).
    f_equal. rewrite append_assoc. reflexivity.
Qed.

Lemma split_two (a b : string) :
  Js.all_chars no_semicolon a = true -> Js.all_chars no_semicolon b = true ->
  Js.split_char ";" (a +:+ ";" +:+ b) = [a; b].
Proof.
  intros Ha Hb. unfold Js.split_char.
  rewrite (split_char_plain ";" a _ "" Ha).
  change ("" +:+ a) with a.
  change (";" +:+ b) with (String ";" b). cbn [Js.split_char_from].
  change (Ascii.eqb ";" ";") with true. cbv iota.
  rewrite <- (append_nil_r b) at 1.
  rewrite (split_char_plain ";" b "" "" Hb). reflexivity.
Qed.

Lemma lazy_to_end_quoted (n : string) :
  n <> "" -> Js.all_chars Js.is_dot n = true ->
  Meta.lazy_to_end (n +:+ String Js.dquote "") = Some n.
Proof.
  induction n as [|c n IH]; [congruence|]. intros _ H.
  cbn [Js.all_chars] in H. apply andb_true_iff in H as [Hc Hn].
  change (String c n +:+ String Js.dquote "")
    with (String c (n +:+ String Js.dquote "")).
  cbn [Meta.lazy_to_end]. rewrite Hc.
  destruct n as [|d n].
  - reflexivity.
  - change (String d n +:+ String Js.dquote "")
      with (String d (n +:+ String Js.dquote "")) in *.
    rewrite IH by (congruence || exact Hn).
    destruct (n +:+ String Js.dquote "") eqn:E; [|reflexivity].
    destruct n; discriminate E.
Qed.

Lemma name_exec_step (c : ascii) (r : string) :
  Meta.name_exec (String c r)
    = match Meta.name_at (String c r) with
      | Some g => Some g
      | None => Meta.name_exec r
      end.
Proof. reflexivity. Qed.

Lemma name_exec_filename (n : string) :
  n <> "" -> Js.all_chars Js.is_dot n = true ->
  Meta.name_exec ("filename=" +:+ String Js.dquote (n +:+ String Js.dquote ""))
    = Some n.
Proof.
  intros Hne Hn.
  change ("filename=" +:+ String Js.dquote (n +:+ String Js.dquote ""))
    with (String "f" (String "i" (String "l" (String "e"
            (String "n" (String "a" (String "m" (String "e" (String "="
               (String Js.dquote (n +:+ String Js.dquote ""))))))))))).
  assert (Hv : Meta.name_value (String Js.dquote (n +:+ String Js.dquote ""))
               = Some n).
  { unfold Meta.name_value.
    change (Meta.is_dquote Js.dquote) with true. cbv iota.
    now rewrite lazy_to_end_quoted. }
  do 4 (rewrite name_exec_step;
        match goal with
        | |- context [Meta.name_at ?s] =>
            replace (Meta.name_at s) with (@None string) by reflexivity
        end).
  rewrite name_exec_step.
  match goal with
  | |- context [Meta.name_at ?s] =>
      replace (Meta.name_at s)
        with (Meta.name_value (String Js.dquote (n +:+ String Js.dquote "")))
        by reflexivity
  end.
  now rewrite Hv.
Qed.

Section AttachmentName.

Context {collab : Collaborators}.

(** X28. A Content-Disposition value that, once white space, single quotes,
    utf-8 and a digit between two stars are removed, reads as a first
    parameter without a name followed by filename= and a file name in double
    quotes, gives the attachment the name decodeURI makes of that file
    name. *)
Theorem attachment_name_filename (h : Headers) (value kind n : string) :
  get_prop h "Content-Disposition" = PStr value ->
  Meta.strip_name O value
    = kind +:+ ";" +:+ "filename=" +:+ String Js.dquote (n +:+ String Js.dquote "") ->
  Js.all_chars no_semicolon kind = true ->
  Meta.name_exec kind = None ->
  n <> "" ->
  Js.all_chars file_name_char n = true ->
  attachment_name h = (d ← decodeURI n; mret (Some d)).
Proof.
  intros Hcd Hs Hk Hke Hne Hn.
  assert (Hdot : Js.all_chars Js.is_dot n = true).
  { eapply all_chars_impl; [|exact Hn].
    intros c Hc. unfold file_name_char in Hc.
    now apply andb_true_iff in Hc as [Hc _]. }
  assert (Hsemi : Js.all_chars no_semicolon
            ("filename=" +:+ String Js.dquote (n +:+ String Js.dquote "")) = true).
  { change ("filename=" +:+ String Js.dquote (n +:+ String Js.dquote ""))
      with (String "f" (String "i" (String "l" (String "e"
            (String "n" (String "a" (String "m" (String "e" (String "="
               (String Js.dquote (n +:+ String Js.dquote ""))))))))))).
    cbn [Js.all_chars]. 
    change (no_semicolon Js.dquote) with true.
    repeat (change (no_semicolon _) with true at 1).
    cbn [andb].
    clear -Hn. induction n as [|c n IH]; [reflexivity|].
    cbn [Js.all_chars] in Hn. apply andb_true_iff in Hn as [Hc Hn].
    change (String c n +:+ String Js.dquote "")
      with (String c (n +:+ String Js.dquote "")).
    cbn [Js.all_chars]. rewrite (IH Hn), andb_true_r.
    unfold file_name_char in Hc. now apply andb_true_iff in Hc as [_ Hc]. }
  assert (Hcand : Meta.candidate_name value = n).
  { unfold Meta.candidate_name. rewrite Hs, (split_two _ _ Hk Hsemi).
    cbn [map fold_left]. rewrite Hke, (name_exec_filename n Hne Hdot).
    reflexivity. }
  assert (Hv : value <> "").
  { intros ->. cbn in Hs. destruct kind; discriminate Hs. }
  unfold attachment_name, NameContainer. cbn [name_loop]. rewrite Hcd.
  replace (truthy (PStr value)) with true
    by (destruct value; [congruence|reflexivity]).
  cbn [string_method].
  match goal with
  | |- context [inr value ≫= ?f] => change (inr value ≫= f) with (f value)
  end.
  cbv beta. rewrite Hcand.
  destruct n as [|c n']; [congruence|]. cbn [Js.is_empty].
  match goal with
  | |- (mret ?x ≫= ?f) = _ => change (mret x ≫= f) with (f x)
  end.
  reflexivity.
Qed.

End AttachmentName.

Lemma attachment_name_filename_witness :
  attachment_name
    (headers_of [("Content-Disposition",
                  "attachment; filename=" +:+
                  String Js.dquote ("my file.txt" +:+ String Js.dquote ""))])
    = inr (Some "myfile.txt").
Proof.
  change (inr (Some "myfile.txt") : Exc (option string))
    with (d ← decodeURI "myfile.txt"; mret (Some d)).
  apply (attachment_name_filename
           (headers_of [("Content-Disposition",
                         "attachment; filename=" +:+
                         String Js.dquote ("my file.txt" +:+ String Js.dquote ""))])
           ("attachment; filename=" +:+
            String Js.dquote ("my file.txt" +:+ String Js.dquote ""))
           "attachment" "myfile.txt").
  - vm_compute. reflexivity.
  - vm_compute. reflexivity.
  - vm_compute. reflexivity.
  - vm_compute. reflexivity.
  - discriminate.
  - vm_compute. reflexivity.
Defined.

(** ** read: an HTML part *)

Section HtmlPart.

Context {collab : Collaborators}.

Lemma _append_html (h : Headers) (body : string) (r : Readed) :
  html_part h ->
  _append (Some h) (CString body) r
    = inr (add_html (unwrap_html (transfer_encoding h) (Meta.strip_html O body))
             (content_type_of h, encoding_or_empty (transfer_encoding h)) r).
Proof.
  intros (Hcd & Hct & Hhtml & Henc). unfold _append.
  destruct (transfer_decode_through (content_type_of h) (transfer_encoding h)
              (getCharsetName (default defaultCharset
                                 (getCharset (content_type_of h))))
              (CString body) Henc) as [-> Hb].
  rewrite bind_inr, Hcd, Hct, Hhtml. cbn [negb andb content_string].
  reflexivity.
Qed.

(** X29. A single part that is HTML, without a Content-Disposition and
    under a transfer encoding that passes the content through, is put into
    [html] with every CR LF pair and every [&quot;] removed, and neither
    [text] nor [attachments] is set. When [Base64.atob] throws on that text
    it is kept; when [Base64.atob] accepts it and [Base64.btoa] gives the
    text back, [html] holds what [Base64.atob] returned, although no header
    announces Base64. *)
Theorem read_html_part (h : Headers) (body : string) (options : OptionsArg)
    (callback : option Callback) (r : Readed) :
  html_part h ->
  fst (read (EmlObject (Some (MkPart (Some h) (BStr body)))) options callback)
    = ReturnsValue r ->
  let cleaned := Meta.strip_html O body in
  (forall e, Base64_atob cleaned = inl e -> html r = Some cleaned) /\
  (forall a, Base64_atob cleaned = inr a -> Base64_btoa a = inr cleaned ->
             html r = Some a) /\
  htmlheaders r
    = Some (content_type_of h, encoding_or_empty (transfer_encoding h)) /\
  text r = None /\ attachments r = None.
Proof.
  intros Hp Hr cleaned. revert Hr.
  unfold read, _read, read_try. cbn [fst app part_headers part_body].
  intros Hv; apply after_callback_value in Hv; revert Hv.
  destruct (read_scalars h) as [e|r0] eqn:H0.
  - rewrite bind_inl. unfold returned. destruct (error_truthy e); discriminate.
  - rewrite bind_inr, (_append_html h body r0 Hp). cbn [returned].
    intros [= <-].
    destruct (read_scalars_inv h r0 H0) as (_ & _ & _ & _ & _ & _ & Ht & Hh & Ha).
    destruct Hp as (_ & _ & _ & Henc).
    destruct (transfer_decode_through (content_type_of h) (transfer_encoding h)
                "" (CString body) Henc) as [_ Hb].
    cbn [add_html text html htmlheaders attachments]. rewrite Ht, Hh, Ha.
    unfold unwrap_html. rewrite Hb. fold cleaned.
    repeat split.
    + intros e He. now rewrite He.
    + intros a Ha1 Ha2. rewrite Ha1, Ha2, String.eqb_refl. reflexivity.
Qed.

End HtmlPart.

Lemma read_html_part_witness :
  let cleaned := Meta.strip_html O ("<p>Hi</p>" +:+ Js.crlf) in
  (forall e, Base64_atob cleaned = inl e ->
             html Ex.page_result = Some cleaned) /\
  (forall a, Base64_atob cleaned = inr a -> Base64_btoa a = inr cleaned ->
             html Ex.page_result = Some a) /\
  htmlheaders Ex.page_result
    = Some (content_type_of Ex.page_headers,
            encoding_or_empty (transfer_encoding Ex.page_headers)) /\
  text Ex.page_result = None /\ attachments Ex.page_result = None.
Proof.
  apply (read_html_part Ex.page_headers ("<p>Hi</p>" +:+ Js.crlf)
           OptUndefined None Ex.page_result).
  - repeat split; vm_compute; reflexivity.
  - vm_compute. reflexivity.
Defined.

(** ** read: a Base64 body over several lines *)

Lemma strip_newlines_app (s t : string) :
  Js.all_chars Js.not_crlf s = true ->
  Js.strip_newlines (s +:+ t) = s +:+ Js.strip_newlines t.
Proof.
  induction s as [|c s IH]; [reflexivity|]. intros H.
  cbn [Js.all_chars] in H. apply andb_true_iff in H as [Hc Hs].
  change (String c s +:+ t) with (String c (s +:+ t)).
  cbn [Js.strip_newlines]. unfold Js.not_crlf in Hc.
  apply negb_true_iff, orb_false_iff in Hc as [H13 H10].
  rewrite H10, H13, (IH Hs). reflexivity.
Qed.

Lemma strip_newlines_join (chunks : list string) :
  Forall (fun s => Js.all_chars Js.not_crlf s = true) chunks ->
  Js.strip_newlines (Js.join Js.crlf chunks) = concat_all chunks.
Proof.
  induction 1 as [|s l Hs Hl IH]; [reflexivity|].
  destruct l as [|t l].
  - cbn [Js.join concat_all fold_right]. rewrite <- (append_nil_r s) at 1.
    rewrite (strip_newlines_app s "" Hs). reflexivity.
  - change (Js.join Js.crlf (s :: t :: l))
      with (s +:+ Js.crlf +:+ Js.join Js.crlf (t :: l)).
    rewrite (strip_newlines_app _ _ Hs).
    change (Js.strip_newlines (Js.crlf +:+ Js.join Js.crlf (t :: l)))
      with (Js.strip_newlines (Js.join Js.crlf (t :: l))).
    rewrite IH. reflexivity.
Qed.

Section Base64Body.

Context {collab : Collaborators}.

(** X30. Line breaks inside a Base64 body do not count: for a part whose
    transfer encoding is [base64], in any case of the letters, [read] gives
    for a body of several lines joined by CR LF exactly what it gives for
    the same lines put end to end. *)
Theorem read_base64_wrapped (h : Headers) (chunks : list string)
    (options : OptionsArg) (callback : option Callback) :
  transfer_encoding h = PStr "base64" ->
  Forall (fun s => Js.all_chars Js.not_crlf s = true) chunks ->
  read (EmlObject (Some (MkPart (Some h) (BStr (Js.join Js.crlf chunks)))))
       options callback
    = read (EmlObject (Some (MkPart (Some h) (BStr (concat_all chunks)))))
           options callback.
Proof.
  intros Henc Hc.
  assert (Hplain : Js.all_chars Js.not_crlf (concat_all chunks) = true).
  { clear -Hc. induction Hc as [|s l Hs Hl IH]; [reflexivity|].
    cbn [concat_all fold_right]. fold (concat_all l).
    clear Hl. induction s as [|c s IHs]; [exact IH|].
    cbn [Js.all_chars] in Hs. apply andb_true_iff in Hs as [Hc Hs].
    change (String c s +:+ concat_all l) with (String c (s +:+ concat_all l)).
    cbn [Js.all_chars]. now rewrite Hc, (IHs Hs). }
  assert (Hsame : Js.strip_newlines (Js.join Js.crlf chunks)
                  = Js.strip_newlines (concat_all chunks)).
  { rewrite (strip_newlines_join chunks Hc).
    rewrite <- (append_nil_r (concat_all chunks)) at 2.
    rewrite (strip_newlines_app _ "" Hplain). now rewrite append_nil_r. }
  assert (Ha : forall r, _append (Some h) (CString (Js.join Js.crlf chunks)) r
                       = _append (Some h) (CString (concat_all chunks)) r).
  { intros r. unfold _append, transfer_decode. rewrite Henc.
    cbn [is_str String.eqb Ascii.eqb Bool.eqb as_string]. rewrite !bind_inr.
    rewrite Hsame. reflexivity. }
  unfold read, _read, read_try. cbn [fst app part_headers part_body].
  destruct (read_scalars h) as [e|r0]; [reflexivity|].
  rewrite !bind_inr, Ha. reflexivity.
Qed.

End Base64Body.

Lemma read_base64_wrapped_witness :
  read (EmlObject (Some (MkPart (Some Ex.base64_headers)
                           (BStr (Js.join Js.crlf ["aGVs"; "bG8="])))))
       OptUndefined None
    = read (EmlObject (Some (MkPart (Some Ex.base64_headers)
                               (BStr (concat_all ["aGVs"; "bG8="])))))
           OptUndefined None.
Proof.
  apply (read_base64_wrapped Ex.base64_headers ["aGVs"; "bG8="]
           OptUndefined None).
  - vm_compute. reflexivity.
  - repeat constructor.
Defined.
